(** * The AI-comment renderer of the ticket page

    The ticket page turns the body of a comment written by the AI assistant
    into a confidence badge and an HTML fragment, through a chain of
    [String.prototype.replace] calls with regular expressions.  This file
    embeds that chain: JavaScript strings are lists of UTF-16 code units,
    every regular expression of the page is a term of [regex] that mirrors
    its literal, and a backtracking matcher gives the terms the meaning
    ECMAScript gives the literals.

    It then embeds what stands around the renderer: the labels and colours
    of the ticket page and of the dashboard, the creator of a ticket, the
    navigation of the layout, the authentication store with the storage of
    the browser, and the query of the ticket list. *)

From Stdlib Require Import String Ascii.
From Stdlib Require Import List NArith Bool Arith Lia DecimalString.
Import ListNotations.

Local Open Scope N_scope.
Local Open Scope list_scope.

(** ** JavaScript strings *)

(** A string is the sequence of its UTF-16 code units. *)
Definition jstring := list N.

(** The code units of an ASCII literal. *)
Definition js (s : string) : jstring :=
  map N_of_ascii (list_ascii_of_string s).

Definition NL : N := 10.
Definition DQ : N := 34.

(** LineTerminator :: LF CR LS PS *)
Definition isLineTerminator (c : N) : bool :=
  (c =? 10) || (c =? 13) || (c =? 0x2028) || (c =? 0x2029).

(** WhiteSpace :: TAB VT FF SP NBSP ZWNBSP and the space separators *)
Definition isWhiteSpace (c : N) : bool :=
  (c =? 9) || (c =? 11) || (c =? 12) || (c =? 32) || (c =? 0xA0) ||
  (c =? 0x1680) || ((0x2000 <=? c) && (c <=? 0x200A)) ||
  (c =? 0x202F) || (c =? 0x205F) || (c =? 0x3000) || (c =? 0xFEFF).

(** What [\s] matches and what [trim] strips. *)
Definition isSpace (c : N) : bool := isWhiteSpace c || isLineTerminator c.

Definition isDigit (c : N) : bool := (48 <=? c) && (c <=? 57).

Definition isHighSurrogate (c : N) : bool := (0xD800 <=? c) && (c <=? 0xDBFF).
Definition isLowSurrogate (c : N) : bool := (0xDC00 <=? c) && (c <=? 0xDFFF).

(** UTF16SurrogatePairToCodePoint *)
Definition pairToCodePoint (hi lo : N) : N :=
  0x10000 + (hi - 0xD800) * 0x400 + (lo - 0xDC00).

(** Canonicalize of a pattern without the [u] flag is [toUpperCase] on one
    code unit, except that a code unit of 128 or more is never mapped below
    128.  Every pattern of the page that carries the [i] flag is ASCII, and
    for an ASCII pattern character the comparison of canonical forms is the
    comparison below: only the ASCII letters fold. *)
Definition canonicalize (c : N) : N :=
  if (97 <=? c) && (c <=? 122) then c - 32 else c.

Fixpoint dropWhile {A} (p : A -> bool) (l : list A) : list A :=
  match l with
  | [] => []
  | a :: t => if p a then dropWhile p t else l
  end.

(** [String.prototype.trim] *)
Definition trimStart (s : jstring) : jstring := dropWhile isSpace s.
Definition trimEnd (s : jstring) : jstring := rev (dropWhile isSpace (rev s)).
Definition trim (s : jstring) : jstring := trimEnd (trimStart s).

(** [String.prototype.startsWith] *)
Fixpoint startsWith (p s : jstring) : bool :=
  match p, s with
  | [], _ => true
  | a :: p', b :: s' => (a =? b) && startsWith p' s'
  | _ :: _, [] => false
  end.

(** [String.prototype.includes] *)
Fixpoint includes (p s : jstring) : bool :=
  startsWith p s ||
  match s with
  | [] => false
  | _ :: t => includes p t
  end.

(** [String.prototype.split] with a non-empty string separator: the text is
    cut at every occurrence of the separator met from left to right, each
    search resuming after the previous occurrence.  [skip] counts the code
    units of an occurrence still to be passed over; [cur] is the piece under
    construction, reversed. *)
Fixpoint split_go (sep s : jstring) (skip : nat) (cur : jstring)
  : list jstring :=
  match s with
  | [] => [rev cur]
  | c :: t =>
      match skip with
      | S k => split_go sep t k cur
      | O =>
          if startsWith sep s
          then rev cur :: split_go sep t (pred (length sep)) []
          else split_go sep t 0 (c :: cur)
      end
  end.

Definition split (sep s : jstring) : list jstring := split_go sep s 0 [].

(** [String.prototype.replace] with a string pattern: the first occurrence
    only. *)
Fixpoint replaceFirst (pat by_ s : jstring) : jstring :=
  if startsWith pat s then by_ ++ skipn (length pat) s
  else match s with
       | [] => []
       | c :: t => c :: replaceFirst pat by_ t
       end.

(** ** Regular expressions *)

Inductive citem : Type :=
| CChar (c : N)              (* a class member *)
| CRange (lo hi : N)         (* lo-hi *)
| CSpace                     (* \s *)
| CDigit.                    (* \d *)

Inductive regex : Type :=
| Eps                                   (* the empty pattern *)
| Chr (c : N)                           (* a pattern character *)
| Dot                                   (* . *)
| Cls (neg : bool) (items : list citem) (* [...] and [^...] *)
| Cat (r1 r2 : regex)                   (* r1r2 *)
| Alt (r1 r2 : regex)                   (* r1|r2 *)
| Rep (min : nat) (max : option nat) (greedy : bool) (r : regex)
                                        (* r{min,max} and r{min,max}? *)
| Grp (i : nat) (r : regex)             (* the i-th capturing group *)
| Bol                                   (* ^ *)
| Eol                                   (* $ *)
| Ahead (r : regex).                    (* (?=r) *)

Record flags : Type := Flags {
  ignoreCase : bool;   (* i *)
  multiline : bool;    (* m *)
  unicode : bool       (* u *)
}.

(** The state of a match: the code unit before the current position (none at
    the start of the input), the input from the current position on, and the
    captures made so far. *)
Record mstate : Type := MState {
  prev : option N;
  rest : jstring;
  caps : list (nat * jstring)
}.

Fixpoint getCap (i : nat) (cs : list (nat * jstring)) : option jstring :=
  match cs with
  | [] => None
  | (j, v) :: t => if Nat.eqb i j then Some v else getCap i t
  end.

Definition setCap (i : nat) (v : jstring) (x : mstate) : mstate :=
  MState (prev x) (rest x) ((i, v) :: caps x).

Definition clearCaps (is_ : list nat) (x : mstate) : mstate :=
  MState (prev x) (rest x)
    (filter (fun kv => negb (existsb (Nat.eqb (fst kv)) is_)) (caps x)).

(** The capturing groups inside a pattern. *)
Fixpoint groupsOf (r : regex) : list nat :=
  match r with
  | Cat r1 r2 | Alt r1 r2 => groupsOf r1 ++ groupsOf r2
  | Rep _ _ _ r1 | Ahead r1 => groupsOf r1
  | Grp i r1 => i :: groupsOf r1
  | _ => []
  end.

(** The character at the current position and the state after it: one code
    unit, or with the [u] flag one code point. *)
Definition next (fl : flags) (x : mstate) : option (N * mstate) :=
  match rest x with
  | [] => None
  | c :: t =>
      match t with
      | d :: t' =>
          if unicode fl && isHighSurrogate c && isLowSurrogate d
          then Some (pairToCodePoint c d, MState (Some d) t' (caps x))
          else Some (c, MState (Some c) t (caps x))
      | [] => Some (c, MState (Some c) t (caps x))
      end
  end.

Definition charEq (fl : flags) (a b : N) : bool :=
  if ignoreCase fl then canonicalize a =? canonicalize b else a =? b.

Definition citemMatches (fl : flags) (it : citem) (c : N) : bool :=
  match it with
  | CChar a => charEq fl a c
  | CRange lo hi => (lo <=? c) && (c <=? hi)
  | CSpace => isSpace c
  | CDigit => isDigit c
  end.

Definition clsMatches (fl : flags) (neg : bool) (items : list citem) (c : N)
  : bool :=
  xorb neg (existsb (fun it => citemMatches fl it c) items).

Definition atLineStart (fl : flags) (x : mstate) : bool :=
  match prev x with
  | None => true
  | Some c => multiline fl && isLineTerminator c
  end.

Definition atLineEnd (fl : flags) (x : mstate) : bool :=
  match rest x with
  | [] => true
  | c :: _ => multiline fl && isLineTerminator c
  end.

Definition consumed (x y : mstate) : jstring :=
  firstn (length (rest x) - length (rest y)) (rest x).

(** RepeatMatcher, over the matcher [m1] of the quantified pattern, whose
    capturing groups are [gs].  The captures of these groups are reset before
    each iteration; once [min] iterations are done an iteration that consumes
    nothing is refused; a greedy quantifier tries one more iteration before
    it tries to stop, a lazy one stops first.  Every iteration lowers [min]
    or shortens the rest of the input, so [fuel] above
    [min + length (rest x)] is never used up. *)
Fixpoint repeatMatcher (m1 : mstate -> list mstate) (gs : list nat)
  (greedy : bool) (fuel min : nat) (max : option nat) (x : mstate)
  {struct fuel} : list mstate :=
  match fuel with
  | O => []
  | S fuel' =>
      match max with
      | Some O => [x]
      | _ =>
          let again :=
            flat_map
              (fun y =>
                 if Nat.eqb min 0 &&
                    Nat.eqb (length (rest y)) (length (rest x))
                 then []
                 else repeatMatcher m1 gs greedy fuel' (pred min)
                        (option_map pred max) y)
              (m1 (clearCaps gs x)) in
          match min with
          | S _ => again
          | O => if greedy then again ++ [x] else x :: again
          end
      end
  end.

(** The backtracking matcher.  [matches fl r x] lists the states in which a
    match of [r] begun in [x] can end, in the order in which a backtracking
    matcher tries them: the continuation of an ECMAScript matcher is run on
    the first, then on the second when that fails, and so on. *)
Fixpoint matches (fl : flags) (r : regex) (x : mstate) {struct r}
  : list mstate :=
  match r with
  | Eps => [x]
  | Chr c =>
      match next fl x with
      | Some (d, x') => if charEq fl c d then [x'] else []
      | None => []
      end
  | Dot =>
      match next fl x with
      | Some (d, x') => if isLineTerminator d then [] else [x']
      | None => []
      end
  | Cls neg items =>
      match next fl x with
      | Some (d, x') => if clsMatches fl neg items d then [x'] else []
      | None => []
      end
  | Cat r1 r2 => flat_map (matches fl r2) (matches fl r1 x)
  | Alt r1 r2 => matches fl r1 x ++ matches fl r2 x
  | Rep min max greedy r1 =>
      repeatMatcher (matches fl r1) (groupsOf r1) greedy
        (S (min + length (rest x))) min max x
  | Grp i r1 =>
      map (fun y => setCap i (consumed x y) y) (matches fl r1 x)
  | Bol => if atLineStart fl x then [x] else []
  | Eol => if atLineEnd fl x then [x] else []
  | Ahead r1 =>
      match matches fl r1 x with
      | [] => []
      | y :: _ => [MState (prev x) (rest x) (caps y)]
      end
  end.

(** The first way to match [r] at the position of [x], if there is one. *)
Definition matchAt (fl : flags) (r : regex) (p : option N) (s : jstring)
  : option mstate :=
  hd_error (matches fl r (MState p s [])).

(** With the [u] flag a failed attempt moves on by a code point. *)
Definition pairAt (fl : flags) (c : N) (t : jstring) : bool :=
  match t with
  | d :: _ => unicode fl && isHighSurrogate c && isLowSurrogate d
  | [] => false
  end.

(** The result of [RegExp.prototype.exec]: the text before the match, the
    matched text, and the captures. *)
Record mresult : Type := MResult {
  before : jstring;
  matched : jstring;
  groups : list (nat * jstring);
  after : jstring
}.

(** RegExpBuiltinExec from [lastIndex = 0]: the match is attempted at each
    position from left to right, and the first position where it succeeds
    wins. *)
Fixpoint exec (fl : flags) (r : regex) (p : option N) (s : jstring)
  {struct s} : option mresult :=
  match matchAt fl r p s with
  | Some y =>
      Some (MResult [] (consumed (MState p s []) y) (caps y) (rest y))
  | None =>
      match s with
      | [] => None
      | c :: t =>
          let skip1 :=
            match exec fl r (Some c) t with
            | Some res =>
                Some (MResult (c :: before res) (matched res) (groups res)
                        (after res))
            | None => None
            end in
          match t with
          | d :: t' =>
              if pairAt fl c t then
                match exec fl r (Some d) t' with
                | Some res =>
                    Some (MResult (c :: d :: before res) (matched res)
                            (groups res) (after res))
                | None => None
                end
              else skip1
          | [] => skip1
          end
      end
  end.

(** [RegExp.prototype.test] *)
Definition test (fl : flags) (r : regex) (s : jstring) : bool :=
  match exec fl r None s with Some _ => true | None => false end.

(** A replacement text: literal pieces and [$n] references. *)
Inductive titem : Type :=
| TLit (s : jstring)
| TGrp (i : nat).

(** GetSubstitution: a group that did not take part yields the empty
    string. *)
Definition expand (tmpl : list titem) (cs : list (nat * jstring)) : jstring :=
  flat_map
    (fun it =>
       match it with
       | TLit s => s
       | TGrp i => match getCap i cs with Some v => v | None => [] end
       end) tmpl.

(** [String.prototype.replace] with a pattern that carries the [g] flag.
    The text is walked once: where a match is found its expansion is
    emitted and the matched code units are passed over ([skip] counts those
    still to pass); where none is found the code unit (with [u], the code
    point) is copied and the search resumes after it, as it does after an
    empty match. *)
Fixpoint replace_go (fl : flags) (r : regex) (tmpl : list titem)
  (p : option N) (s : jstring) (skip : nat) {struct s} : jstring :=
  match skip with
  | S k =>
      match s with
      | [] => []
      | c :: t => replace_go fl r tmpl (Some c) t k
      end
  | O =>
      let copy :=
        match s with
        | [] => []
        | c :: t =>
            match t with
            | d :: t' =>
                if pairAt fl c t
                then c :: d :: replace_go fl r tmpl (Some d) t' 0
                else c :: replace_go fl r tmpl (Some c) t 0
            | [] => c :: replace_go fl r tmpl (Some c) t 0
            end
        end in
      match matchAt fl r p s with
      | Some y =>
          expand tmpl (caps y) ++
          match (length s - length (rest y))%nat with
          | O => copy
          | S k =>
              match s with
              | [] => []
              | c :: t => replace_go fl r tmpl (Some c) t k
              end
          end
      | None => copy
      end
  end.

Definition replaceAll (fl : flags) (r : regex) (tmpl : list titem)
  (s : jstring) : jstring :=
  replace_go fl r tmpl None s 0.

(** ** The patterns of the page, in the order of the chain

    Each pattern is preceded by its literal as the page writes it, except
    that a blank separates a star from a closing parenthesis that follows
    it. *)

Definition seq (rs : list regex) : regex := fold_right Cat Eps rs.
Definition lit (s : string) : regex := seq (map Chr (js s)).
Definition star (r : regex) : regex := Rep 0 None true r.        (* r* *)
Definition lazyStar (r : regex) : regex := Rep 0 None false r.   (* r*? *)
Definition plus (r : regex) : regex := Rep 1 None true r.        (* r+ *)
Definition opt (r : regex) : regex := Rep 0 (Some 1%nat) true r. (* r? *)
Definition space : regex := Cls false [CSpace].                  (* \s *)

Definition fl_g : flags := Flags false false false.
Definition fl_gu : flags := Flags false false true.
Definition fl_gi : flags := Flags true false false.
Definition fl_gm : flags := Flags false true false.

(** The members of the first class.  The pattern has no [u] flag, so each
    pictograph beyond the Basic Multilingual Plane contributes its two
    surrogates as two separate members. *)
Definition pictographUnits : list N :=
  [ 0xD83C; 0xDFAF    (* U+1F3AF direct hit *)
  ; 0xD83D; 0xDCCB    (* U+1F4CB clipboard *)
  ; 0xD83D; 0xDD0D    (* U+1F50D magnifying glass *)
  ; 0xD83D; 0xDCA1    (* U+1F4A1 light bulb *)
  ; 0x2705            (* check mark button *)
  ; 0x274C            (* cross mark *)
  ; 0x26A0; 0xFE0F    (* warning sign, variation selector 16 *)
  ; 0xD83D; 0xDE80    (* U+1F680 rocket *)
  ; 0xD83D; 0xDCCA    (* U+1F4CA bar chart *)
  ; 0xD83D; 0xDD27    (* U+1F527 wrench *)
  ; 0x2B50            (* star *)
  ; 0xD83E; 0xDD16    (* U+1F916 robot *)
  ; 0xD83D; 0xDFE2    (* U+1F7E2 green circle *)
  ; 0xD83D; 0xDFE1    (* U+1F7E1 yellow circle *)
  ; 0xD83D; 0xDD34 ]. (* U+1F534 red circle *)

(** "/[...the sixteen pictographs...]/g" *)
Definition rePictographs : regex := Cls false (map CChar pictographUnits).

(** "/[\u{1F600}-\u{1F64F}]|[\u{1F300}-\u{1F5FF}]|[\u{1F680}-\u{1F6FF}]|[\u{1F1E0}-\u{1F1FF}]|[\u{2600}-\u{26FF}]|[\u{2700}-\u{27BF}]/gu" *)
Definition pictographRanges : list (N * N) :=
  [ (0x1F600, 0x1F64F); (0x1F300, 0x1F5FF); (0x1F680, 0x1F6FF);
    (0x1F1E0, 0x1F1FF); (0x2600, 0x26FF); (0x2700, 0x27BF) ].

Definition reRanges : regex :=
  Alt (Cls false [CRange 0x1F600 0x1F64F])
 (Alt (Cls false [CRange 0x1F300 0x1F5FF])
 (Alt (Cls false [CRange 0x1F680 0x1F6FF])
 (Alt (Cls false [CRange 0x1F1E0 0x1F1FF])
 (Alt (Cls false [CRange 0x2600 0x26FF])
      (Cls false [CRange 0x2700 0x27BF]))))).

(** "/(?:^|\n)\s*(?:\*\* )?AI Root Cause Analysis(?:\*\* )?\s*(?:\n|$)/gi" *)
Definition reBannerAI : regex :=
  seq [ Alt Bol (Chr NL); star space; opt (lit "**");
        lit "AI Root Cause Analysis"; opt (lit "**"); star space;
        Alt (Chr NL) Eol ].

(** "/(?:^|\n)\s*(?:\*\* )?Root Cause Analysis(?:\*\* )?\s*(?:\n|$)/gi" *)
Definition reBanner : regex :=
  seq [ Alt Bol (Chr NL); star space; opt (lit "**");
        lit "Root Cause Analysis"; opt (lit "**"); star space;
        Alt (Chr NL) Eol ].

(** "/---.*?Analysis method:.*?(?:\n|$)/gi" *)
Definition reRuleMethod : regex :=
  seq [ lit "---"; lazyStar Dot; lit "Analysis method:"; lazyStar Dot;
        Alt (Chr NL) Eol ].

(** "/.*?Analysis method:.*?(?:\n|$)/gi" *)
Definition reMethod : regex :=
  seq [ lazyStar Dot; lit "Analysis method:"; lazyStar Dot;
        Alt (Chr NL) Eol ].

(** "/^\s*---+\s*$/gm" *)
Definition reRule : regex :=
  seq [ Bol; star space; lit "--"; plus (Chr 45); star space; Eol ].

(** "/^\s*---.*$/gm" *)
Definition reRuleLine : regex :=
  seq [ Bol; star space; lit "---"; star Dot; Eol ].

(** "/\*\*(.*?)\*\*/g" *)
Definition reBold : regex :=
  seq [ lit "**"; Grp 1 (lazyStar Dot); lit "**" ].

(** "/#{1,6}\s(.*?)(?=\n|$)/g" *)
Definition reHeading : regex :=
  seq [ Rep 1 (Some 6%nat) true (Chr 35); space; Grp 1 (lazyStar Dot);
        Ahead (Alt (Chr NL) Eol) ].

(** "/^\s*[-*+]\s(.+)/gm" *)
Definition reBullet : regex :=
  seq [ Bol; star space; Cls false [CChar 45; CChar 42; CChar 43]; space;
        Grp 1 (plus Dot) ].

(** "/^\s*(\d+)\.\s(.+)/gm" *)
Definition reNumbered : regex :=
  seq [ Bol; star space; Grp 1 (plus (Cls false [CDigit])); Chr 46; space;
        Grp 2 (plus Dot) ].

(** "/`([^`]+)`/g" *)
Definition reCode : regex :=
  seq [ Chr 96; Grp 1 (plus (Cls true [CChar 96])); Chr 96 ].

(** "/\[([^\]]+)\]\([^)]+\)/g" *)
Definition reLink : regex :=
  seq [ Chr 91; Grp 1 (plus (Cls true [CChar 93])); Chr 93; Chr 40;
        plus (Cls true [CChar 41]); Chr 41 ].

(** "/\n\n+/g" *)
Definition reBlankLines : regex := seq [ Chr NL; plus (Chr NL) ].

(** "/(?:^|\n)\s*(?:\*\* )?Confidence Level:?\s*([^(\n]*?)(?:\s*\(([^)]+)\))?(?:\n|$)/i" *)
Definition reConfidence : regex :=
  seq [ Alt Bol (Chr NL); star space; opt (lit "**");
        lit "Confidence Level"; opt (Chr 58); star space;
        Grp 1 (lazyStar (Cls true [CChar 40; CChar NL]));
        opt (seq [ star space; Chr 40; Grp 2 (plus (Cls true [CChar 41]));
                   Chr 41 ]);
        Alt (Chr NL) Eol ].

(** "/(?:^|\n)\s*(?:\*\* )?Confidence Level:?.*?(?:\n|$)/gi" *)
Definition reConfidenceLine : regex :=
  seq [ Alt Bol (Chr NL); star space; opt (lit "**");
        lit "Confidence Level"; opt (Chr 58); lazyStar Dot;
        Alt (Chr NL) Eol ].

(** The opening tag of a list line, and the pattern that looks for it at
    the start of a paragraph. *)
Definition listTag : jstring :=
  js "<p class=" ++ [DQ] ++ js "mb-2" ++ [DQ] ++ js ">".

Definition reListTag : regex := Cat Bol (seq (map Chr listTag)).

(** The replacement texts. *)
Definition strongOpen : jstring := js "<strong>".
Definition strongClose : jstring := js "</strong>".
Definition pClose : jstring := js "</p>".
Definition BULLET : N := 0x2022.

Definition tStrong : list titem := [TLit strongOpen; TGrp 1; TLit strongClose].
Definition tBullet : list titem :=
  [TLit (listTag ++ [BULLET; 32]); TGrp 1; TLit pClose].
Definition tNumbered : list titem :=
  [TLit listTag; TGrp 1; TLit (js ". "); TGrp 2; TLit pClose].

(** ** The chain *)

(** Each replacement of the chain, in order, with its flags. *)
Definition stages : list (flags * regex * list titem) :=
  [ (fl_g, rePictographs, []);
    (fl_gu, reRanges, []);
    (fl_gi, reBannerAI, [TLit [NL]]);
    (fl_gi, reBanner, [TLit [NL]]);
    (fl_gi, reRuleMethod, []);
    (fl_gi, reMethod, []);
    (fl_gm, reRule, []);
    (fl_gm, reRuleLine, []);
    (fl_g, reBold, tStrong);
    (fl_g, reHeading, tStrong);
    (fl_gm, reBullet, tBullet);
    (fl_gm, reNumbered, tNumbered);
    (fl_g, reCode, [TGrp 1]);
    (fl_g, reLink, [TGrp 1]);
    (fl_g, reBlankLines, [TLit [NL; NL]]) ].

Definition runStage (s : jstring) (st : flags * regex * list titem)
  : jstring :=
  let '(fl, r, tmpl) := st in replaceAll fl r tmpl s.

(** [processedContent] before the confidence line is taken out. *)
Definition processedContent (content : jstring) : jstring :=
  trim (fold_left runStage stages content).

(** [confidenceMatch] *)
Definition confidenceMatch (processed : jstring) : option mresult :=
  exec fl_gi reConfidence None processed.

Definition capOr (i : nat) (cs : list (nat * jstring)) : jstring :=
  match getCap i cs with Some v => v | None => [] end.

(** [level] *)
Definition level (m : mresult) : jstring := trim (capOr 1 (groups m)).

(** [percentage]: [null] when the second group did not take part. *)
Definition percentage (m : mresult) : option jstring :=
  match getCap 2 (groups m) with
  | Some (c :: v) => Some (trim (c :: v))
  | _ => None
  end.

(** What the badge shows of the percentage. *)
Definition percentageShown (p : jstring) : jstring :=
  replaceFirst (js "%") [] p.

(** [confidenceLevel]; [None] is [null]. *)
Definition confidenceLevel (processed : jstring) : option jstring :=
  match confidenceMatch processed with
  | Some m =>
      match percentage m with
      | Some (c :: p) =>
          Some (level m ++ js " (" ++ percentageShown (c :: p) ++ js "%)")
      | _ => Some (level m)
      end
  | None => None
  end.

(** [processedContent] after the confidence lines are taken out. *)
Definition withoutConfidence (processed : jstring) : jstring :=
  match confidenceMatch processed with
  | Some _ => replaceAll fl_gi reConfidenceLine [TLit [NL]] processed
  | None => processed
  end.

(** The paragraphs that reach the final [map]. *)
Definition paragraphs (text : jstring) : list jstring :=
  filter (fun paragraph => negb (test fl_g reListTag paragraph))
    (filter (fun paragraph => (0 <? length paragraph)%nat)
       (map trim (split [NL; NL] text))).

Definition wrapOpen : jstring :=
  js "<p class=" ++ [DQ] ++ js "mb-3" ++ [DQ] ++ js ">".

Definition wrapParagraph (paragraph : jstring) : jstring :=
  if includes listTag paragraph then paragraph
  else wrapOpen ++ paragraph ++ pClose.

(** [mainContent] *)
Definition mainContent (text : jstring) : jstring :=
  concat (map wrapParagraph (paragraphs text)).

(** What the page paints for the comment of an AI assistant: the badge when
    [confidenceLevel] is truthy, and the HTML set as [innerHTML]. *)
Record Rendered : Type := MkRendered {
  badge : option jstring;
  innerHTML : jstring
}.

Definition truthy (s : option jstring) : option jstring :=
  match s with
  | Some (c :: t) => Some (c :: t)
  | _ => None
  end.

Definition render (content : jstring) : Rendered :=
  let processed := processedContent content in
  MkRendered (truthy (confidenceLevel processed))
             (mainContent (withoutConfidence processed)).

(** The units the consumer paints: a paragraph of prose, which the page
    wraps in its own element, or a paragraph that holds list lines, which
    the page emits as it stands. *)
Inductive ContentBlock : Type :=
| Paragraph (html : jstring)
| Listing (html : jstring).

Definition blockHtml (b : ContentBlock) : jstring :=
  match b with
  | Paragraph h => h
  | Listing h => h
  end.

Definition blockOf (paragraph : jstring) : ContentBlock :=
  if includes listTag paragraph then Listing paragraph
  else Paragraph paragraph.

Definition paint (b : ContentBlock) : jstring :=
  match b with
  | Paragraph h => wrapOpen ++ h ++ pClose
  | Listing h => h
  end.

(** The blocks of a comment body. *)
Definition blocks (content : jstring) : list ContentBlock :=
  map blockOf (paragraphs (withoutConfidence (processedContent content))).

(** ** The comments of a ticket *)

Inductive SystemUserType : Type :=
| ci_automation
| ai_assistant
| data_processor
| notification_service.

Inductive ActorType : Type := human | system.

Record ActorInfo : Type := MkActorInfo {
  info_id : jstring;
  actor_type : ActorType;
  display_name : jstring;
  avatar_url : option jstring;
  is_system : bool;
  system_user_type : option SystemUserType
}.

Record Comment : Type := MkComment {
  id : jstring;
  ticket_id : jstring;
  content : jstring;
  actor_id : jstring;
  created_at : jstring;
  updated_at : option jstring;
  author_info : option ActorInfo
}.

(** [comment.author_info?.system_user_type === 'ai_assistant'] *)
Definition isAIAssistantComment (comment : Comment) : bool :=
  match author_info comment with
  | Some a =>
      match system_user_type a with
      | Some ai_assistant => true
      | _ => false
      end
  | None => false
  end.

(** What the comment list shows of the body of one comment: for an AI
    assistant the rendered fragment, set as [innerHTML]; for anybody else
    the content as a text node of an element styled [whitespace-pre-wrap]. *)
Inductive CommentBody : Type :=
| AIBody (r : Rendered)
| TextBody (text : jstring).

Definition commentBody (comment : Comment) : CommentBody :=
  if isAIAssistantComment comment then AIBody (render (content comment))
  else TextBody (content comment).

(** ** The vocabulary of the properties *)

(** The code points of a string: a high surrogate followed by a low one is
    one code point, any other code unit stands for itself. *)
Fixpoint codePoints (s : jstring) : list N :=
  match s with
  | [] => []
  | c :: t =>
      match t with
      | d :: t' =>
          if isHighSurrogate c && isLowSurrogate d
          then pairToCodePoint c d :: codePoints t'
          else c :: codePoints t
      | [] => [c]
      end
  end.

(** The UTF-16 encoding of a code point. *)
Definition utf16 (cp : N) : jstring :=
  if cp <? 0x10000 then [cp]
  else [0xD800 + (cp - 0x10000) / 0x400; 0xDC00 + (cp - 0x10000) mod 0x400].

(** The sixteen characters written in the first class. *)
Definition pictographPoints : list N :=
  [ 0x1F3AF; 0x1F4CB; 0x1F50D; 0x1F4A1; 0x2705; 0x274C; 0x26A0; 0xFE0F;
    0x1F680; 0x1F4CA; 0x1F527; 0x2B50; 0x1F916; 0x1F7E2; 0x1F7E1; 0x1F534 ].

Definition inRange (c : N) (r : N * N) : bool :=
  (fst r <=? c) && (c <=? snd r).

(** A decorative character, as the two stripping patterns know them: one of
    the sixteen, or a code point of the six ranges. *)
Definition isPictograph (cp : N) : bool :=
  existsb (N.eqb cp) pictographPoints || existsb (inRange cp) pictographRanges.

(** A JavaScript string holds 16-bit code units. *)
Definition isCodeUnit (c : N) : bool := c <? 0x10000.

(** A member of the first class. *)
Definition isPictographUnit (c : N) : bool :=
  existsb (fun u => u =? c) pictographUnits.

(** A code unit that the two stripping patterns leave in place. *)
Definition cleanUnit (c : N) : bool :=
  isCodeUnit c && negb (isPictographUnit c) &&
  negb (inRange c (0x2600, 0x27BF)).

(** No pattern of the chain matches anywhere in the text: it has no
    pictograph, banner, trailer, rule, bold span, heading, list line, code
    span, link or blank line for the chain to act on. *)
Definition unmatched (x : jstring) (st : flags * regex * list titem) : bool :=
  let '(fl, r, _) := st in negb (test fl r x).

Definition noRuleApplies (x : jstring) : bool := forallb (unmatched x) stages.

(** The same, blank lines apart. *)
Definition noMarkup (x : jstring) : bool :=
  forallb (unmatched x) (removelast stages).

(** The literal text of a replacement. *)
Definition tmplLits (tmpl : list titem) : jstring :=
  flat_map (fun it => match it with TLit s => s | TGrp _ => [] end) tmpl.

(** All the literal text the chain can insert. *)
Definition insertedText : jstring :=
  flat_map (fun st : flags * regex * list titem => tmplLits (snd st)) stages
  ++ [NL] ++ wrapOpen ++ pClose.

(** [extends x y]: the state [y] lies further along the input of [x], and
    whatever it has captured beyond the captures of [x] is text of that
    input. *)
Definition extends (x y : mstate) : Prop :=
  (exists pre, rest x = pre ++ rest y) /\
  forall kv, In kv (caps y) -> In kv (caps x) \/ incl (snd kv) (rest x).

(** The code unit before the position reached by passing over [l] from a
    position whose preceding code unit is [p]. *)
Definition prevAfter (p : option N) (l : jstring) : option N :=
  fold_left (fun _ c => Some c) l p.

(** What the first two replacements of the chain leave of a string of code
    units. *)
Definition stripped (s : jstring) : jstring := filter cleanUnit s.

(** The code points from U+1F000 to U+1FBFF: those whose high surrogate is
    one of the three high surrogates of the first pattern. *)
Definition astralPlanePoints : list N :=
  map (fun k => 0x1F000 + N.of_nat k) (List.seq 0%nat 3072%nat).

(** The low surrogate of an astral code point, and the blocks that are left
    of the code point alone. *)
Definition lowHalf (cp : N) : N := 0xDC00 + (cp - 0x10000) mod 0x400.

Definition halfLeft (cp : N) : list ContentBlock :=
  if isPictographUnit (lowHalf cp) then [] else [Paragraph [lowHalf cp]].

Definition blockEqb (a b : ContentBlock) : bool :=
  match a, b with
  | Paragraph x, Paragraph y => if list_eq_dec N.eq_dec x y then true else false
  | Listing x, Listing y => if list_eq_dec N.eq_dec x y then true else false
  | _, _ => false
  end.

Fixpoint blocksEqb (a b : list ContentBlock) : bool :=
  match a, b with
  | [], [] => true
  | x :: a', y :: b' => blockEqb x y && blocksEqb a' b'
  | _, _ => false
  end.

(** The piece under construction of [split_go], which is kept reversed,
    ends with a line feed. *)
Definition endsWithNL (cur : jstring) : bool :=
  match cur with
  | c :: _ => c =? NL
  | [] => false
  end.

(** Every capture of a state has the property that [Q] gives for its
    group. *)
Definition capsSatisfy (Q : nat -> jstring -> Prop) (x : mstate) : Prop :=
  forall i v, In (i, v) (caps x) -> Q i v.

(** Every capturing group of a pattern can only capture a text that has the
    property that [Q] gives for it. *)
Fixpoint groupsSound (fl : flags) (Q : nat -> jstring -> Prop) (r : regex)
  : Prop :=
  match r with
  | Cat r1 r2 | Alt r1 r2 => groupsSound fl Q r1 /\ groupsSound fl Q r2
  | Rep _ _ _ r1 | Ahead r1 => groupsSound fl Q r1
  | Grp i r1 =>
      groupsSound fl Q r1 /\
      forall x y, In y (matches fl r1 x) -> Q i (consumed x y)
  | _ => True
  end.

(** What the two groups of the confidence pattern can capture: the first no
    opening parenthesis and no line feed, the second no closing parenthesis,
    and at least one code unit. *)
Definition confidenceCapture (i : nat) (v : jstring) : Prop :=
  match i with
  | 1%nat => Forall (fun c => c <> 40 /\ c <> NL) v
  | 2%nat => Forall (fun c => c <> 41) v /\ v <> []
  | _ => True
  end.

(** The paragraphs that a list of segments gives: each is trimmed, the
    empty ones and those that begin with the list tag are left out. *)
Definition paragraphsOf (segments : list jstring) : list jstring :=
  filter (fun paragraph => negb (test fl_g reListTag paragraph))
    (filter (fun paragraph => (0 <? length paragraph)%nat)
       (map trim segments)).

(** The scan of the global removal of the confidence lines, from a position
    whose preceding code unit is [p]: the leftmost match of the pattern in
    what is left of the text, then the scan of what follows that match, the
    search resuming where the match ended.  [Scan p s ms tail] gives the
    matches met, in order, and the text after the last of them, in which
    the pattern has no match. *)
Inductive Scan : option N -> jstring -> list mresult -> jstring -> Prop :=
| scan_end (p : option N) (s : jstring) :
    exec fl_gi reConfidenceLine p s = None -> Scan p s [] s
| scan_step (p : option N) (s : jstring) (m : mresult)
    (ms : list mresult) (tail : jstring) :
    exec fl_gi reConfidenceLine p s = Some m ->
    Scan (prevAfter p (before m ++ matched m)) (after m) ms tail ->
    Scan p s (m :: ms) tail.

(** The text that a scan has gone through, and what the removal leaves of
    it: each match gives way to one line feed. *)
Definition scannedText (ms : list mresult) (tail : jstring) : jstring :=
  concat (map (fun m => before m ++ matched m) ms) ++ tail.

Definition textLeft (ms : list mresult) (tail : jstring) : jstring :=
  concat (map (fun m => before m ++ [NL]) ms) ++ tail.

(** ** The labels of the ticket page *)

Definition isAscii (c : N) : bool := c <? 128.

(** [String.prototype.toUpperCase] on a string of ASCII code units: the
    letters a to z are raised, and nothing else changes.  Outside ASCII the
    method may change other code units, and the length of the string: a
    property that rests on what the method does to a code unit is stated
    for ASCII text, which is what a status or a priority is. *)
Definition toUpperCase (s : jstring) : jstring := map canonicalize s.

(** [Array.prototype.join] *)
Fixpoint join (sep : jstring) (l : list jstring) : jstring :=
  match l with
  | [] => []
  | [a] => a
  | a :: t => a ++ sep ++ join sep t
  end.

(** [word.charAt(0).toUpperCase() + word.slice(1)] *)
Definition capitalize (word : jstring) : jstring :=
  toUpperCase (firstn 1 word) ++ skipn 1 word.

(** [formatStatus] *)
Definition formatStatus (status : jstring) : jstring :=
  join (js " ") (map capitalize (split (js "_") status)).

(** [formatPriority] *)
Definition formatPriority (priority : jstring) : jstring :=
  capitalize priority.

Inductive TicketStatus : Type :=
| open | in_progress | in_review | resolved | closed | blocked | on_hold.

Inductive TicketPriority : Type := low | medium | high | critical.

(** The strings that the two types stand for. *)
Definition statusName (s : TicketStatus) : jstring :=
  match s with
  | open => js "open"
  | in_progress => js "in_progress"
  | in_review => js "in_review"
  | resolved => js "resolved"
  | closed => js "closed"
  | blocked => js "blocked"
  | on_hold => js "on_hold"
  end.

Definition priorityName (p : TicketPriority) : jstring :=
  match p with
  | low => js "low"
  | medium => js "medium"
  | high => js "high"
  | critical => js "critical"
  end.

(** [getPriorityColor]; the [default] of the [switch] is out of reach of a
    [TicketPriority]. *)
Definition getPriorityColor (priority : TicketPriority) : jstring :=
  match priority with
  | critical => js "bg-red-500"
  | high => js "bg-orange-500"
  | medium => js "bg-yellow-500"
  | low => js "bg-green-500"
  end.

(** [getStatusColor] *)
Definition getStatusColor (status : TicketStatus) : jstring :=
  match status with
  | open => js "bg-blue-100 text-blue-800"
  | in_progress => js "bg-yellow-100 text-yellow-800"
  | in_review => js "bg-purple-100 text-purple-800"
  | resolved => js "bg-green-100 text-green-800"
  | closed => js "bg-green-100 text-green-800"
  | _ => js "bg-gray-100 text-gray-800"
  end.

(** What [formatStatus] amounts to, read from left to right: [up] tells
    whether the next code unit begins a word. *)
Fixpoint titleWalk (up : bool) (s : jstring) : jstring :=
  match s with
  | [] => []
  | c :: t =>
      if c =? 95 then 32 :: titleWalk true t
      else (if up then canonicalize c else c) :: titleWalk false t
  end.

(** ** The rows of the dashboard and the headers of the comments *)

(** The tag badges of a row of the dashboard: the first two tags, and the
    number of the others when there are more ([tags] is optional). *)
Inductive TagBadge : Type :=
| TagName (tag : jstring)
| TagOverflow (hidden : nat).

Definition tagBadges (tags : option (list jstring)) : list TagBadge :=
  match tags with
  | Some tags =>
      if (0 <? length tags)%nat then
        map TagName (firstn 2 tags) ++
        (if (2 <? length tags)%nat then [TagOverflow (length tags - 2)]
         else [])
      else []
  | None => []
  end.

Definition tagsBehind (b : TagBadge) : nat :=
  match b with
  | TagName _ => 1
  | TagOverflow hidden => hidden
  end.

(** [a || b] on strings: the empty string is falsy. *)
Definition orElse (a : option jstring) (b : jstring) : jstring :=
  match a with
  | Some (c :: t) => c :: t
  | _ => b
  end.

(** The header of a comment: the name over the comment of an AI assistant,
    and the initial and the name over any other. *)
Definition aiAuthorName (comment : Comment) : jstring :=
  orElse (option_map display_name (author_info comment))
    (js "Tickarus AI Assistant").

Definition avatarInitial (comment : Comment) : jstring :=
  toUpperCase
    (firstn 1 (orElse (option_map display_name (author_info comment))
                 (js "U"))).

Definition authorName (comment : Comment) : jstring :=
  match author_info comment with
  | Some a => display_name a
  | None => js "Unknown User"
  end.

(** ** The creator of a ticket *)

Module TicketFields.
Record Ticket : Type := MkTicket {
  id : jstring;
  team_id : jstring;
  title : jstring;
  description : jstring;
  status : TicketStatus;
  priority : TicketPriority;
  assignee_id : option jstring;
  actor_id : jstring;
  created_at : jstring;
  updated_at : option jstring;
  last_activity_at : option jstring;
  tags : option (list jstring);
  comment_count : option N;
  team_name : option jstring;
  creator_info : option ActorInfo
}.
End TicketFields.

Definition actorTypeEqb (a b : ActorType) : bool :=
  match a, b with
  | human, human | system, system => true
  | _, _ => false
  end.

Record CreatorInfo : Type := MkCreatorInfo {
  isSystemCreated : bool;
  isUserCreated : bool;
  creator : option ActorInfo
}.

(** [getTicketCreatorInfo] *)
Definition getTicketCreatorInfo (ticket : TicketFields.Ticket) : CreatorInfo :=
  match TicketFields.creator_info ticket with
  | None => MkCreatorInfo false false None
  | Some creatorInfo =>
      MkCreatorInfo (actorTypeEqb (actor_type creatorInfo) system)
                    (actorTypeEqb (actor_type creatorInfo) human)
                    (Some creatorInfo)
  end.

(** [getActorDisplayName] *)
Definition getActorDisplayName (actor : ActorInfo) : jstring :=
  display_name actor.

(** [getSystemUserIcon], [getSystemUserTypeLabel], [getSystemUserColor]; the
    [default] of each [switch] is out of reach of a [SystemUserType]. *)
Definition getSystemUserIcon (systemUserType : SystemUserType) : jstring :=
  match systemUserType with
  | ci_automation => utf16 0x1F527
  | ai_assistant => utf16 0x1F916
  | data_processor => utf16 0x1F4CA
  | notification_service => utf16 0x1F4E2
  end.

Definition getSystemUserTypeLabel (systemUserType : SystemUserType)
  : jstring :=
  match systemUserType with
  | ci_automation => js "CI Automation"
  | ai_assistant => js "AI Assistant"
  | data_processor => js "Data Processor"
  | notification_service => js "Notification Service"
  end.

Definition getSystemUserColor (systemUserType : SystemUserType) : jstring :=
  match systemUserType with
  | ci_automation => js "text-blue-600"
  | ai_assistant => js "text-purple-600"
  | data_processor => js "text-green-600"
  | notification_service => js "text-orange-600"
  end.

(** What [TicketCreator] returns: one of three layouts.  The avatar is
    there when [showAvatar] is set: a question mark, the icon of the system
    user with its colour, or the initial of the user. *)
Inductive CreatorView : Type :=
| UnknownView (avatar : option jstring)
| SystemView (avatar : option (jstring * jstring))
    (displayName colorClass : jstring) (typeLabel : option jstring)
| UserView (avatar : option jstring) (displayName : jstring).

Definition shown {A} (flag : bool) (a : A) : option A :=
  if flag then Some a else None.

(** [TicketCreator] *)
Definition TicketCreator (ticket : TicketFields.Ticket)
  (showAvatar showTypeLabel : bool) : CreatorView :=
  let creatorInfo := getTicketCreatorInfo ticket in
  match creator creatorInfo with
  | None => UnknownView (shown showAvatar (js "?"))
  | Some actor =>
      let displayName := getActorDisplayName actor in
      match isSystemCreated creatorInfo, system_user_type actor with
      | true, Some t =>
          SystemView
            (shown showAvatar (getSystemUserIcon t, getSystemUserColor t))
            displayName (getSystemUserColor t)
            (shown showTypeLabel (getSystemUserTypeLabel t))
      | _, _ =>
          if isUserCreated creatorInfo
          then UserView
                 (shown showAvatar (toUpperCase (firstn 1 displayName)))
                 displayName
          else UnknownView (shown showAvatar (js "?"))
      end
  end.

(** [TicketCreatorBadge]: the text of the badge. *)
Definition TicketCreatorBadge (ticket : TicketFields.Ticket) : jstring :=
  let creatorInfo := getTicketCreatorInfo ticket in
  match creator creatorInfo with
  | None => js "Unknown Creator"
  | Some actor =>
      match isSystemCreated creatorInfo, system_user_type actor with
      | true, Some t =>
          getSystemUserIcon t ++ js " " ++ getSystemUserTypeLabel t
      | _, _ =>
          if isUserCreated creatorInfo
          then utf16 0x1F464 ++ js " User Created"
          else js "Unknown Creator"
      end
  end.

Definition viewAvatar (v : CreatorView) : option jstring :=
  match v with
  | UnknownView a => a
  | SystemView a _ _ _ => option_map fst a
  | UserView a _ => a
  end.

Definition isUnknownView (v : CreatorView) : bool :=
  match v with
  | UnknownView _ => true
  | _ => false
  end.

(** ** The layout of the dashboard *)

(** [===] on strings *)
Fixpoint strEqb (a b : jstring) : bool :=
  match a, b with
  | [], [] => true
  | x :: a', y :: b' => (x =? y) && strEqb a' b'
  | _, _ => false
  end.

Record NavItem : Type := MkNavItem {
  name : jstring;
  href : jstring
}.

Definition navigation : list NavItem :=
  [ MkNavItem (js "Dashboard") (js "/dashboard");
    MkNavItem (js "Tickets") (js "/tickets");
    MkNavItem (js "Teams") (js "/teams") ].

(** [isPathActive], with the [pathname] of the page made explicit. *)
Definition isPathActive (pathname href : jstring) : bool :=
  if strEqb pathname href then true
  else if strEqb href (js "/tickets") && strEqb pathname (js "/tickets/my")
  then false
  else if strEqb href (js "/tickets/my") && strEqb pathname (js "/tickets")
  then false
  else if negb (strEqb href (js "/tickets")) &&
          startsWith (href ++ js "/") pathname
  then true
  else false.

(** ** The authentication store *)

Module UserFields.
Record User : Type := MkUser {
  id : jstring;
  email : jstring;
  full_name : option jstring
}.
End UserFields.

Record AuthResponse : Type := MkAuthResponse {
  access_token : jstring;
  refresh_token : jstring;
  token_type : jstring;
  expires_in : N
}.

(** The data of the store. *)
Record AuthState : Type := MkAuthState {
  user : option UserFields.User;
  isAuthenticated : bool;
  isLoading : bool;
  isInitialized : bool
}.

(** The argument of [set]: the fields that it names. *)
Record Patch : Type := MkPatch {
  setUser : option (option UserFields.User);
  setIsAuthenticated : option bool;
  setIsLoading : option bool;
  setIsInitialized : option bool
}.

Definition orKeep {A} (new : option A) (old : A) : A :=
  match new with
  | Some a => a
  | None => old
  end.

Definition set (p : Patch) (st : AuthState) : AuthState :=
  MkAuthState (orKeep (setUser p) (user st))
              (orKeep (setIsAuthenticated p) (isAuthenticated st))
              (orKeep (setIsLoading p) (isLoading st))
              (orKeep (setIsInitialized p) (isInitialized st)).

(** What a key of [localStorage] holds: a string.  The entry that the
    [persist] middleware keeps is the JSON text of the part of the state
    that [partialize] selects, the user and [isAuthenticated]; it stands
    here as that part, not as its text. *)
Inductive Item : Type :=
| Text (s : jstring)
| Persisted (u : option UserFields.User) (authenticated : bool).

(** [localStorage] *)
Definition Storage := list (jstring * Item).

Fixpoint getItem (key : jstring) (s : Storage) : option Item :=
  match s with
  | [] => None
  | (k, v) :: t => if strEqb key k then Some v else getItem key t
  end.

Definition removeItem (key : jstring) (s : Storage) : Storage :=
  filter (fun kv => negb (strEqb key (fst kv))) s.

Definition setItem (key : jstring) (value : Item) (s : Storage) : Storage :=
  (key, value) :: removeItem key s.

(** [if (token)]: a string that is there and is not empty. *)
Definition truthyItem (i : option Item) : bool :=
  match i with
  | None | Some (Text []) => false
  | Some _ => true
  end.

(** The key of the [persist] middleware: its option [name]. *)
Definition AUTH_STORAGE : jstring := js "auth-storage".

(** What the store and the client do to the world around them, one step at
    a time. *)
Inductive Effect : Type :=
| SetState (p : Patch)
| SetItem (key value : jstring)
| RemoveItem (key : jstring)
| GoTo (location : jstring).

Record World : Type := MkWorld {
  auth : AuthState;
  storage : Storage;
  location : option jstring
}.

(** One step.  The store is created inside [persist]: every [set] is
    followed by the write of the part of the new state that the middleware
    keeps, under its key. *)
Definition perform (w : World) (e : Effect) : World :=
  match e with
  | SetState p =>
      let st := set p (auth w) in
      MkWorld st
        (setItem AUTH_STORAGE (Persisted (user st) (isAuthenticated st))
           (storage w))
        (location w)
  | SetItem k v =>
      MkWorld (auth w) (setItem k (Text v) (storage w)) (location w)
  | RemoveItem k => MkWorld (auth w) (removeItem k (storage w)) (location w)
  | GoTo l => MkWorld (auth w) (storage w) (Some l)
  end.

Definition run (es : list Effect) (w : World) : World :=
  fold_left perform es w.

(** The outcome of a request: the response, a refusal with status 401, or
    any other failure. *)
Inductive ApiResult (A : Type) : Type :=
| Ok (a : A)
| Unauthorized
| Failed.
Arguments Ok {A} a.
Arguments Unauthorized {A}.
Arguments Failed {A}.

Definition ACCESS : jstring := js "access_token".
Definition REFRESH : jstring := js "refresh_token".

(** The response interceptor of the client. *)
Definition intercepted {A} (r : ApiResult A) : list Effect :=
  match r with
  | Unauthorized => [RemoveItem ACCESS; RemoveItem REFRESH; GoTo (js "/login")]
  | _ => []
  end.

(** [apiClient.login]: the tokens are stored when the request succeeds. *)
Definition apiLogin (r : ApiResult AuthResponse) : list Effect :=
  match r with
  | Ok data => [SetItem ACCESS (access_token data);
                SetItem REFRESH (refresh_token data)]
  | _ => intercepted r
  end.

(** [login], given the outcomes of its two requests. *)
Definition login (response : ApiResult AuthResponse)
  (me : ApiResult UserFields.User) : list Effect :=
  SetState (MkPatch None None (Some true) None) ::
  apiLogin response ++
  match response with
  | Ok _ =>
      match me with
      | Ok u =>
          [SetState (MkPatch (Some (Some u)) (Some true) (Some false)
                       (Some true))]
      | _ => intercepted me ++ [SetState (MkPatch None None (Some false) None)]
      end
  | _ => [SetState (MkPatch None None (Some false) None)]
  end.

(** [register], given the outcome of its request: the user of the store is
    built from the response and from the name that was given. *)
Definition register (fullName : option jstring)
  (response : ApiResult (jstring * jstring)) : list Effect :=
  SetState (MkPatch None None (Some true) None) ::
  match response with
  | Ok (user_id, email) =>
      [SetState (MkPatch (Some (Some (UserFields.MkUser user_id email fullName)))
                   (Some false) (Some false) None)]
  | _ =>
      intercepted response ++
      [SetState (MkPatch None None (Some false) None)]
  end.

(** [logout] *)
Definition logout : list Effect :=
  [RemoveItem ACCESS; RemoveItem REFRESH;
   SetState (MkPatch (Some None) (Some false) None (Some true))].

(** [initializeAuth], given the storage that it reads and the outcome of its
    request. *)
Definition initializeAuth (s : Storage) (me : ApiResult UserFields.User)
  : list Effect :=
  if truthyItem (getItem ACCESS s) then
    match me with
    | Ok u => [SetState (MkPatch (Some (Some u)) (Some true) None (Some true))]
    | _ =>
        intercepted me ++
        [RemoveItem ACCESS; RemoveItem REFRESH;
         SetState (MkPatch (Some None) (Some false) None (Some true))]
    end
  else [SetState (MkPatch None (Some false) None (Some true))].

(** The state in which the store is created. *)
Definition initialState : AuthState := MkAuthState None false false false.

(** An effect that some call of the store can have. *)
Definition issued (e : Effect) : Prop :=
  (exists response me, In e (login response me)) \/
  (exists fullName response, In e (register fullName response)) \/
  In e logout \/
  (exists s me, In e (initializeAuth s me)).

(** What [DashboardLayout] returns, and whether its effect sends the
    browser to the login page. *)
Inductive LayoutView : Type := LoadingView | NoView | PageView.

Definition layoutView (st : AuthState) : LayoutView :=
  if negb (isInitialized st) then LoadingView
  else if negb (isAuthenticated st) then NoView
  else PageView.

Definition redirectsToLogin (st : AuthState) : bool :=
  isInitialized st && negb (isAuthenticated st).

(** [handleLogout] *)
Definition handleLogout : list Effect := logout ++ [GoTo (js "/login")].

Definition consistent (st : AuthState) : Prop :=
  isAuthenticated st = true -> user st <> None.

(** ** The side bar *)

(** The avatar of the side bar: the initial in it, and the name beside it
    ([undefined] is [None]). *)
Definition userFullName (user : option UserFields.User) : option jstring :=
  match user with
  | Some u => UserFields.full_name u
  | None => None
  end.

Definition userEmail (user : option UserFields.User) : option jstring :=
  option_map UserFields.email user.

(** [(user?.full_name?.charAt(0) || user?.email?.charAt(0) || 'U')
    .toUpperCase()] *)
Definition sidebarInitial (user : option UserFields.User) : jstring :=
  toUpperCase
    (orElse (option_map (firstn 1) (userFullName user))
       (orElse (option_map (firstn 1) (userEmail user)) (js "U"))).

(** [user?.full_name || user?.email] *)
Definition sidebarName (user : option UserFields.User) : option jstring :=
  match truthy (userFullName user) with
  | Some n => Some n
  | None => userEmail user
  end.

(** ** The query of the ticket list *)

(** The value of a filter: absent, or a string, a number (a natural number
    here: a page or a page size), a boolean, or an array of strings. *)
Inductive FilterValue : Type :=
| FUndefined
| FNull
| FString (s : jstring)
| FNumber (n : N)
| FBoolean (b : bool)
| FArray (items : list jstring).

(** [value.toString()] of a scalar *)
Definition toString (v : FilterValue) : jstring :=
  match v with
  | FString s => s
  | FNumber n => js (NilZero.string_of_uint (N.to_uint n))
  | FBoolean true => js "true"
  | FBoolean false => js "false"
  | _ => []
  end.

(** [URLSearchParams]: the list of its pairs, with [append] and [set]. *)
Definition SearchParams := list (jstring * jstring).

Definition paramsAppend (key value : jstring) (ps : SearchParams)
  : SearchParams :=
  ps ++ [(key, value)].

Fixpoint paramsSet (key value : jstring) (ps : SearchParams) : SearchParams :=
  match ps with
  | [] => [(key, value)]
  | (k, v) :: t =>
      if strEqb k key
      then (key, value) :: filter (fun kv => negb (strEqb (fst kv) key)) t
      else (k, v) :: paramsSet key value t
  end.

(** The body of the loop of [getTickets] over the entries of the filters. *)
Definition addFilter (params : SearchParams) (entry : jstring * FilterValue)
  : SearchParams :=
  let '(key, value) := entry in
  match value with
  | FUndefined | FNull => params
  | FArray items => fold_left (fun ps v => paramsAppend key v ps) items params
  | _ => paramsSet key (toString value) params
  end.

(** The parameters that [getTickets] sends. *)
Definition ticketParams (filters : list (jstring * FilterValue))
  : SearchParams :=
  fold_left addFilter filters [].

(** The parameters that one entry stands for. *)
Definition entryParams (entry : jstring * FilterValue) : SearchParams :=
  match snd entry with
  | FUndefined | FNull => []
  | FArray items => map (pair (fst entry)) items
  | v => [(fst entry, toString v)]
  end.

(** ** The inputs of the examples *)

Definition listExample : jstring :=
  js "- first" ++ [NL] ++ js "- second" ++ [NL; NL] ++
  js "1. one" ++ [NL] ++ js "2. two".

Definition introListExample : jstring :=
  js "Steps:" ++ [NL] ++ js "- first" ++ [NL] ++ js "- second".

Definition twoConfidenceExample : jstring :=
  js "Confidence Level: High" ++ [NL; NL] ++ js "Body" ++ [NL; NL] ++
  js "Confidence Level: Low".

Definition adjacentConfidenceExample : jstring :=
  js "Confidence Level: High" ++ [NL] ++ js "Confidence Level: Low" ++
  [NL; NL] ++ js "Body".

(** The matches met in [twoConfidenceExample]: the one that gives the
    confidence, and the first two of the removal. *)
Definition exConfidence : mresult :=
  MResult [] (js "Confidence Level: High" ++ [NL]) [(1%nat, js "High")]
    ([NL] ++ js "Body" ++ [NL; NL] ++ js "Confidence Level: Low").

Definition exFirst : mresult :=
  MResult [] (js "Confidence Level: High" ++ [NL]) []
    ([NL] ++ js "Body" ++ [NL; NL] ++ js "Confidence Level: Low").

Definition exLater : mresult :=
  MResult ([NL] ++ js "Body") ([NL; NL] ++ js "Confidence Level: Low") [] [].

Definition ruleExample : jstring := js "---".

Definition confidenceOnlyExample : jstring := js "Confidence Level: High".

Definition emojiExample : jstring :=
  [0xD83D; 0xDE80] ++ js " Deploy " ++ [0x2600; 0x2705; 0xD83D; 0xDE00] ++
  js " done".

Definition confidenceExample : jstring :=
  js "Confidence Level: High (82%)" ++ [NL; NL] ++ js "Body text".

Definition mediumExample : jstring :=
  js "Confidence Level: Medium" ++ [NL; NL] ++ js "Body".

Definition bannerExample : jstring :=
  js "**AI Root Cause Analysis**" ++ [NL; NL] ++ js "Real content" ++
  [NL; NL] ++ js "---" ++ [NL] ++ js "Analysis method: pattern-based".

Definition twoParagraphExample : jstring := js "a" ++ [NL; NL] ++ js "b".

Definition plainExample : jstring := js "  The service restarted twice.  ".

Definition blankRunExample : jstring :=
  js "A" ++ [NL; NL; NL; NL; NL] ++ js "B".

Definition listRunExample : jstring := js "Intro" ++ [NL; NL; NL] ++ js "- item".

Definition bannerRunExample : jstring :=
  js "A" ++ [NL; NL] ++ js "AI Root Cause Analysis" ++ [NL; NL] ++ js "B".

Definition crlfExample : jstring := js "A" ++ [13; NL; 13; NL] ++ js "B".

Definition humanComment : Comment :=
  MkComment (js "c1") (js "t1") (js "line one" ++ [NL] ++ js "**line two**")
    (js "u1") (js "2025-01-01") None
    (Some (MkActorInfo (js "u1") human (js "Ada") None false None)).

Definition botComment : Comment :=
  MkComment (js "c2") (js "t1") (js "build passed") (js "s1")
    (js "2025-01-01") None
    (Some (MkActorInfo (js "s1") system (js "CI") None true
             (Some ci_automation))).

Definition scriptExample : jstring :=
  js "<script>alert(1)</script> & **x**".

Definition tagExample : jstring := js "<script>alert(1)</script>".

Definition droppedExample : jstring :=
  js "- item" ++ [NL] ++ js "text with <b> & more".

Definition checkMarkExample : jstring := js "Fix " ++ 0x2705 :: js "done".

Definition ciActor : ActorInfo :=
  MkActorInfo (js "s1") system (js "Build Bot") None true (Some ci_automation).

Definition ciActorOther : ActorInfo :=
  MkActorInfo (js "s2") system (js "Build Bot") (Some (js "/bot.png")) false
    (Some ci_automation).

Definition ticketOf (a : ActorInfo) : TicketFields.Ticket :=
  TicketFields.MkTicket (js "t1") (js "team") (js "Build fails") (js "It fails.")
    open high None (js "s1") (js "2025-01-01") None None None None None
    (Some a).

Definition aliceUser : UserFields.User :=
  UserFields.MkUser (js "u1") (js "alice@example.com") (Some (js "Alice")).

Definition aliceTokens : AuthResponse :=
  MkAuthResponse (js "access") (js "refresh") (js "bearer") 3600.

Definition freshWorld : World := MkWorld initialState [] None.

(** A session: a login that succeeds, then a logout, then a login that is
    refused. *)
Definition sessionExample : list Effect :=
  login (Ok aliceTokens) (Ok aliceUser) ++ logout ++
  login Unauthorized Failed.

(** The filters of the dashboard's query. *)
Definition dashboardFilters : list (jstring * FilterValue) :=
  [ (js "page", FNumber 1); (js "page_size", FNumber 5) ].

(** * Lemmas *)

(** Closed facts are settled by evaluation. *)
Ltac by_eval := vm_compute; reflexivity.

Create HintDb jsdb.

(** ** Strings *)

Section DropWhile.
  Context {A : Type} (p : A -> bool).


Lemma dropWhile_suffix (l : list A) :
  exists pre, l = pre ++ dropWhile p l.
Proof.
  induction l as [|a l IH]; simpl.
  - exists []. reflexivity.
  - destruct (p a).
    + destruct IH as [pre E]. exists (a :: pre). simpl. now rewrite <- E.
    + exists []. reflexivity.
Qed.

Lemma dropWhile_fixed (a : A) (l : list A) :
  p a = false -> dropWhile p (a :: l) = a :: l.
Proof. intros H. simpl. now rewrite H. Qed.

Lemma dropWhile_head (l : list A) :
  dropWhile p l = [] \/
  exists a t, dropWhile p l = a :: t /\ p a = false.
Proof.
  induction l as [|a l IH]; simpl; auto.
  destruct (p a) eqn:E; auto.
  right. exists a, l. auto.
Qed.

Lemma dropWhile_idem (l : list A) :
  dropWhile p (dropWhile p l) = dropWhile p l.
Proof.
  destruct (dropWhile_head l) as [E | (a & t & E & H)]; rewrite E.
  - reflexivity.
  - now apply dropWhile_fixed.
Qed.

Lemma dropWhile_app_last (l : list A) (a : A) :
  p a = false -> dropWhile p (l ++ [a]) = dropWhile p l ++ [a].
Proof.
  intros H. induction l as [|b l IH]; simpl.
  - now rewrite H.
  - destruct (p b); auto.
Qed.

End DropWhile.

Lemma trimEnd_substring (s : jstring) : exists post, s = trimEnd s ++ post.
Proof.
  unfold trimEnd.
  destruct (dropWhile_suffix isSpace (rev s)) as [pre E].
  exists (rev pre).
  rewrite <- rev_app_distr, <- E. now rewrite rev_involutive.
Qed.

Lemma trim_substring (s : jstring) :
  exists pre post, s = pre ++ trim s ++ post.
Proof.
  unfold trim.
  destruct (dropWhile_suffix isSpace s) as [pre E].
  destruct (trimEnd_substring (trimStart s)) as [post E'].
  exists pre, post. unfold trimStart in *. now rewrite <- E', <- E.
Qed.

Lemma trimEnd_keeps_head (s : jstring) :
  trimStart s = s -> trimStart (trimEnd s) = trimEnd s.
Proof.
  unfold trimStart, trimEnd. intros H.
  destruct s as [|c s]; [reflexivity|].
  assert (Hc : isSpace c = false).
  { simpl in H. destruct (isSpace c); [|reflexivity].
    destruct (dropWhile_suffix isSpace s) as [pre E].
    rewrite H in E. apply (f_equal (@length N)) in E.
    rewrite length_app in E. simpl in E. lia. }
  simpl rev. rewrite dropWhile_app_last by assumption.
  rewrite rev_app_distr. simpl. now rewrite Hc.
Qed.

Lemma trimEnd_idem (s : jstring) : trimEnd (trimEnd s) = trimEnd s.
Proof.
  unfold trimEnd. rewrite rev_involutive. now rewrite dropWhile_idem.
Qed.

Lemma trim_idem (s : jstring) : trim (trim s) = trim s.
Proof.
  unfold trim.
  rewrite trimEnd_keeps_head.
  - apply trimEnd_idem.
  - apply dropWhile_idem.
Qed.

Lemma trim_In (s : jstring) (c : N) : In c (trim s) -> In c s.
Proof.
  intros H. destruct (trim_substring s) as (pre & post & E).
  rewrite E. apply in_or_app. right. apply in_or_app. now left.
Qed.

Lemma startsWith_app (p s : jstring) : startsWith p (p ++ s) = true.
Proof.
  induction p as [|a p IH]; simpl; [reflexivity|].
  now rewrite N.eqb_refl.
Qed.

Lemma startsWith_prefix (p s : jstring) :
  startsWith p s = true -> exists t, s = p ++ t.
Proof.
  revert s. induction p as [|a p IH]; intros s H; simpl in *.
  - now exists s.
  - destruct s as [|b s]; [discriminate|].
    apply andb_prop in H. destruct H as [H1 H2].
    apply N.eqb_eq in H1. subst b.
    destruct (IH _ H2) as [t ->]. now exists t.
Qed.

Lemma startsWith_includes (p s : jstring) :
  startsWith p s = true -> includes p s = true.
Proof. destruct s; simpl; intros ->; reflexivity. Qed.

Lemma includes_spec (p s : jstring) :
  includes p s = true <-> exists a b, s = a ++ p ++ b.
Proof.
  split.
  - induction s as [|c s IH]; simpl; intros H.
    + rewrite orb_false_r in H. apply startsWith_prefix in H.
      destruct H as [t E]. exists [], t. exact E.
    + apply orb_prop in H. destruct H as [H | H].
      * apply startsWith_prefix in H. destruct H as [t E].
        exists [], t. exact E.
      * destruct (IH H) as (a & b & E). exists (c :: a), b.
        simpl. now rewrite E.
  - intros (a & b & E). subst s. induction a as [|c a IH]; simpl.
    + apply startsWith_includes, startsWith_app.
    + rewrite IH. apply orb_true_r.
Qed.

Lemma includes_substring (p s pre post : jstring) :
  includes p s = true -> includes p (pre ++ s ++ post) = true.
Proof.
  rewrite !includes_spec. intros (a & b & E). subst s.
  exists (pre ++ a), (b ++ post). now rewrite !app_assoc.
Qed.

Lemma includes_trim (p s : jstring) :
  includes p s = false -> includes p (trim s) = false.
Proof.
  intros H. destruct (includes p (trim s)) eqn:E; [|reflexivity].
  destruct (trim_substring s) as (pre & post & Es).
  rewrite Es, (includes_substring _ _ pre post E) in H. discriminate.
Qed.

Lemma split_go_none (sep : jstring) :
  forall s cur, includes sep s = false ->
  split_go sep s 0 cur = [rev cur ++ s].
Proof.
  induction s as [|c t IH]; intros cur H.
  - simpl. now rewrite app_nil_r.
  - cbn [includes] in H. apply orb_false_elim in H. destruct H as [H1 H2].
    cbn [split_go]. rewrite H1, (IH _ H2). simpl.
    now rewrite <- app_assoc.
Qed.

Lemma split_none (sep s : jstring) :
  includes sep s = false -> split sep s = [s].
Proof. intros H. unfold split. now rewrite split_go_none. Qed.

Lemma split_go_In (sep : jstring) (c : N) :
  forall s skip cur piece,
  In piece (split_go sep s skip cur) -> In c piece -> In c s \/ In c cur.
Proof.
  induction s as [|c0 t IH]; intros skip cur piece H Hc; cbn [split_go] in H.
  - destruct H as [<- | []]. right. now apply in_rev.
  - destruct skip as [|k].
    + destruct (startsWith sep (c0 :: t)).
      * destruct H as [<- | H].
        -- right. now apply in_rev.
        -- destruct (IH _ _ _ H Hc) as [H' | []]. left. now right.
      * destruct (IH _ _ _ H Hc) as [H' | [<- | H']]; auto.
        -- left. now right.
        -- left. now left.
    + destruct (IH _ _ _ H Hc) as [H' | H']; auto. left. now right.
Qed.

Lemma option_map_none {A B} (f : A -> B) (o : option A) :
  option_map f o = None -> o = None.
Proof. destruct o; [discriminate|reflexivity]. Qed.

Lemma flat_map_ext_In {A B} (f g : A -> list B) (l : list A) :
  (forall a, In a l -> f a = g a) -> flat_map f l = flat_map g l.
Proof.
  induction l as [|a l IH]; intros H; simpl; [reflexivity|].
  rewrite (H a (or_introl eq_refl)), IH; [reflexivity|].
  intros b Hb. apply H. now right.
Qed.

Lemma hd_error_In {A} (y : A) (l : list A) : In y l -> hd_error l <> None.
Proof. destruct l; [intros [] | discriminate]. Qed.

Lemma prevAfter_app (p : option N) (a b : jstring) :
  prevAfter (prevAfter p a) b = prevAfter p (a ++ b).
Proof. unfold prevAfter. now rewrite fold_left_app. Qed.

(** ** The matcher *)

(** *** Matches consume the input from left to right and capture its text *)


Lemma extends_refl (x : mstate) : extends x x.
Proof. split; [now exists [] | auto]. Qed.

Lemma extends_trans (x y z : mstate) :
  extends x y -> extends y z -> extends x z.
Proof.
  intros [[p1 E1] C1] [[p2 E2] C2]. split.
  - exists (p1 ++ p2). now rewrite E1, E2, app_assoc.
  - intros kv H. destruct (C2 kv H) as [H' | H'].
    + auto.
    + right. intros c Hc. rewrite E1. apply in_or_app. right. now apply H'.
Qed.

Lemma extends_length (x y : mstate) :
  extends x y -> (length (rest y) <= length (rest x))%nat.
Proof. intros [[pre E] _]. rewrite E, length_app. lia. Qed.

Lemma clearCaps_extends (gs : list nat) (x y : mstate) :
  extends (clearCaps gs x) y -> extends x y.
Proof.
  intros [E C]. split; [exact E|].
  intros kv H. destruct (C kv H) as [H' | H']; [left | now right].
  simpl in H'. now apply filter_In in H'.
Qed.

Lemma consumed_incl (x y : mstate) : incl (consumed x y) (rest x).
Proof.
  intros c H. unfold consumed in H.
  rewrite <- (firstn_skipn (length (rest x) - length (rest y)) (rest x)).
  apply in_or_app. now left.
Qed.

#[local] Hint Resolve extends_refl : jsdb.


Lemma repeatMatcher_S (m1 : mstate -> list mstate) (gs : list nat)
  (greedy : bool) (fuel min : nat) (max : option nat) (x : mstate) :
  repeatMatcher m1 gs greedy (S fuel) min max x =
  match max with
  | Some O => [x]
  | _ =>
      let again :=
        flat_map
          (fun y =>
             if Nat.eqb min 0 && Nat.eqb (length (rest y)) (length (rest x))
             then []
             else repeatMatcher m1 gs greedy fuel (pred min)
                    (option_map pred max) y)
          (m1 (clearCaps gs x)) in
      match min with
      | S _ => again
      | O => if greedy then again ++ [x] else x :: again
      end
  end.
Proof. reflexivity. Qed.

Lemma repeat_can_stop (m1 : mstate -> list mstate) (gs : list nat)
  (greedy : bool) (fuel : nat) (max : option nat) (x : mstate) :
  In x (repeatMatcher m1 gs greedy (S fuel) 0 max x).
Proof.
  cbn [repeatMatcher]. destruct max as [[|k]|]; [now left| |];
    destruct greedy; try (now left); apply in_or_app; right; now left.
Qed.

Lemma repeatMatcher_extends (m1 : mstate -> list mstate) (gs : list nat)
  (greedy : bool) :
  (forall x y, In y (m1 x) -> extends x y) ->
  forall fuel min max x y,
  In y (repeatMatcher m1 gs greedy fuel min max x) -> extends x y.
Proof.
  intros Hm. induction fuel as [|fuel IH]; intros min max x y H.
  - destruct H.
  - cbn [repeatMatcher] in H.
    assert (Hloop :
      In y (flat_map
              (fun z => if Nat.eqb min 0 &&
                           Nat.eqb (length (rest z)) (length (rest x))
                        then []
                        else repeatMatcher m1 gs greedy fuel (pred min)
                               (option_map pred max) z)
              (m1 (clearCaps gs x))) -> extends x y).
    { intros Hin. apply in_flat_map in Hin. destruct Hin as (z & Hz & Hy).
      destruct (Nat.eqb min 0 && _); [destruct Hy|].
      apply (clearCaps_extends gs).
      eapply extends_trans; [apply Hm; exact Hz | apply IH with (1 := Hy)]. }
    destruct max as [[|k]|].
    + destruct H as [<- | []]. apply extends_refl.
    + destruct min; [destruct greedy|]; auto.
      * apply in_app_or in H. destruct H as [H | [<- | []]]; auto.
        apply extends_refl.
      * destruct H as [<- | H]; auto. apply extends_refl.
    + destruct min; [destruct greedy|]; auto.
      * apply in_app_or in H. destruct H as [H | [<- | []]]; auto.
        apply extends_refl.
      * destruct H as [<- | H]; auto. apply extends_refl.
Qed.

Lemma repeatMatcher_fuel (m1 : mstate -> list mstate) (gs : list nat)
  (greedy : bool) :
  (forall x y, In y (m1 x) ->
     (length (rest y) <= length (rest x))%nat) ->
  forall f1 f2 min max x,
  (min + length (rest x) < f1)%nat -> (min + length (rest x) < f2)%nat ->
  repeatMatcher m1 gs greedy f1 min max x =
  repeatMatcher m1 gs greedy f2 min max x.
Proof.
  intros Hm. induction f1 as [|f1 IH]; intros f2 min max x H1 H2; [lia|].
  destruct f2 as [|f2]; [lia|]. rewrite !repeatMatcher_S.
  assert (E :
    flat_map
      (fun y =>
         if Nat.eqb min 0 && Nat.eqb (length (rest y)) (length (rest x))
         then []
         else repeatMatcher m1 gs greedy f1 (pred min) (option_map pred max) y)
      (m1 (clearCaps gs x)) =
    flat_map
      (fun y =>
         if Nat.eqb min 0 && Nat.eqb (length (rest y)) (length (rest x))
         then []
         else repeatMatcher m1 gs greedy f2 (pred min) (option_map pred max) y)
      (m1 (clearCaps gs x))).
  { apply flat_map_ext_In. intros y Hy. apply Hm in Hy. cbn [clearCaps rest] in Hy.
    destruct (Nat.eqb min 0) eqn:E0; cbn [andb].
    - destruct (Nat.eqb (length (rest y)) (length (rest x))) eqn:El;
        [reflexivity|].
      apply Nat.eqb_eq in E0. apply Nat.eqb_neq in El. subst min.
      apply IH; cbn [pred]; lia.
    - apply Nat.eqb_neq in E0. apply IH; lia. }
  cbv zeta. now rewrite E.
Qed.

Section Matcher.
  Variable fl : flags.


Lemma next_extends (x x' : mstate) (d : N) :
  next fl x = Some (d, x') ->
  extends x x' /\ (length (rest x') < length (rest x))%nat.
Proof.
  unfold next, extends. destruct (rest x) as [|c [|e t]] eqn:E; intros H.
  - discriminate.
  - inversion H; subst; simpl. repeat split; auto. now eexists [_].
  - destruct (unicode fl && isHighSurrogate c && isLowSurrogate e);
      inversion H; subst; simpl; repeat split; auto.
    + now eexists [_; _].
    + now eexists [_].
Qed.

Lemma matches_extends (r : regex) :
  forall x y, In y (matches fl r x) -> extends x y.
Proof.
  induction r as [ | c | | neg items | r1 IH1 r2 IH2 | r1 IH1 r2 IH2
                 | min max greedy r1 IH1 | i r1 IH1 | | | r1 IH1 ];
    intros x y H; cbn [matches] in H.
  - destruct H as [<- | []]; auto with jsdb.
  - destruct (next fl x) as [[d x']|] eqn:E; [|destruct H].
    destruct (charEq fl c d); [|destruct H].
    destruct H as [<- | []]. now apply next_extends in E.
  - destruct (next fl x) as [[d x']|] eqn:E; [|destruct H].
    destruct (isLineTerminator d); [destruct H|].
    destruct H as [<- | []]. now apply next_extends in E.
  - destruct (next fl x) as [[d x']|] eqn:E; [|destruct H].
    destruct (clsMatches fl neg items d); [|destruct H].
    destruct H as [<- | []]. now apply next_extends in E.
  - apply in_flat_map in H. destruct H as (z & Hz & Hy).
    eapply extends_trans; eauto.
  - apply in_app_or in H. destruct H; auto.
  - eapply repeatMatcher_extends; eauto.
  - apply in_map_iff in H. destruct H as (z & <- & Hz).
    specialize (IH1 _ _ Hz). destruct IH1 as [E C]. split; [exact E|].
    intros kv [<- | H]; [right; apply consumed_incl | now apply C].
  - destruct (atLineStart fl x); [|destruct H].
    destruct H as [<- | []]. apply extends_refl.
  - destruct (atLineEnd fl x); [|destruct H].
    destruct H as [<- | []]. apply extends_refl.
  - destruct (matches fl r1 x) as [|z l] eqn:E; [destruct H|].
    destruct H as [<- | []].
    assert (Hz : extends x z) by (apply IH1; rewrite E; now left).
    destruct Hz as [_ C]. split; [now exists []|exact C].
Qed.

Lemma matchAt_In (r : regex) (p : option N) (s : jstring)
  (y : mstate) :
  matchAt fl r p s = Some y -> In y (matches fl r (MState p s [])).
Proof.
  unfold matchAt. destruct (matches _ _ _); [discriminate|].
  intros H. inversion H. now left.
Qed.

Lemma matchAt_extends (r : regex) (p : option N) (s : jstring)
  (y : mstate) :
  matchAt fl r p s = Some y -> extends (MState p s []) y.
Proof.
  intros H. apply matches_extends with (r := r). now apply matchAt_In.
Qed.

Lemma matchAt_split (r : regex) (p : option N) (s : jstring)
  (y : mstate) :
  matchAt fl r p s = Some y -> s = consumed (MState p s []) y ++ rest y.
Proof.
  intros H. apply matchAt_extends in H. destruct H as [[pre E] _].
  cbn [rest] in E. unfold consumed. cbn [rest]. rewrite E.
  rewrite length_app.
  replace (length pre + length (rest y) - length (rest y))%nat
    with (length pre) by lia.
  rewrite firstn_app, firstn_all, Nat.sub_diag. cbn [firstn].
  now rewrite app_nil_r.
Qed.

Lemma matches_cat_In (r1 r2 : regex) (x y z : mstate) :
  In y (matches fl r1 x) -> In z (matches fl r2 y) ->
  In z (matches fl (Cat r1 r2) x).
Proof. intros H1 H2. cbn [matches]. apply in_flat_map. eauto. Qed.

Lemma matches_cat_inv (r1 r2 : regex) (x y : mstate) :
  In y (matches fl (Cat r1 r2) x) ->
  exists z, In z (matches fl r1 x) /\ In y (matches fl r2 z).
Proof. cbn [matches]. intros H. now apply in_flat_map in H. Qed.

Lemma matches_chr_shorter (c : N) (x y : mstate) :
  In y (matches fl (Chr c) x) ->
  (length (rest y) < length (rest x))%nat.
Proof.
  cbn [matches]. destruct (next fl x) as [[d x']|] eqn:E; [|intros []].
  destruct (charEq fl c d); [|intros []]. intros [<- | []].
  now apply next_extends in E.
Qed.

Lemma matches_rep (min : nat) (max : option nat)
  (greedy : bool) (r1 : regex) (x : mstate) :
  matches fl (Rep min max greedy r1) x =
  repeatMatcher (matches fl r1) (groupsOf r1) greedy
    (S (min + length (rest x))) min max x.
Proof. reflexivity. Qed.

(** The matcher of a quantified pattern gives the same result with any
    larger fuel. *)
Lemma matches_rep_fuel (min : nat) (max : option nat)
  (greedy : bool) (r1 : regex) (x : mstate) (extra : nat) :
  matches fl (Rep min max greedy r1) x =
  repeatMatcher (matches fl r1) (groupsOf r1) greedy
    (S (min + length (rest x)) + extra) min max x.
Proof.
  rewrite matches_rep. apply repeatMatcher_fuel; [|lia|lia].
  intros a b H. now apply matches_extends, extends_length in H.
Qed.

  (** *** Patterns without the [u] flag walk the text unit by unit *)

  Section Plain.
    Hypothesis Hu : unicode fl = false.


Lemma next_plain (x : mstate) :
  next fl x =
  match rest x with
  | [] => None
  | c :: t => Some (c, MState (Some c) t (caps x))
  end.
Proof.
  unfold next. destruct (rest x) as [|c [|d t]]; try reflexivity.
  now rewrite Hu.
Qed.

Lemma pairAt_plain (c : N) (t : jstring) : pairAt fl c t = false.
Proof. destruct t; simpl; [reflexivity | now rewrite Hu]. Qed.

Lemma matchAt_cls (neg : bool) (items : list citem) (p : option N)
  (s : jstring) :
  matchAt fl (Cls neg items) p s =
  match s with
  | [] => None
  | c :: t =>
      if clsMatches fl neg items c then Some (MState (Some c) t []) else None
  end.
Proof.
  unfold matchAt. cbn [matches]. rewrite next_plain.
  destruct s as [|c t]; simpl; [reflexivity|].
  destruct (clsMatches fl neg items c); reflexivity.
Qed.

Lemma matches_chr_In (a c : N) (t : jstring) (x : mstate) :
  rest x = c :: t -> charEq fl a c = true ->
  In (MState (Some c) t (caps x)) (matches fl (Chr a) x).
Proof.
  intros Hr Hc. cbn [matches]. rewrite next_plain, Hr, Hc. now left.
Qed.

(** A sequence of pattern characters matches where the text starts with
    them, and nowhere else. *)
Lemma matches_lit :
  ignoreCase fl = false ->
  forall l x, matches fl (seq (map Chr l)) x <> [] <->
              startsWith l (rest x) = true.
Proof.
  intros Hi. induction l as [|a l IH]; intros x.
  - cbn. split; [reflexivity | discriminate].
  - cbn [map seq fold_right matches]. rewrite next_plain.
    destruct (rest x) as [|d t] eqn:E; cbn [startsWith].
    + split; [now intros [] | discriminate].
    + unfold charEq. rewrite Hi.
      destruct (a =? d); cbn [andb flat_map].
      * rewrite app_nil_r. apply (IH (MState (Some d) t (caps x))).
      * split; [now intros [] | discriminate].
Qed.


  End Plain.
End Matcher.

(** A match of [r1 r2] passes through a state where [r1] ends and [r2]
    begins. *)
Ltac cat_inv H z Hz :=
  apply matches_cat_inv in H; destruct H as (z & Hz & H).


(** ** [exec] and [replace] *)

Section Replace.
  Variables (fl : flags) (r : regex) (tmpl : list titem).


Lemma exec_eq (p : option N) (s : jstring) :
  exec fl r p s =
  match matchAt fl r p s with
  | Some y =>
      Some (MResult [] (consumed (MState p s []) y) (caps y) (rest y))
  | None =>
      match s with
      | [] => None
      | c :: t =>
          if pairAt fl c t then
            match t with
            | d :: t' =>
                option_map
                  (fun res => MResult (c :: d :: before res) (matched res)
                                (groups res) (after res))
                  (exec fl r (Some d) t')
            | [] => None
            end
          else
            option_map
              (fun res => MResult (c :: before res) (matched res)
                            (groups res) (after res))
              (exec fl r (Some c) t)
      end
  end.
Proof.
  destruct s as [|c [|d t']]; reflexivity.
Qed.

Lemma replace_go_eq (p : option N) (s : jstring) :
  replace_go fl r tmpl p s 0 =
  let copy :=
    match s with
    | [] => []
    | c :: t =>
        if pairAt fl c t then
          match t with
          | d :: t' => c :: d :: replace_go fl r tmpl (Some d) t' 0
          | [] => []
          end
        else c :: replace_go fl r tmpl (Some c) t 0
    end in
  match matchAt fl r p s with
  | Some y =>
      expand tmpl (caps y) ++
      match (length s - length (rest y))%nat with
      | O => copy
      | S k =>
          match s with
          | [] => []
          | c :: t => replace_go fl r tmpl (Some c) t k
          end
      end
  | None => copy
  end.
Proof.
  destruct s as [|c [|d t']]; reflexivity.
Qed.

Lemma replace_go_skip (p : option N) (s : jstring) (k : nat) :
  replace_go fl r tmpl p s (S k) =
  match s with
  | [] => []
  | c :: t => replace_go fl r tmpl (Some c) t k
  end.
Proof. destruct s; reflexivity. Qed.

(** Where the pattern matches nowhere, the replacement changes nothing. *)
Lemma replace_go_nomatch :
  forall n s p, (length s <= n)%nat ->
  exec fl r p s = None -> replace_go fl r tmpl p s 0 = s.
Proof.
  induction n as [|n IH]; intros s p Hn H;
    rewrite exec_eq in H; rewrite replace_go_eq; cbv zeta;
    destruct (matchAt fl r p s); try discriminate;
    destruct s as [|c t]; try reflexivity; simpl in Hn; try lia.
  destruct (pairAt fl c t) eqn:Hp.
  - destruct t as [|d t']; [discriminate Hp|].
    apply option_map_none in H. simpl in Hn.
    rewrite (IH t' (Some d)); [reflexivity | lia | assumption].
  - apply option_map_none in H.
    rewrite (IH t (Some c)); [reflexivity | lia | assumption].
Qed.

Lemma replaceAll_nomatch (s : jstring) :
  test fl r s = false -> replaceAll fl r tmpl s = s.
Proof.
  unfold test, replaceAll. intros H.
  apply (replace_go_nomatch (length s)); [lia|].
  destruct (exec fl r None s); [discriminate|reflexivity].
Qed.

Lemma exec_split :
  forall n s p res, (length s <= n)%nat ->
  exec fl r p s = Some res -> s = before res ++ matched res ++ after res.
Proof.
  induction n as [|n IH]; intros s p res Hn H; rewrite exec_eq in H;
    destruct (matchAt fl r p s) as [y|] eqn:E.
  - inversion H; subst. cbn [before matched after app].
    now apply matchAt_split in E.
  - destruct s; [discriminate | simpl in Hn; lia].
  - inversion H; subst. cbn [before matched after app].
    now apply matchAt_split in E.
  - destruct s as [|c t]; [discriminate|]. simpl in Hn.
    destruct (pairAt fl c t).
    + destruct t as [|d t']; [discriminate|]. simpl in Hn.
      destruct (exec fl r (Some d) t') as [res'|] eqn:E'; [|discriminate].
      inversion H; subst. cbn [before matched after].
      apply IH in E'; [|lia]. cbn [app]. now rewrite <- E'.
    + destruct (exec fl r (Some c) t) as [res'|] eqn:E'; [|discriminate].
      inversion H; subst. cbn [before matched after].
      apply IH in E'; [|lia]. cbn [app]. now rewrite <- E'.
Qed.

Lemma replace_go_pass :
  forall a b p,
  replace_go fl r tmpl p (a ++ b) (length a) =
  replace_go fl r tmpl (prevAfter p a) b 0.
Proof.
  induction a as [|c a IH]; intros b p; [reflexivity|].
  cbn [length app]. rewrite replace_go_skip. apply IH.
Qed.

(** [replaceAll] does what the loop of [RegExp.prototype[Symbol.replace]]
    does: it copies the text before the first match, emits the expansion,
    and carries on from the end of the match. *)
Lemma replace_go_exec :
  forall n s p res, (length s <= n)%nat ->
  exec fl r p s = Some res -> matched res <> [] ->
  replace_go fl r tmpl p s 0 =
  before res ++ expand tmpl (groups res) ++
  replace_go fl r tmpl (prevAfter p (before res ++ matched res))
    (after res) 0.
Proof.
  assert (Hhit : forall s p y,
    matchAt fl r p s = Some y -> consumed (MState p s []) y <> [] ->
    replace_go fl r tmpl p s 0 =
    expand tmpl (caps y) ++
    replace_go fl r tmpl (prevAfter p (consumed (MState p s []) y))
      (rest y) 0).
  { intros s p y E Hne. rewrite replace_go_eq, E. cbv zeta. f_equal.
    assert (Es := matchAt_split _ _ _ _ _ E).
    unfold consumed in *. cbn [rest] in *.
    destruct (length s - length (rest y))%nat as [|k] eqn:Ek.
    - now destruct Hne.
    - destruct s as [|c t]; [now destruct Hne|].
      cbn [firstn] in *. inversion Es as [Et].
      assert (Hk : length (firstn k t) = k).
      { apply (f_equal (@length N)) in Et. rewrite length_app in Et.
        cbn [length] in Ek. lia. }
      rewrite <- Et. rewrite Et at 1. rewrite <- Hk at 2.
      rewrite replace_go_pass. reflexivity. }
  induction n as [|n IH]; intros s p res Hn H Hne; rewrite exec_eq in H;
    destruct (matchAt fl r p s) as [y|] eqn:E.
  - inversion H; subst. cbn [before matched groups after app] in *.
    now apply Hhit.
  - destruct s; [discriminate | simpl in Hn; lia].
  - inversion H; subst. cbn [before matched groups after app] in *.
    now apply Hhit.
  - rewrite replace_go_eq, E. cbv zeta.
    destruct s as [|c t]; [discriminate|]. simpl in Hn.
    destruct (pairAt fl c t).
    + destruct t as [|d t']; [discriminate|]. simpl in Hn.
      destruct (exec fl r (Some d) t') as [res'|] eqn:E'; [|discriminate].
      inversion H; subst. cbn [before matched groups after] in *.
      rewrite (IH t' (Some d) res'); [reflexivity | lia | auto | auto].
    + destruct (exec fl r (Some c) t) as [res'|] eqn:E'; [|discriminate].
      inversion H; subst. cbn [before matched groups after] in *.
      rewrite (IH t (Some c) res'); [reflexivity | lia | auto | auto].
Qed.

(** The match that [exec] returns is the leftmost one. *)
Lemma exec_leftmost :
  unicode fl = false ->
  forall s p res, exec fl r p s = Some res ->
  forall a c b, before res = a ++ c :: b ->
  matchAt fl r (prevAfter p a) (c :: b ++ matched res ++ after res) = None.
Proof.
  intros Hu. induction s as [|c0 t IH]; intros p res H a c b Hb;
    rewrite exec_eq in H;
    destruct (matchAt fl r p _) as [y|] eqn:E.
  - inversion H; subst. destruct a; discriminate.
  - discriminate.
  - inversion H; subst. destruct a; discriminate.
  - rewrite pairAt_plain in H by assumption.
    destruct (exec fl r (Some c0) t) as [res'|] eqn:E'; [|discriminate].
    inversion H; subst. cbn [before matched after] in *.
    assert (Es := exec_split _ _ _ _ (Nat.le_refl _) E').
    destruct a as [|a0 a]; cbn [app] in Hb; injection Hb as Hc Hb'.
    + cbn [prevAfter fold_left]. rewrite <- Hc, <- Hb', <- Es. exact E.
    + cbn [prevAfter fold_left]. rewrite <- Hc. now apply (IH _ _ E').
Qed.

Lemma getCap_In (i : nat) (cs : list (nat * jstring)) (v : jstring) :
  getCap i cs = Some v -> In (i, v) cs.
Proof.
  induction cs as [|[j w] cs IH]; simpl; [discriminate|].
  destruct (Nat.eqb i j) eqn:E.
  - intros H. inversion H. apply Nat.eqb_eq in E. subst. now left.
  - auto.
Qed.

Lemma expand_In (cs : list (nat * jstring)) (c : N) :
  In c (expand tmpl cs) ->
  In c (tmplLits tmpl) \/ exists kv, In kv cs /\ In c (snd kv).
Proof.
  unfold expand, tmplLits. intros H. apply in_flat_map in H.
  destruct H as ([s | i] & Hit & Hc).
  - left. apply in_flat_map. eauto.
  - right. destruct (getCap i cs) eqn:E; [|destruct Hc].
    apply getCap_In in E. eauto.
Qed.

(** Every code unit of the result of a replacement stood in the text or in
    the literal text of the replacement. *)
Lemma replace_go_In (c : N) :
  forall n s p skip, (length s <= n)%nat ->
  In c (replace_go fl r tmpl p s skip) -> In c s \/ In c (tmplLits tmpl).
Proof.
  induction n as [|n IH]; intros s p skip Hn H.
  - destruct s; [|simpl in Hn; lia].
    destruct skip; [|destruct H].
    rewrite replace_go_eq in H. cbv zeta in H.
    destruct (matchAt fl r p []) as [y|] eqn:E; [|destruct H].
    apply in_app_or in H. destruct H as [H | H].
    + apply expand_In in H. destruct H as [H | (kv & Hkv & Hc)]; auto.
      apply matchAt_extends in E. destruct E as [_ C].
      destruct (C kv Hkv) as [[] | Hi]. left. now apply Hi.
    + destruct (length [] - length (rest y))%nat; destruct H.
  - destruct skip as [|k].
    + rewrite replace_go_eq in H. cbv zeta in H.
      assert (Hcopy :
        In c (match s with
              | [] => []
              | c0 :: t =>
                  if pairAt fl c0 t then
                    match t with
                    | d :: t' => c0 :: d :: replace_go fl r tmpl (Some d) t' 0
                    | [] => []
                    end
                  else c0 :: replace_go fl r tmpl (Some c0) t 0
              end) -> In c s \/ In c (tmplLits tmpl)).
      { destruct s as [|c0 t]; [intros []|]. simpl in Hn.
        destruct (pairAt fl c0 t).
        - destruct t as [|d t']; [intros []|]. simpl in Hn.
          intros [<- | [<- | Hc]]; [left; now left | left; right; now left |].
          apply IH in Hc; [|lia]. destruct Hc; auto.
          left. right. now right.
        - intros [<- | Hc]; [left; now left|].
          apply IH in Hc; [|lia]. destruct Hc; auto. left. now right. }
      destruct (matchAt fl r p s) as [y|] eqn:E; [|auto].
      apply in_app_or in H. destruct H as [H | H].
      * apply expand_In in H. destruct H as [H | (kv & Hkv & Hc)]; auto.
        apply matchAt_extends in E. destruct E as [_ C].
        destruct (C kv Hkv) as [[] | Hi]. left. now apply Hi.
      * destruct (length s - length (rest y))%nat; auto.
        destruct s as [|c0 t]; [destruct H|]. simpl in Hn.
        apply IH in H; [|lia]. destruct H; auto. left. now right.
    + rewrite replace_go_skip in H. destruct s as [|c0 t]; [destruct H|].
      simpl in Hn. apply IH in H; [|lia]. destruct H; auto. left. now right.
Qed.

Lemma replaceAll_In (s : jstring) (c : N) :
  In c (replaceAll fl r tmpl s) -> In c s \/ In c (tmplLits tmpl).
Proof. apply (replace_go_In c (length s)). lia. Qed.

End Replace.

(** Replacing a class by nothing filters its members out. *)
Lemma replace_cls_filter (fl : flags) (neg : bool) (items : list citem) :
  unicode fl = false ->
  forall s p,
  replace_go fl (Cls neg items) [] p s 0 =
  filter (fun c => negb (clsMatches fl neg items c)) s.
Proof.
  intros H. induction s as [|c t IH]; intros p;
    rewrite replace_go_eq, matchAt_cls by assumption; cbv zeta.
  - reflexivity.
  - rewrite pairAt_plain by assumption. cbn [filter].
    destruct (clsMatches fl neg items c); cbn [negb].
    + cbn [caps rest expand flat_map app].
      replace (length (c :: t) - length t)%nat with 1%nat by (cbn [length]; lia).
      apply IH.
    + now rewrite IH.
Qed.

(** ** The chain *)


Lemma fold_stages_nomatch (x : jstring) :
  forall sts, forallb (unmatched x) sts = true ->
  fold_left runStage sts x = x.
Proof.
  induction sts as [|[[fl r] tmpl] sts IH]; intros H; simpl in *.
  - reflexivity.
  - apply andb_prop in H. destruct H as [H1 H2].
    apply negb_true_iff in H1.
    rewrite (replaceAll_nomatch _ _ _ _ H1). now apply IH.
Qed.

Lemma runStage_In (s : jstring) (st : flags * regex * list titem) (c : N) :
  In c (runStage s st) -> In c s \/ In c (tmplLits (snd st)).
Proof. destruct st as [[fl r] tmpl]. apply replaceAll_In. Qed.

Lemma fold_stages_In (c : N) :
  forall sts x,
  In c (fold_left runStage sts x) ->
  In c x \/
  In c (flat_map (fun st : flags * regex * list titem => tmplLits (snd st))
          sts).
Proof.
  induction sts as [|st sts IH]; intros x H; simpl in *.
  - now left.
  - apply IH in H. destruct H as [H | H].
    + apply runStage_In in H. destruct H; auto.
      right. apply in_or_app. now left.
    + right. apply in_or_app. now right.
Qed.

Lemma paragraphs_spec (text para : jstring) :
  In para (paragraphs text) ->
  (exists seg, In seg (split [NL; NL] text) /\ para = trim seg) /\
  para <> [] /\ test fl_g reListTag para = false.
Proof.
  unfold paragraphs. intros H.
  apply filter_In in H. destruct H as [H H3].
  apply filter_In in H. destruct H as [H H2].
  apply in_map_iff in H. destruct H as (seg & <- & H).
  repeat split.
  - now exists seg.
  - intros E. rewrite E in H2. discriminate.
  - now apply negb_true_iff in H3.
Qed.

Lemma paragraphs_In (text para : jstring) (c : N) :
  In para (paragraphs text) -> In c para -> In c text.
Proof.
  intros H Hc. apply paragraphs_spec in H.
  destruct H as ((seg & Hs & ->) & _). apply trim_In in Hc.
  destruct (split_go_In _ c _ _ _ _ Hs Hc) as [H | []]. exact H.
Qed.

Lemma withoutConfidence_In (text : jstring) (c : N) :
  In c (withoutConfidence text) -> In c text \/ c = NL.
Proof.
  unfold withoutConfidence. destruct (confidenceMatch text); [|now left].
  intros H. apply replaceAll_In in H. destruct H as [H | [H | []]]; auto.
Qed.

Lemma blockHtml_blockOf (p : jstring) : blockHtml (blockOf p) = p.
Proof. unfold blockOf. destruct (includes listTag p); reflexivity. Qed.

Lemma blocks_spec (x : jstring) (b : ContentBlock) :
  In b (blocks x) ->
  In (blockHtml b) (paragraphs (withoutConfidence (processedContent x))).
Proof.
  unfold blocks. intros H. apply in_map_iff in H.
  destruct H as (p & <- & H). rewrite blockHtml_blockOf. exact H.
Qed.

Lemma mainContent_In (text : jstring) (c : N) :
  In c (mainContent text) ->
  In c text \/ In c (wrapOpen ++ pClose).
Proof.
  unfold mainContent. intros H. apply in_concat in H.
  destruct H as (w & Hw & Hc). apply in_map_iff in Hw.
  destruct Hw as (p & <- & Hp). unfold wrapParagraph in Hc.
  destruct (includes listTag p).
  - left. eapply paragraphs_In; eauto.
  - apply in_app_or in Hc. destruct Hc as [Hc | Hc].
    + right. apply in_or_app. now left.
    + apply in_app_or in Hc. destruct Hc as [Hc | Hc].
      * left. eapply paragraphs_In; eauto.
      * right. apply in_or_app. now right.
Qed.

Lemma mainContent_paint (text : jstring) :
  mainContent text = concat (map paint (map blockOf (paragraphs text))).
Proof.
  unfold mainContent. rewrite map_map. f_equal. apply map_ext.
  intros p. unfold wrapParagraph, paint, blockOf.
  destruct (includes listTag p); reflexivity.
Qed.

(** Every code unit of the fragment stood in the comment or is text the
    chain inserts. *)
Lemma render_In (x : jstring) (c : N) :
  In c (innerHTML (render x)) -> In c x \/ In c insertedText.
Proof.
  cbn [render innerHTML]. intros H. unfold insertedText.
  apply mainContent_In in H. destruct H as [H | H].
  - apply withoutConfidence_In in H. destruct H as [H | ->].
    + apply trim_In, fold_stages_In in H. destruct H as [H | H]; auto.
      right. apply in_or_app. now left.
    + right. apply in_or_app. right. now left.
  - right. apply in_or_app. right. now right.
Qed.

(** *** The two stripping patterns *)


(** The members of the first class are the UTF-16 code units of its
    sixteen characters. *)
Lemma pictographUnits_utf16 :
  pictographUnits = flat_map utf16 pictographPoints.
Proof. by_eval. Qed.


Lemma clsMatches_units (l : list N) (c : N) :
  clsMatches fl_g false (map CChar l) c = existsb (fun u => u =? c) l.
Proof.
  unfold clsMatches. cbn [xorb]. induction l as [|u l IH]; simpl.
  - reflexivity.
  - now rewrite IH.
Qed.

(** After the first replacement no member of the first class is left. *)
Lemma stage1_clean (s : jstring) (c : N) :
  In c (replaceAll fl_g rePictographs [] s) ->
  In c s /\ isPictographUnit c = false.
Proof.
  unfold replaceAll, rePictographs. rewrite replace_cls_filter by reflexivity.
  intros H. apply filter_In in H. destruct H as [H1 H2]. split; [exact H1|].
  rewrite clsMatches_units in H2. now apply negb_true_iff in H2.
Qed.

Lemma matchAt_ranges (p : option N) (s : jstring) :
  matchAt fl_gu reRanges p s =
  match next fl_gu (MState p s []) with
  | Some (d, x') =>
      if existsb (inRange d) pictographRanges then Some x' else None
  | None => None
  end.
Proof.
  unfold matchAt, reRanges. cbn [matches].
  destruct (next fl_gu (MState p s [])) as [[d x']|]; [|reflexivity].
  unfold clsMatches, pictographRanges, inRange.
  cbn [existsb citemMatches xorb fst snd].
  destruct ((0x1F600 <=? d) && (d <=? 0x1F64F));
  destruct ((0x1F300 <=? d) && (d <=? 0x1F5FF));
  destruct ((0x1F680 <=? d) && (d <=? 0x1F6FF));
  destruct ((0x1F1E0 <=? d) && (d <=? 0x1F1FF));
  destruct ((0x2600 <=? d) && (d <=? 0x26FF));
  destruct ((0x2700 <=? d) && (d <=? 0x27BF)); reflexivity.
Qed.

Lemma surrogate_not_dingbat (c : N) :
  isHighSurrogate c || isLowSurrogate c = true ->
  inRange c (0x2600, 0x27BF) = false.
Proof.
  unfold isHighSurrogate, isLowSurrogate, inRange. cbn [fst snd].
  intros H. apply andb_false_iff.
  apply orb_prop in H.
  destruct H as [H | H]; apply andb_prop in H; destruct H as [H1 H2];
    apply N.leb_le in H1; apply N.leb_le in H2;
    right; apply N.leb_gt; lia.
Qed.

Lemma ranges_cover_dingbats (c : N) :
  existsb (inRange c) pictographRanges = false ->
  inRange c (0x2600, 0x27BF) = false.
Proof.
  unfold pictographRanges, inRange. cbn [existsb fst snd].
  rewrite !orb_false_iff, !andb_false_iff, !N.leb_gt. lia.
Qed.

Lemma stage2_clean :
  forall n s p c, (length s <= n)%nat ->
  In c (replace_go fl_gu reRanges [] p s 0) ->
  inRange c (0x2600, 0x27BF) = false.
Proof.
  induction n as [|n IH]; intros s p c Hn H;
    rewrite replace_go_eq, matchAt_ranges in H; cbv zeta in H;
    destruct s as [|c0 t]; simpl in Hn; try lia.
  - destruct H.
  - destruct H.
  - unfold next in H. cbn [rest caps] in H.
    destruct t as [|d t'].
    + cbn [pairAt] in H.
      destruct (existsb (inRange c0) pictographRanges) eqn:E.
      * cbn in H. destruct H.
      * destruct H as [<- | H]; [now apply ranges_cover_dingbats|].
        apply IH in H; [exact H | simpl; lia].
    + unfold pairAt in H. simpl in Hn.
      destruct (unicode fl_gu && isHighSurrogate c0 && isLowSurrogate d)
        eqn:Ep.
      * assert (Hc0 : isHighSurrogate c0 = true /\ isLowSurrogate d = true).
        { cbn [unicode fl_gu andb] in Ep. now apply andb_prop in Ep. }
        destruct Hc0 as [Hh Hl].
        destruct (existsb (inRange (pairToCodePoint c0 d)) pictographRanges).
        -- cbn [caps rest expand flat_map app] in H.
           replace (length (c0 :: d :: t') - length t')%nat with 2%nat in H
             by (cbn [length]; lia).
           rewrite replace_go_skip in H.
           apply IH in H; [exact H | lia].
        -- destruct H as [<- | [<- | H]].
           ++ apply surrogate_not_dingbat. now rewrite Hh.
           ++ apply surrogate_not_dingbat. rewrite Hl. apply orb_true_r.
           ++ apply IH in H; [exact H | lia].
      * destruct (existsb (inRange c0) pictographRanges) eqn:E.
        -- cbn [caps rest expand flat_map app] in H.
           replace (length (c0 :: d :: t') - length (d :: t'))%nat
             with 1%nat in H by (cbn [length]; lia).
           apply IH in H; [exact H | simpl; lia].
        -- destruct H as [<- | H]; [now apply ranges_cover_dingbats|].
           apply IH in H; [exact H | simpl; lia].
Qed.

Lemma inserted_clean : forallb cleanUnit insertedText = true.
Proof. vm_compute. reflexivity. Qed.

(** After the two stripping replacements, and to the end of the chain, every
    code unit of the text is clean. *)
Lemma chain_clean (x : jstring) (c : N) :
  forallb isCodeUnit x = true ->
  In c (fold_left runStage stages x) -> cleanUnit c = true.
Proof.
  intros Hx H.
  change (fold_left runStage stages x)
    with (fold_left runStage (skipn 2 stages)
            (replaceAll fl_gu reRanges []
               (replaceAll fl_g rePictographs [] x))) in H.
  apply fold_stages_In in H. destruct H as [H | H].
  - assert (H2 := stage2_clean _ _ _ _ (Nat.le_refl _) H).
    apply replaceAll_In in H. destruct H as [H | []].
    apply stage1_clean in H. destruct H as [H H1].
    unfold cleanUnit. rewrite H1, H2.
    rewrite forallb_forall in Hx. now rewrite (Hx _ H).
  - assert (Hi := inserted_clean). rewrite forallb_forall in Hi.
    apply Hi. unfold insertedText. apply in_or_app. left. exact H.
Qed.

Lemma text_clean (x : jstring) (c : N) :
  forallb isCodeUnit x = true ->
  In c (withoutConfidence (processedContent x)) -> cleanUnit c = true.
Proof.
  intros Hx H. apply withoutConfidence_In in H. destruct H as [H | ->].
  - apply trim_In in H. now apply chain_clean with (x := x).
  - reflexivity.
Qed.

Lemma clean_not_pictograph (c : N) :
  cleanUnit c = true -> isPictograph c = false.
Proof.
  unfold cleanUnit, isCodeUnit, isPictographUnit, pictographUnits,
    isPictograph, pictographPoints, pictographRanges, inRange.
  cbn [existsb fst snd].
  rewrite !andb_true_iff, !negb_true_iff, !orb_false_iff, !andb_false_iff,
    !N.eqb_neq, !N.leb_gt, N.ltb_lt.
  intros H. repeat split; lia.
Qed.

Lemma pair_not_pictograph (hi lo : N) :
  isHighSurrogate hi = true -> isLowSurrogate lo = true ->
  isPictographUnit hi = false ->
  isPictograph (pairToCodePoint hi lo) = false.
Proof.
  unfold isHighSurrogate, isLowSurrogate, isPictographUnit, pictographUnits,
    isPictograph, pictographPoints, pictographRanges, inRange,
    pairToCodePoint.
  cbn [existsb fst snd].
  rewrite !andb_true_iff, !orb_false_iff, !andb_false_iff,
    !N.eqb_neq, !N.leb_gt, !N.leb_le.
  intros H1 H2 H3. repeat split; lia.
Qed.

Lemma codePoints_clean :
  forall n s, (length s <= n)%nat ->
  (forall c, In c s -> cleanUnit c = true) ->
  forall cp, In cp (codePoints s) -> isPictograph cp = false.
Proof.
  induction n as [|n IH]; intros s Hn Hs cp H;
    destruct s as [|c [|d t]]; simpl in Hn; try lia; try destruct H.
  - subst. apply clean_not_pictograph, Hs. now left.
  - destruct H.
  - cbn [codePoints] in H.
    destruct (isHighSurrogate c && isLowSurrogate d) eqn:E.
    + destruct H as [<- | H].
      * apply andb_prop in E. destruct E as [E1 E2].
        apply pair_not_pictograph; auto.
        assert (Hc : cleanUnit c = true) by (apply Hs; now left).
        unfold cleanUnit in Hc. apply andb_prop in Hc. destruct Hc as [Hc _].
        apply andb_prop in Hc. destruct Hc as [_ Hc].
        now apply negb_true_iff in Hc.
      * apply (IH t); [lia | | exact H].
        intros c' Hc'. apply Hs. right. now right.
    + destruct H as [<- | H].
      * apply clean_not_pictograph, Hs. now left.
      * apply (IH (d :: t)); [simpl; lia | | exact H].
        intros c' Hc'. apply Hs. now right.
Qed.

(** *** The list tag *)


Lemma exec_listTag_inside :
  forall s c, exec fl_g reListTag (Some c) s = None.
Proof.
  induction s as [|c0 t IH]; intros c; rewrite exec_eq; unfold matchAt;
    reflexivity ||
    (rewrite pairAt_plain by reflexivity; cbn; now rewrite IH).
Qed.

(** The pattern of the list tag, which has no [m] flag, matches at the
    start of the paragraph or not at all. *)
Lemma test_listTag (s : jstring) :
  test fl_g reListTag s = startsWith listTag s.
Proof.
  assert (Hlit := matches_lit fl_g eq_refl eq_refl listTag (MState None s [])).
  cbn [rest] in Hlit.
  unfold test. rewrite exec_eq. unfold matchAt, reListTag.
  cbn [matches atLineStart prev flat_map]. rewrite app_nil_r.
  destruct (matches fl_g (seq (map Chr listTag)) (MState None s []))
    as [|y l] eqn:E.
  - cbn [hd_error].
    assert (H : startsWith listTag s = false).
    { destruct (startsWith listTag s); [|reflexivity].
      now destruct (proj2 Hlit eq_refl). }
    rewrite H. destruct s as [|c t]; [reflexivity|].
    rewrite pairAt_plain by reflexivity.
    now rewrite exec_listTag_inside.
  - cbn [hd_error]. symmetry. apply Hlit. discriminate.
Qed.


(** *** Blank lines *)


Lemma blank_matchAt (p : option N) (t : jstring) :
  matchAt fl_g reBlankLines p (NL :: NL :: t) <> None.
Proof.
  apply hd_error_In with (y := MState (Some NL) t []).
  unfold reBlankLines, seq. cbn [fold_right].
  apply matches_cat_In with (y := MState (Some NL) (NL :: t) []).
  { now apply (matches_chr_In fl_g eq_refl NL NL (NL :: t) (MState p _ [])). }
  apply matches_cat_In with (y := MState (Some NL) t []); [|now left].
  unfold plus. rewrite matches_rep, repeatMatcher_S. cbv zeta.
  apply in_flat_map. exists (MState (Some NL) t []). split.
  - now apply (matches_chr_In fl_g eq_refl NL NL t
              (MState (Some NL) (NL :: t) [])).
  - cbn [Nat.eqb andb pred Nat.add]. apply repeat_can_stop.
Qed.

Lemma exec_blank :
  forall s p, includes [NL; NL] s = true ->
  exec fl_g reBlankLines p s <> None.
Proof.
  induction s as [|c t IH]; intros p H; [discriminate|].
  rewrite exec_eq.
  destruct (matchAt fl_g reBlankLines p (c :: t)) eqn:E; [discriminate|].
  rewrite pairAt_plain by reflexivity.
  cbn [includes] in H. apply orb_prop in H. destruct H as [H | H].
  - exfalso. apply startsWith_prefix in H. destruct H as [t' H].
    rewrite H in E. now apply blank_matchAt in E.
  - specialize (IH (Some c) H).
    destruct (exec fl_g reBlankLines (Some c) t); [discriminate|].
    now destruct IH.
Qed.

Lemma test_blank (s : jstring) :
  test fl_g reBlankLines s = false -> includes [NL; NL] s = false.
Proof.
  unfold test. intros H. destruct (includes [NL; NL] s) eqn:E; [|reflexivity].
  apply (exec_blank s None) in E.
  destruct (exec fl_g reBlankLines None s); [discriminate|now destruct E].
Qed.

(** *** Text on which no pattern of the chain acts *)


Lemma noRuleApplies_blank (x : jstring) :
  noRuleApplies x = true -> includes [NL; NL] x = false.
Proof.
  unfold noRuleApplies. rewrite forallb_forall. intros H.
  apply test_blank.
  specialize (H (fl_g, reBlankLines, [TLit [NL; NL]])).
  cbn [unmatched] in H. apply negb_true_iff, H.
  unfold stages. do 14 right. now left.
Qed.

Lemma paragraphs_single (s : jstring) :
  includes [NL; NL] s = false -> includes listTag s = false ->
  trim s = s -> s <> [] -> paragraphs s = [s].
Proof.
  intros Hb Ht Htrim Hne. unfold paragraphs.
  rewrite (split_none _ _ Hb). cbn [map filter]. rewrite Htrim.
  destruct s as [|c t]; [now destruct Hne|]. cbn [length Nat.ltb Nat.leb].
  cbn [filter].
  destruct (test fl_g reListTag (c :: t)) eqn:E; [|reflexivity].
  rewrite test_listTag in E. apply startsWith_includes in E.
  rewrite E in Ht. discriminate.
Qed.

Lemma render_plain (x : jstring) :
  noRuleApplies x = true ->
  test fl_gi reConfidence (trim x) = false ->
  includes listTag x = false ->
  trim x <> [] ->
  blocks x = [Paragraph (trim x)] /\
  render x = MkRendered None (wrapOpen ++ trim x ++ pClose).
Proof.
  intros Hq Hc Ht Hne.
  assert (Hp : processedContent x = trim x).
  { unfold processedContent. now rewrite fold_stages_nomatch. }
  assert (Hm : confidenceMatch (trim x) = None).
  { unfold test in Hc. unfold confidenceMatch.
    destruct (exec fl_gi reConfidence None (trim x)); [discriminate|].
    reflexivity. }
  assert (Hw : withoutConfidence (trim x) = trim x).
  { unfold withoutConfidence. now rewrite Hm. }
  assert (Hpar : paragraphs (trim x) = [trim x]).
  { apply paragraphs_single; auto using trim_idem, includes_trim.
    apply includes_trim. now apply noRuleApplies_blank. }
  assert (Hi : includes listTag (trim x) = false) by now apply includes_trim.
  split.
  - unfold blocks. rewrite Hp, Hw, Hpar. cbn [map]. unfold blockOf.
    now rewrite Hi.
  - unfold render, confidenceLevel, mainContent. rewrite Hp, Hw, Hm, Hpar.
    cbn [map concat truthy]. unfold wrapParagraph. rewrite Hi.
    now rewrite app_nil_r.
Qed.

(** *** A confidence line is never empty *)


Lemma confidenceLine_shorter (x y : mstate) :
  In y (matches fl_gi reConfidenceLine x) ->
  (length (rest y) < length (rest x))%nat.
Proof.
  unfold reConfidenceLine, seq. cbn [fold_right]. intros H.
  cat_inv H z1 H1. cat_inv H z2 H2. cat_inv H z3 H3. cat_inv H z4 H4.
  change (lit "Confidence Level")
    with (Cat (Chr 67) (lit "onfidence Level")) in H4.
  cat_inv H4 z5 H5.
  apply matches_chr_shorter in H5.
  apply matches_extends, extends_length in H1, H2, H3, H4, H.
  lia.
Qed.

Lemma confidenceLine_nonempty (p : option N) (s : jstring) (res : mresult) :
  exec fl_gi reConfidenceLine p s = Some res -> matched res <> [].
Proof.
  revert p res. induction s as [|c t IH]; intros p res H;
    rewrite exec_eq in H;
    destruct (matchAt fl_gi reConfidenceLine p _) as [y|] eqn:E;
    try discriminate.
  - apply matchAt_In, confidenceLine_shorter in E. cbn [rest length] in E.
    lia.
  - inversion H; subst. cbn [matched].
    apply matchAt_In, confidenceLine_shorter in E.
    unfold consumed. cbn [rest] in *.
    destruct (length (c :: t) - length (rest y))%nat eqn:Ek; [lia|].
    discriminate.
  - rewrite pairAt_plain in H by reflexivity.
    destruct (exec fl_gi reConfidenceLine (Some c) t) eqn:E';
      [|discriminate].
    inversion H; subst. cbn [matched]. eapply IH; eauto.
Qed.

(** *** A run of line feeds is one boundary *)

Lemma paragraphsOf_app (l1 l2 : list jstring) :
  paragraphsOf (l1 ++ l2) = paragraphsOf l1 ++ paragraphsOf l2.
Proof. unfold paragraphsOf. now rewrite map_app, !filter_app. Qed.

Lemma paragraphsOf_cons (a : jstring) (l : list jstring) :
  paragraphsOf (a :: l) = paragraphsOf [a] ++ paragraphsOf l.
Proof. apply (paragraphsOf_app [a] l). Qed.

Lemma paragraphs_of_split (text : jstring) :
  paragraphs text = paragraphsOf (split [NL; NL] text).
Proof. reflexivity. Qed.

Lemma dropWhile_app {A} (p : A -> bool) (a b : list A) :
  dropWhile p (a ++ b) =
  if forallb p a then dropWhile p b else dropWhile p a ++ b.
Proof.
  induction a as [|x a IH]; [reflexivity|]. cbn [app dropWhile forallb].
  destruct (p x); [exact IH | reflexivity].
Qed.

Lemma trim_space_l (w s : jstring) :
  forallb isSpace w = true -> trim (w ++ s) = trim s.
Proof.
  intros H. unfold trim, trimStart. now rewrite dropWhile_app, H.
Qed.

Lemma trimEnd_space_r (s : jstring) (c : N) :
  isSpace c = true -> trimEnd (s ++ [c]) = trimEnd s.
Proof.
  intros H. unfold trimEnd. rewrite rev_app_distr. cbn [rev app dropWhile].
  now rewrite H.
Qed.

Lemma trim_space_r (s : jstring) (c : N) :
  isSpace c = true -> trim (s ++ [c]) = trim s.
Proof.
  intros H. unfold trim, trimStart. rewrite dropWhile_app.
  destruct (forallb isSpace s) eqn:E.
  - cbn [dropWhile]. rewrite H.
    assert (E' : dropWhile isSpace s = []).
    { clear H. induction s as [|x s IH]; [reflexivity|].
      cbn [forallb] in E. apply andb_prop in E. destruct E as [E1 E2].
      cbn [dropWhile]. rewrite E1. now apply IH. }
    now rewrite E'.
  - now apply trimEnd_space_r.
Qed.

Lemma paragraphsOf_space_l (w s : jstring) :
  forallb isSpace w = true -> paragraphsOf [w ++ s] = paragraphsOf [s].
Proof. intros H. unfold paragraphsOf. cbn [map]. now rewrite trim_space_l. Qed.

Lemma paragraphsOf_space_r (s : jstring) (c : N) :
  isSpace c = true -> paragraphsOf [s ++ [c]] = paragraphsOf [s].
Proof. intros H. unfold paragraphsOf. cbn [map]. now rewrite trim_space_r. Qed.

Lemma paragraphsOf_nil_cons (l : list jstring) :
  paragraphsOf ([] :: l) = paragraphsOf l.
Proof. reflexivity. Qed.

(** The piece under construction is a prefix of the first segment. *)
Lemma split_go_cur (sep s : jstring) :
  forall cur,
  split_go sep s 0 cur =
  match split_go sep s 0 [] with
  | hd :: tl => (rev cur ++ hd) :: tl
  | [] => []
  end.
Proof.
  induction s as [|c t IH]; intros cur; cbn [split_go].
  - now rewrite app_nil_r.
  - destruct (startsWith sep (c :: t)).
    + now rewrite app_nil_r.
    + rewrite (IH (c :: cur)), (IH [c]).
      destruct (split_go sep t 0 []) as [|hd tl]; [reflexivity|].
      cbn [rev app]. now rewrite <- !app_assoc.
Qed.

Lemma paragraphsOf_split_cur (s w : jstring) :
  forallb isSpace (rev w) = true ->
  paragraphsOf (split_go [NL; NL] s 0 w) =
  paragraphsOf (split_go [NL; NL] s 0 []).
Proof.
  intros H. rewrite split_go_cur.
  destruct (split_go [NL; NL] s 0 []) as [|hd tl]; [reflexivity|].
  rewrite paragraphsOf_cons, (paragraphsOf_cons hd).
  now rewrite paragraphsOf_space_l.
Qed.

Lemma split_go_eq (sep : jstring) (c : N) (t cur : jstring) :
  split_go sep (c :: t) 0 cur =
  if startsWith sep (c :: t)
  then rev cur :: split_go sep t (pred (length sep)) []
  else split_go sep t 0 (c :: cur).
Proof. reflexivity. Qed.

Lemma split_go_skip (sep : jstring) (c : N) (t : jstring) (k : nat)
  (cur : jstring) :
  split_go sep (c :: t) (S k) cur = split_go sep t k cur.
Proof. reflexivity. Qed.

Lemma startsWith_pair (c d : N) (t : jstring) :
  startsWith [NL; NL] (c :: d :: t) = (NL =? c) && (NL =? d).
Proof. cbn [startsWith]. now rewrite andb_true_r. Qed.

(** A line feed at the head of the text gives no paragraph. *)
Lemma paragraphsOf_lead (b : jstring) :
  paragraphsOf (split_go [NL; NL] (NL :: b) 0 []) =
  paragraphsOf (split_go [NL; NL] b 0 []).
Proof.
  induction b as [|c b IH]; [reflexivity|].
  rewrite split_go_eq, startsWith_pair, N.eqb_refl. cbn [andb].
  destruct (N.eqb_spec NL c) as [<-|Hne].
  - cbn [length pred rev]. rewrite split_go_skip, paragraphsOf_nil_cons.
    symmetry. exact IH.
  - apply paragraphsOf_split_cur. reflexivity.
Qed.

Lemma paragraphsOf_leads (k : nat) (b : jstring) :
  paragraphsOf (split_go [NL; NL] (repeat NL k ++ b) 0 []) =
  paragraphsOf (split_go [NL; NL] b 0 []).
Proof.
  induction k as [|k IH]; [reflexivity|].
  cbn [repeat app]. now rewrite paragraphsOf_lead.
Qed.

(** A run of two line feeds or more, wherever the scan of [split] stands
    when it reaches it, ends the segment under construction, and the scan
    goes on as from the start of a text. *)
Lemma paragraphsOf_run (k : nat) (b : jstring) :
  forall a skip cur,
  (skip <= 1)%nat -> (skip = 1%nat -> cur = []) ->
  paragraphsOf (split_go [NL; NL] (a ++ repeat NL (2 + k) ++ b) skip cur) =
  paragraphsOf (split_go [NL; NL] a skip cur) ++
  paragraphsOf (split_go [NL; NL] b 0 []).
Proof.
  induction a as [|c t IH]; intros skip cur Hs Hc.
  - cbn [app repeat Nat.add]. destruct skip as [|[|skip]]; [| |lia].
    + rewrite split_go_eq, startsWith_pair, N.eqb_refl. cbn [andb length pred].
      rewrite split_go_skip, paragraphsOf_cons, paragraphsOf_leads. reflexivity.
    + rewrite (Hc eq_refl), split_go_skip.
      change (NL :: repeat NL k ++ b) with (repeat NL (1 + k) ++ b).
      rewrite paragraphsOf_leads. cbn [split_go rev].
      now rewrite paragraphsOf_nil_cons.
  - destruct skip as [|[|skip]]; [| |lia].
    + destruct t as [|d t].
      * cbn [app repeat Nat.add]. rewrite split_go_eq, startsWith_pair.
        rewrite N.eqb_refl, andb_true_r.
        destruct (N.eqb_spec NL c) as [<-|Hne].
        -- cbn [length pred]. rewrite split_go_skip.
           change (NL :: repeat NL k ++ b) with (repeat NL (1 + k) ++ b).
           rewrite paragraphsOf_cons, paragraphsOf_leads.
           rewrite (split_go_eq [NL; NL] NL [] cur).
           cbn [startsWith]. rewrite N.eqb_refl. cbn [andb split_go rev].
           now rewrite paragraphsOf_space_r.
        -- specialize (IH 0%nat (c :: cur) Hs).
           cbn [app repeat Nat.add] in IH. rewrite IH by discriminate.
           rewrite (split_go_eq [NL; NL] c [] cur).
           cbn [startsWith]. apply N.eqb_neq in Hne. rewrite Hne.
           reflexivity.
      * change ((c :: d :: t) ++ repeat NL (2 + k) ++ b) with
          (c :: d :: (t ++ repeat NL (2 + k) ++ b)).
        rewrite (split_go_eq _ c (d :: t ++ repeat NL (2 + k) ++ b) cur).
        rewrite (split_go_eq _ c (d :: t) cur), !startsWith_pair.
        change (d :: t ++ repeat NL (2 + k) ++ b) with
          ((d :: t) ++ repeat NL (2 + k) ++ b).
        destruct ((NL =? c) && (NL =? d)).
        -- cbn [length pred].
           rewrite (paragraphsOf_cons _ (split_go _ (d :: t) _ _)).
           rewrite paragraphsOf_cons, IH; [apply app_assoc | lia | reflexivity].
        -- apply IH; [lia | discriminate].
    + change ((c :: t) ++ repeat NL (2 + k) ++ b) with
        (c :: (t ++ repeat NL (2 + k) ++ b)).
      rewrite !split_go_skip. apply IH; [lia | discriminate].
Qed.

Lemma paragraphs_run (a b : jstring) (k : nat) :
  paragraphs (a ++ repeat NL (2 + k) ++ b) = paragraphs a ++ paragraphs b.
Proof.
  rewrite !paragraphs_of_split. unfold split.
  apply paragraphsOf_run; [lia | discriminate].
Qed.

(** *** The scan of the global removal *)

Lemma consumed_app (x y : mstate) (pre : jstring) :
  rest x = pre ++ rest y -> consumed x y = pre.
Proof.
  intros E. unfold consumed. rewrite E, length_app.
  replace (length pre + length (rest y) - length (rest y))%nat
    with (length pre + 0)%nat by lia.
  rewrite firstn_app_2. cbn [firstn]. apply app_nil_r.
Qed.

Lemma scan_exists :
  forall n s p, (length s <= n)%nat ->
  exists ms tail,
    Scan p s ms tail /\
    s = scannedText ms tail /\
    replace_go fl_gi reConfidenceLine [TLit [NL]] p s 0 = textLeft ms tail /\
    Forall (fun m => matched m <> []) ms.
Proof.
  induction n as [|n IH]; intros s p Hn;
    destruct (exec fl_gi reConfidenceLine p s) as [m|] eqn:E.
  - exfalso. assert (Hne := confidenceLine_nonempty p s m E).
    apply (exec_split _ _ _ _ _ _ (Nat.le_refl _)) in E.
    rewrite E, !length_app in Hn.
    destruct (matched m); [now apply Hne | cbn [length] in Hn; lia].
  - exists [], s. split; [now constructor|]. split; [reflexivity|].
    split; [|constructor].
    now apply (replace_go_nomatch _ _ _ (length s)).
  - assert (Hne := confidenceLine_nonempty p s m E).
    assert (Es := exec_split _ _ _ _ _ _ (Nat.le_refl _) E).
    assert (Hl : (length (after m) <= n)%nat).
    { rewrite Es, !length_app in Hn.
      destruct (matched m); [now destruct Hne | cbn [length] in Hn; lia]. }
    destruct (IH (after m) (prevAfter p (before m ++ matched m)) Hl)
      as (ms & tail & Hs & Et & Er & Hf).
    exists (m :: ms), tail. split; [now apply scan_step|]. split; [|split].
    + unfold scannedText in *. cbn [map concat].
      rewrite <- !app_assoc, <- Et. exact Es.
    + rewrite (replace_go_exec _ _ _ _ _ _ _ (Nat.le_refl _) E Hne), Er.
      unfold textLeft. cbn [map concat expand flat_map app].
      now rewrite <- !app_assoc.
    + now constructor.
  - exists [], s. split; [now constructor|]. split; [reflexivity|].
    split; [|constructor].
    now apply (replace_go_nomatch _ _ _ (length s)).
Qed.

Lemma removal_scan (text : jstring) (m : mresult) :
  confidenceMatch text = Some m ->
  exists ms tail,
    Scan None text ms tail /\
    text = scannedText ms tail /\
    withoutConfidence text = textLeft ms tail /\
    Forall (fun l => matched l <> []) ms.
Proof.
  intros H. unfold withoutConfidence, replaceAll. rewrite H.
  apply (scan_exists (length text)). apply Nat.le_refl.
Qed.

Lemma charEq_NL (d : N) : charEq fl_gi NL d = true -> d = NL.
Proof.
  unfold charEq. cbn [ignoreCase fl_gi].
  change (canonicalize NL) with NL. unfold canonicalize, NL.
  destruct ((97 <=? d) && (d <=? 122)) eqn:Ed; intros H;
    apply N.eqb_eq in H.
  - apply andb_prop in Ed. destruct Ed as [E1 E2].
    apply N.leb_le in E1, E2. lia.
  - now symmetry.
Qed.

(** Where a match of the confidence-line pattern begins and ends: it takes
    the line feed before the line, unless it begins where nothing precedes,
    and the line feed after it, unless it ends with the text. *)
Lemma confidenceLine_ends (x y : mstate) :
  In y (matches fl_gi reConfidenceLine x) ->
  (prev x = None \/ exists l, consumed x y = NL :: l) /\
  (rest y = [] \/ exists l, consumed x y = l ++ [NL]).
Proof.
  unfold reConfidenceLine, seq. cbn [fold_right]. intros H.
  assert (Hxy := matches_extends fl_gi _ _ _ H).
  cat_inv H z1 H1.
  assert (H1y := H).
  cat_inv H z2 H2. cat_inv H z3 H3. cat_inv H z4 H4. cat_inv H z5 H5.
  cat_inv H z6 H6. cat_inv H z7 H7. destruct H as [<- | []].
  split.
  - cbn [matches] in H1. apply in_app_or in H1. destruct H1 as [H1 | H1].
    + left. unfold atLineStart in H1. destruct (prev x); [|reflexivity].
      cbn [multiline fl_gi andb] in H1. destruct H1.
    + right. rewrite (next_plain fl_gi eq_refl) in H1.
      destruct (rest x) as [|d t] eqn:Er; [destruct H1|].
      destruct (charEq fl_gi NL d) eqn:Ec; [|destruct H1].
      destruct H1 as [<- | []].
      apply matches_extends in H1y. destruct H1y as [[pre E] _].
      cbn [rest] in E. exists pre. apply consumed_app.
      apply charEq_NL in Ec. now rewrite Er, E, Ec.
  - assert (Hxz : extends x z6).
    { apply matches_extends in H1, H2, H3, H4, H5, H6.
      apply (extends_trans _ _ _ H1), (extends_trans _ _ _ H2),
        (extends_trans _ _ _ H3), (extends_trans _ _ _ H4),
        (extends_trans _ _ _ H5), H6. }
    destruct Hxz as [[pre E] _].
    cbn [matches] in H7. apply in_app_or in H7. destruct H7 as [H7 | H7].
    + right. rewrite (next_plain fl_gi eq_refl) in H7.
      destruct (rest z6) as [|d t] eqn:Er; [destruct H7|].
      destruct (charEq fl_gi NL d) eqn:Ec; [|destruct H7].
      destruct H7 as [<- | []]. cbn [rest].
      exists pre. apply consumed_app. cbn [rest].
      apply charEq_NL in Ec. rewrite E, <- app_assoc, Ec. reflexivity.
    + left. unfold atLineEnd in H7.
      destruct (rest z6) eqn:Er;
        [|cbn [multiline fl_gi andb] in H7; destruct H7].
      destruct H7 as [<- | []]. exact Er.
Qed.

Lemma exec_confidenceLine_ends :
  forall s p m, exec fl_gi reConfidenceLine p s = Some m ->
  ((p = None /\ before m = []) \/ exists l, matched m = NL :: l) /\
  (after m = [] \/ exists l, matched m = l ++ [NL]).
Proof.
  induction s as [|c t IH]; intros p m H; rewrite exec_eq in H;
    destruct (matchAt fl_gi reConfidenceLine p _) as [y|] eqn:E;
    try discriminate.
  - inversion H; subst. cbn [before matched after].
    apply matchAt_In, confidenceLine_ends in E. cbn [prev] in E.
    destruct E as [[E1 | E1] E2]; split; auto.
  - inversion H; subst. cbn [before matched after].
    apply matchAt_In, confidenceLine_ends in E. cbn [prev] in E.
    destruct E as [[E1 | E1] E2]; split; auto.
  - rewrite pairAt_plain in H by reflexivity.
    destruct (exec fl_gi reConfidenceLine (Some c) t) as [res|] eqn:E';
      [|discriminate].
    inversion H; subst. cbn [before matched after].
    destruct (IH _ _ E') as [[[Hp _] | H1] H2]; [discriminate|].
    split; [now right | exact H2].
Qed.

(** *** The collapse of the blank lines *)

Lemma dropWhile_split {A} (p : A -> bool) (l : list A) :
  exists pre, l = pre ++ dropWhile p l /\ forallb p pre = true.
Proof.
  induction l as [|a l IH]; cbn [dropWhile].
  - now exists [].
  - destruct (p a) eqn:E.
    + destruct IH as (pre & E1 & E2). exists (a :: pre). cbn [app forallb].
      rewrite E, E2. split; [now rewrite <- E1 | reflexivity].
    + now exists [].
Qed.

Lemma trim_split (s : jstring) :
  exists pre post,
    s = pre ++ trim s ++ post /\
    forallb isSpace pre = true /\ forallb isSpace post = true.
Proof.
  unfold trim, trimEnd, trimStart.
  destruct (dropWhile_split isSpace s) as (pre & E1 & H1).
  destruct (dropWhile_split isSpace (rev (dropWhile isSpace s)))
    as (post & E2 & H2).
  exists pre, (rev post). split; [|split].
  - rewrite <- rev_app_distr, <- E2, rev_involutive. exact E1.
  - exact H1.
  - rewrite forallb_forall in *. intros c Hc. apply H2.
    now apply in_rev.
Qed.

Lemma paragraphsOf_space (w : jstring) :
  forallb isSpace w = true -> paragraphsOf [w] = [].
Proof.
  intros H. rewrite <- (app_nil_r w). now rewrite paragraphsOf_space_l.
Qed.

(** White space at the head of a text gives no paragraph. *)
Lemma paragraphsOf_space_head (s : jstring) :
  forall n w cur, (length w <= n)%nat ->
  forallb isSpace w = true -> forallb isSpace (rev cur) = true ->
  paragraphsOf (split_go [NL; NL] (w ++ s) 0 cur) =
  paragraphsOf (split_go [NL; NL] s 0 []).
Proof.
  induction n as [|n IH]; intros w cur Hn Hw Hcur.
  - destruct w; [|cbn [length] in Hn; lia].
    now apply paragraphsOf_split_cur.
  - destruct w as [|c w]; [now apply paragraphsOf_split_cur|].
    cbn [forallb] in Hw. apply andb_prop in Hw. destruct Hw as [Hc Hw].
    cbn [length] in Hn. cbn [app]. rewrite split_go_eq.
    assert (Hnext : forallb isSpace (rev (c :: cur)) = true).
    { cbn [rev]. rewrite forallb_app, Hcur. cbn [forallb].
      now rewrite Hc. }
    destruct (startsWith [NL; NL] (c :: w ++ s)) eqn:Es.
    + cbn [length pred]. rewrite paragraphsOf_cons.
      rewrite (paragraphsOf_space (rev cur) Hcur). cbn [app].
      destruct w as [|d w].
      * cbn [app] in *. destruct s as [|e s].
        { cbn [startsWith] in Es. rewrite andb_false_r in Es.
          discriminate Es. }
        rewrite startsWith_pair in Es. apply andb_prop in Es.
        destruct Es as [_ Es]. apply N.eqb_eq in Es. subst e.
        rewrite split_go_skip. symmetry. apply paragraphsOf_lead.
      * cbn [app]. rewrite split_go_skip.
        cbn [forallb] in Hw. apply andb_prop in Hw. destruct Hw as [_ Hw].
        apply IH; [cbn [length] in Hn; lia | exact Hw | reflexivity].
    + apply IH; [lia | exact Hw | exact Hnext].
Qed.

Lemma paragraphs_space_l (w s : jstring) :
  forallb isSpace w = true -> paragraphs (w ++ s) = paragraphs s.
Proof.
  intros H. rewrite !paragraphs_of_split. unfold split.
  now apply (paragraphsOf_space_head s (length w)).
Qed.

(** White space gives no paragraph, and at the end of a text none either. *)
Lemma paragraphsOf_space_only :
  forall w skip cur, forallb isSpace w = true ->
  paragraphsOf (split_go [NL; NL] w skip cur) = paragraphsOf [rev cur].
Proof.
  induction w as [|c t IH]; intros skip cur H; [now destruct skip|].
  cbn [forallb] in H. apply andb_prop in H. destruct H as [Hc Ht].
  destruct skip as [|k].
  - rewrite split_go_eq. destruct (startsWith [NL; NL] (c :: t)).
    + rewrite paragraphsOf_cons, (IH _ _ Ht). cbn [rev].
      exact (app_nil_r (paragraphsOf [rev cur])).
    + rewrite (IH _ _ Ht). cbn [rev]. now apply paragraphsOf_space_r.
  - rewrite split_go_skip. now apply IH.
Qed.

Lemma paragraphsOf_space_tail (w : jstring) :
  forallb isSpace w = true ->
  forall s skip cur,
  paragraphsOf (split_go [NL; NL] (s ++ w) skip cur) =
  paragraphsOf (split_go [NL; NL] s skip cur).
Proof.
  intros Hw. induction s as [|c t IH]; intros skip cur.
  - cbn [app]. rewrite paragraphsOf_space_only by exact Hw.
    now destruct skip.
  - cbn [app]. destruct skip as [|k]; [|rewrite !split_go_skip; apply IH].
    rewrite !split_go_eq. destruct t as [|d t].
    + cbn [app]. destruct w as [|e w].
      * reflexivity.
      * rewrite startsWith_pair. cbn [startsWith]. rewrite andb_false_r.
        destruct ((NL =? c) && (NL =? e)) eqn:E.
        -- apply andb_prop in E. destruct E as [E1 E2].
           apply N.eqb_eq in E1, E2. subst c e.
           cbn [length pred]. rewrite split_go_skip, paragraphsOf_cons.
           cbn [forallb] in Hw. apply andb_prop in Hw.
           destruct Hw as [_ Hw].
           rewrite paragraphsOf_space_only by exact Hw.
           cbn [rev split_go].
           transitivity (paragraphsOf [rev cur]);
             [exact (app_nil_r (paragraphsOf [rev cur]))|].
           symmetry. now apply paragraphsOf_space_r.
        -- rewrite paragraphsOf_space_only by exact Hw. reflexivity.
    + change ((d :: t) ++ w) with (d :: t ++ w).
      rewrite !startsWith_pair.
      change (d :: t ++ w) with ((d :: t) ++ w).
      destruct ((NL =? c) && (NL =? d)).
      * cbn [length pred]. rewrite paragraphsOf_cons.
        rewrite (paragraphsOf_cons _ (split_go _ (d :: t) _ _)).
        now rewrite IH.
      * apply IH.
Qed.

Lemma paragraphs_space_r (s w : jstring) :
  forallb isSpace w = true -> paragraphs (s ++ w) = paragraphs s.
Proof.
  intros H. rewrite !paragraphs_of_split. unfold split.
  now apply paragraphsOf_space_tail.
Qed.

Lemma paragraphs_trim (s : jstring) : paragraphs (trim s) = paragraphs s.
Proof.
  destruct (trim_split s) as (pre & post & E & H1 & H2).
  rewrite E at 2.
  now rewrite (paragraphs_space_l _ _ H1), (paragraphs_space_r _ _ H2).
Qed.

(** A quantifier over a pattern that takes one code unit at a time takes a
    run of such code units. *)
Lemma repeat_units (m1 : mstate -> list mstate) (P : N -> Prop)
  (gs : list nat) (greedy : bool) :
  (forall x y, In y (m1 x) -> exists c, rest x = c :: rest y /\ P c) ->
  forall fuel min max x y,
  In y (repeatMatcher m1 gs greedy fuel min max x) ->
  exists pre,
    rest x = pre ++ rest y /\ Forall P pre /\
    (max = None -> (min <= length pre)%nat).
Proof.
  intros Hm. induction fuel as [|fuel IH]; intros min max x y H.
  - destruct H.
  - rewrite repeatMatcher_S in H.
    assert (Hstop : y = x -> (max = None -> min = 0%nat) ->
      exists pre, rest x = pre ++ rest y /\ Forall P pre /\
        (max = None -> (min <= length pre)%nat)).
    { intros -> Hz. exists []. split; [reflexivity|].
      split; [constructor|]. intros Hn. rewrite (Hz Hn). apply Nat.le_refl. }
    assert (Hloop :
      In y (flat_map
              (fun z => if Nat.eqb min 0 &&
                           Nat.eqb (length (rest z)) (length (rest x))
                        then []
                        else repeatMatcher m1 gs greedy fuel (pred min)
                               (option_map pred max) z)
              (m1 (clearCaps gs x))) ->
      exists pre, rest x = pre ++ rest y /\ Forall P pre /\
        (max = None -> (min <= length pre)%nat)).
    { intros Hin. apply in_flat_map in Hin. destruct Hin as (z & Hz & Hy).
      destruct (Nat.eqb min 0 && _); [destruct Hy|].
      apply Hm in Hz. destruct Hz as (c & Ez & Hc). cbn [clearCaps rest] in Ez.
      apply IH in Hy. destruct Hy as (pre & E & Hf & Hl).
      exists (c :: pre). split; [now rewrite Ez, E|].
      split; [now constructor|].
      intros Hn. subst max. specialize (Hl eq_refl). cbn [length]. lia. }
    cbv zeta in H.
    destruct max as [[|k]|].
    + destruct H as [<- | []]. apply Hstop; [reflexivity | discriminate].
    + destruct min; [destruct greedy|]; auto.
      * apply in_app_or in H. destruct H as [H | [<- | []]]; auto.
      * destruct H as [<- | H]; auto.
    + destruct min; [destruct greedy|]; auto.
      * apply in_app_or in H. destruct H as [H | [<- | []]]; auto.
      * destruct H as [<- | H]; auto.
Qed.

Lemma chr_NL_unit (x y : mstate) :
  In y (matches fl_g (Chr NL) x) -> exists c, rest x = c :: rest y /\ c = NL.
Proof.
  cbn [matches]. rewrite (next_plain fl_g eq_refl).
  destruct (rest x) as [|d t]; [intros []|].
  destruct (charEq fl_g NL d) eqn:Ec; [|intros []].
  intros [<- | []]. exists d. split; [reflexivity|].
  unfold charEq in Ec. cbn [ignoreCase fl_g] in Ec.
  apply N.eqb_eq in Ec. now symmetry.
Qed.

Lemma Forall_eq_repeat (c : N) (l : list N) :
  Forall (fun d => d = c) l -> l = repeat c (length l).
Proof.
  induction 1 as [|d l Hd _ IH]; [reflexivity|].
  cbn [length repeat]. now rewrite Hd, <- IH.
Qed.

(** What the pattern of the blank lines matches is a run of two line feeds
    or more. *)
Lemma blank_match (x y : mstate) :
  In y (matches fl_g reBlankLines x) ->
  exists k, rest x = repeat NL (2 + k) ++ rest y.
Proof.
  unfold reBlankLines, seq, plus. cbn [fold_right]. intros H.
  cat_inv H z1 H1. cat_inv H z2 H2. destruct H as [<- | []].
  apply chr_NL_unit in H1. destruct H1 as (c & E1 & ->).
  rewrite matches_rep in H2.
  apply (repeat_units _ (fun d => d = NL) _ _ chr_NL_unit) in H2.
  destruct H2 as (pre & E2 & Hf & Hl). specialize (Hl eq_refl).
  apply Forall_eq_repeat in Hf.
  destruct (length pre) as [|k] eqn:El; [lia|].
  exists k. rewrite E1, E2, Hf. reflexivity.
Qed.

Lemma exec_blank_match :
  forall s p m, exec fl_g reBlankLines p s = Some m ->
  exists k, matched m = repeat NL (2 + k).
Proof.
  induction s as [|c t IH]; intros p m H; rewrite exec_eq in H;
    destruct (matchAt fl_g reBlankLines p _) as [y|] eqn:E;
    try discriminate.
  - inversion H; subst. cbn [matched].
    apply matchAt_In, blank_match in E. destruct E as [k E].
    exists k. now apply consumed_app.
  - rewrite pairAt_plain in H by reflexivity.
    destruct (exec fl_g reBlankLines (Some c) t) as [res|] eqn:E';
      [|discriminate].
    inversion H; subst. cbn [matched]. now apply (IH _ _ E').
Qed.

(** The collapse of the blank lines does not change the paragraphs. *)
Lemma paragraphs_collapse :
  forall n s p, (length s <= n)%nat ->
  paragraphs (replace_go fl_g reBlankLines [TLit [NL; NL]] p s 0) =
  paragraphs s.
Proof.
  induction n as [|n IH]; intros s p Hn;
    destruct (exec fl_g reBlankLines p s) as [m|] eqn:E.
  - exfalso. destruct (exec_blank_match _ _ _ E) as [k Ek].
    apply (exec_split _ _ _ _ _ _ (Nat.le_refl _)) in E.
    rewrite E, Ek, !length_app in Hn. cbn [Nat.add repeat length] in Hn. lia.
  - now rewrite (replace_go_nomatch _ _ _ (length s)).
  - destruct (exec_blank_match _ _ _ E) as [k Ek].
    assert (Es := exec_split _ _ _ _ _ _ (Nat.le_refl _) E).
    assert (Hne : matched m <> []) by (rewrite Ek; discriminate).
    rewrite (replace_go_exec _ _ _ _ _ _ _ (Nat.le_refl _) E Hne).
    cbn [expand flat_map]. rewrite app_nil_r.
    change [NL; NL] with (repeat NL (2 + 0)).
    rewrite paragraphs_run, IH.
    + symmetry. rewrite Es, Ek. apply paragraphs_run.
    + rewrite Es, Ek, !length_app in Hn.
      cbn [Nat.add repeat length] in Hn. lia.
  - now rewrite (replace_go_nomatch _ _ _ (length s)).
Qed.

Lemma stages_last :
  stages = removelast stages ++ [(fl_g, reBlankLines, [TLit [NL; NL]])].
Proof. reflexivity. Qed.

(** Where only the collapse of the blank lines acts, the blocks are the
    paragraphs of the comment itself. *)
Lemma blocks_noMarkup (x : jstring) :
  noMarkup x = true ->
  confidenceMatch (processedContent x) = None ->
  blocks x = map blockOf (paragraphs x).
Proof.
  intros Hq Hc. unfold blocks, withoutConfidence. rewrite Hc.
  unfold processedContent. rewrite paragraphs_trim.
  rewrite stages_last, fold_left_app.
  rewrite (fold_stages_nomatch x _ Hq). cbn [fold_left runStage].
  unfold replaceAll. now rewrite (paragraphs_collapse (length x)).
Qed.

(** * The properties *)

(** C1 (the code departs from it).  The claim: each list line of
    ["- first\n- second\n\n1. one\n2. two"] becomes one list block, in order.
    The chain does tag the four lines, each as its own element, the ordered
    ones with the numerals 1 and 2 as written; but the paragraph they form
    begins with a list element, the filter before the final [map] drops
    every such paragraph, and nothing is painted: no block of any comment
    begins with the list tag.  The same two list lines after a line of prose
    are kept. *)
Theorem C1_list_lines_dropped :
  processedContent listExample =
    listTag ++ [BULLET; 32] ++ js "first" ++ pClose ++ [NL] ++
    listTag ++ [BULLET; 32] ++ js "second" ++ pClose ++ [NL] ++
    listTag ++ js "1. one" ++ pClose ++ [NL] ++
    listTag ++ js "2. two" ++ pClose /\
  blocks listExample = [] /\
  render listExample = MkRendered None [] /\
  (forall content : jstring,
     Forall (fun b => startsWith listTag (blockHtml b) = false)
       (blocks content)) /\
  blocks introListExample =
    [Listing (js "Steps:" ++ [NL] ++
              listTag ++ [BULLET; 32] ++ js "first" ++ pClose ++ [NL] ++
              listTag ++ [BULLET; 32] ++ js "second" ++ pClose)].
Proof.
  split; [by_eval|]. split; [by_eval|]. split; [by_eval|].
  split; [|by_eval].
  intros content. apply Forall_forall. intros b H.
  apply blocks_spec, paragraphs_spec in H. destruct H as (_ & _ & H).
  now rewrite test_listTag in H.
Qed.


(** C2, as it is stated, does not hold.  In
    ["Confidence Level: High\n\nBody\n\nConfidence Level: Low"] both lines
    have the confidence form; the first gives the confidence, and the
    second is removed as well: it is in no block. *)
Lemma C2_counterexample :
  test fl_gi reConfidence (js "Confidence Level: High") = true /\
  test fl_gi reConfidence (js "Confidence Level: Low") = true /\
  badge (render twoConfidenceExample) = Some (js "High") /\
  blocks twoConfidenceExample = [Paragraph (js "Body")] /\
  includes (js "Confidence Level: Low")
    (innerHTML (render twoConfidenceExample)) = false.
Proof. vm_compute. repeat split; reflexivity. Qed.

(** C2, amended.  The confidence is read from the leftmost match of the
    confidence pattern and from no other.  The removal is not limited to
    that line: it is global.  The text is scanned from left to right; each
    match of the confidence-line pattern, the leftmost one in what is left
    of the text, gives way to one line feed, and the search resumes where
    the match ended, until no match is left.  The text after the removal is
    what lies between the matches, each stretch followed by a line feed,
    and what follows the last match; the blocks are made from it.  A match
    takes the line feed before its line, unless nothing precedes it, and
    the line feed after it, unless it ends with the text.  So in
    ["Confidence Level: High\n\nBody\n\nConfidence Level: Low"] the later
    line is removed, and the one block is "Body"; in
    ["Confidence Level: High\nConfidence Level: Low\n\nBody"] the match of
    the first line has taken the line feed that a match of the second
    needs, and the second is kept, as a paragraph. *)
Theorem C2_removal_is_global :
  (forall (text : jstring) (m : mresult),
     confidenceMatch text = Some m ->
     (forall a c b, before m = a ++ c :: b ->
        matchAt fl_gi reConfidence (prevAfter None a)
          (c :: b ++ matched m ++ after m) = None) /\
     exists ms tail,
       Scan None text ms tail /\
       text = scannedText ms tail /\
       withoutConfidence text = textLeft ms tail /\
       Forall (fun l => matched l <> []) ms) /\
  (forall (raw : jstring) (m : mresult),
     confidenceMatch (processedContent raw) = Some m ->
     exists ms tail,
       Scan None (processedContent raw) ms tail /\
       blocks raw = map blockOf (paragraphs (textLeft ms tail))) /\
  (forall (p : option N) (s : jstring) (l : mresult),
     exec fl_gi reConfidenceLine p s = Some l ->
     ((p = None /\ before l = []) \/ exists t, matched l = NL :: t) /\
     (after l = [] \/ exists t, matched l = t ++ [NL])) /\
  (badge (render twoConfidenceExample) = Some (js "High") /\
   blocks twoConfidenceExample = [Paragraph (js "Body")]) /\
  (badge (render adjacentConfidenceExample) = Some (js "High") /\
   blocks adjacentConfidenceExample =
     [Paragraph (js "Confidence Level: Low"); Paragraph (js "Body")]).
Proof.
  split.
  { intros text m Hm. split.
    - now apply (exec_leftmost fl_gi reConfidence eq_refl text None m).
    - exact (removal_scan text m Hm). }
  split.
  { intros raw m Hm.
    destruct (removal_scan _ m Hm) as (ms & tail & Hs & _ & E & _).
    exists ms, tail. split; [exact Hs|]. unfold blocks. now rewrite E. }
  split; [intros p s l; apply exec_confidenceLine_ends|].
  split; [split; by_eval | split; by_eval].
Qed.

Lemma C2_witness :
  confidenceMatch twoConfidenceExample = Some exConfidence /\
  exists ms tail,
    Scan None twoConfidenceExample ms tail /\
    twoConfidenceExample = scannedText ms tail /\
    withoutConfidence twoConfidenceExample = textLeft ms tail /\
    Forall (fun l => matched l <> []) ms.
Proof.
  assert (Hm : confidenceMatch twoConfidenceExample = Some exConfidence)
    by by_eval.
  split; [exact Hm|].
  exact (proj2 (proj1 C2_removal_is_global twoConfidenceExample exConfidence
                  Hm)).
Defined.

(** The scan of the first example: two matches, and nothing after the
    second. *)
Example two_lines_scan :
  Scan None twoConfidenceExample [exFirst; exLater] [] /\
  textLeft [exFirst; exLater] [] = [NL; NL] ++ js "Body" ++ [NL].
Proof.
  split; [|by_eval].
  apply scan_step; [by_eval|]. apply scan_step; [by_eval|].
  apply scan_end. by_eval.
Qed.

(** Two confidence lines with nothing between them: the match of the first
    takes the line feed that the second would need before it, and the
    second stays, as a paragraph. *)
Example adjacent_confidence_lines :
  badge (render adjacentConfidenceExample) = Some (js "High") /\
  blocks adjacentConfidenceExample =
    [Paragraph (js "Confidence Level: Low"); Paragraph (js "Body")].
Proof. vm_compute. repeat split; reflexivity. Qed.

(** C3, as it is stated, does not hold.  The chain has no fallback and no
    escaping: where nothing survives it, the block list is empty, whatever
    the input was, and a confidence that was found is kept.  A comment that
    is only a rule gives no block, not a paragraph of its escaped text; one
    that is only a confidence line gives the confidence and no block. *)
Lemma C3_counterexample :
  blocks ruleExample = [] /\
  (forall escape : jstring -> jstring,
     blocks ruleExample <> [Paragraph (escape ruleExample)]) /\
  render confidenceOnlyExample = MkRendered (Some (js "High")) [].
Proof.
  assert (E : blocks ruleExample = []) by by_eval.
  split; [exact E|]. split.
  - intros escape. rewrite E. discriminate.
  - vm_compute. reflexivity.
Qed.

(** C3, amended.  [render] gives a result for every string: it is a total
    function, and the one bounded loop of the matcher, that of a quantifier,
    never meets its bound (more fuel changes nothing).  What it paints is
    the blocks, one after the other; every block is a blank-line-separated
    segment of the processed text, trimmed, and not empty; there is no other
    source of blocks, no fallback and no escaping, so an input of which
    nothing survives gives none.  The empty string gives no confidence and
    no block. *)
Theorem C3_no_fallback :
  (forall fl min max greedy r1 x extra,
     matches fl (Rep min max greedy r1) x =
     repeatMatcher (matches fl r1) (groupsOf r1) greedy
       (S (min + length (rest x)) + extra) min max x) /\
  (forall raw : jstring,
     innerHTML (render raw) = concat (map paint (blocks raw))) /\
  (forall raw : jstring,
     Forall
       (fun b =>
          exists seg,
            In seg (split [NL; NL]
                      (withoutConfidence (processedContent raw))) /\
            blockHtml b = trim seg /\ blockHtml b <> [])
       (blocks raw)) /\
  render [] = MkRendered None [] /\
  blocks [] = [].
Proof.
  split; [intros; apply matches_rep_fuel|].
  split; [intros raw; apply mainContent_paint|].
  split.
  { intros raw. apply Forall_forall. intros b H.
    apply blocks_spec, paragraphs_spec in H.
    destruct H as ((seg & Hs & E) & Hne & _).
    exists seg. split; [exact Hs | split; [exact E | exact Hne]]. }
  split; vm_compute; reflexivity.
Qed.

(** C4, as it is stated, does not hold.  The removal is not total: the two
    patterns name sixteen characters and six ranges, and there are
    pictographs outside them.  U+231A (watch) and U+2B55 (hollow red
    circle), both emoji of the Basic Multilingual Plane, come out as they
    went in. *)
Lemma C4_counterexample :
  forallb isCodeUnit [0x231A; 32; 0x2B55] = true /\
  blocks [0x231A; 32; 0x2B55] = [Paragraph [0x231A; 32; 0x2B55]] /\
  In 0x231A (codePoints (innerHTML (render [0x231A; 32; 0x2B55]))) /\
  In 0x2B55 (codePoints (innerHTML (render [0x231A; 32; 0x2B55]))).
Proof.
  split; [by_eval|]. split; [by_eval|].
  split; vm_compute; tauto.
Qed.

(** C4, amended.  For every string of 16-bit code units, none of the
    sixteen characters of the first pattern and no code point of the six
    ranges of the second is among the code points of the html of a block,
    nor of the fragment as a whole. *)
Theorem C4_pictographs_stripped (raw : jstring) :
  forallb isCodeUnit raw = true ->
  Forall
    (fun b =>
       Forall (fun cp => isPictograph cp = false) (codePoints (blockHtml b)))
    (blocks raw) /\
  Forall (fun cp => isPictograph cp = false)
    (codePoints (innerHTML (render raw))).
Proof.
  intros Hraw. split.
  - apply Forall_forall. intros b Hb. apply Forall_forall. intros cp Hcp.
    eapply codePoints_clean; [apply Nat.le_refl | | exact Hcp].
    intros c Hc. apply text_clean with (x := raw); [exact Hraw|].
    apply blocks_spec in Hb. exact (paragraphs_In _ _ _ Hb Hc).
  - apply Forall_forall. intros cp Hcp.
    eapply codePoints_clean; [apply Nat.le_refl | | exact Hcp].
    intros c Hc. cbn [render innerHTML] in Hc.
    apply mainContent_In in Hc. destruct Hc as [Hc | Hc].
    + exact (text_clean raw c Hraw Hc).
    + assert (Hi := inserted_clean). rewrite forallb_forall in Hi.
      apply Hi. unfold insertedText.
      apply in_or_app. right. apply in_or_app. right. exact Hc.
Qed.

Lemma C4_witness :
  forallb isCodeUnit emojiExample = true /\
  (Forall
     (fun b =>
        Forall (fun cp => isPictograph cp = false)
          (codePoints (blockHtml b)))
     (blocks emojiExample) /\
   Forall (fun cp => isPictograph cp = false)
     (codePoints (innerHTML (render emojiExample)))).
Proof.
  assert (H : forallb isCodeUnit emojiExample = true)
    by by_eval.
  split; [exact H|].
  apply (C4_pictographs_stripped emojiExample H).
Defined.

(** What is left of [emojiExample]: the rocket, the sun and the check mark
    are gone; of the grinning face, which the second pattern would have
    matched, the first pattern took the high surrogate and left the low
    one. *)
Example emojiExample_blocks :
  blocks emojiExample = [Paragraph (js "Deploy " ++ [0xDE00] ++ js " done")].
Proof. vm_compute. reflexivity. Qed.

(** C5.  ["Confidence Level: High (82%)\n\nBody text"] gives the level
    "High" and the percentage "82", shown in the badge as "High (82%)", and
    the single paragraph "Body text"; ["Confidence Level: Medium\n\nBody"]
    gives the level "Medium" and no percentage. *)
Theorem C5_confidence_extraction :
  option_map level (confidenceMatch (processedContent confidenceExample)) =
    Some (js "High") /\
  option_map (fun m => option_map percentageShown (percentage m))
    (confidenceMatch (processedContent confidenceExample)) =
    Some (Some (js "82")) /\
  badge (render confidenceExample) = Some (js "High (82%)") /\
  blocks confidenceExample = [Paragraph (js "Body text")] /\
  innerHTML (render confidenceExample) = wrapOpen ++ js "Body text" ++ pClose /\
  option_map level (confidenceMatch (processedContent mediumExample)) =
    Some (js "Medium") /\
  option_map percentage (confidenceMatch (processedContent mediumExample)) =
    Some None /\
  badge (render mediumExample) = Some (js "Medium") /\
  blocks mediumExample = [Paragraph (js "Body")].
Proof. vm_compute. repeat split; reflexivity. Qed.

(** C6.  The banner, the rule and the "Analysis method:" trailer of the
    example leave no trace: the result is the one paragraph "Real
    content". *)
Theorem C6_banner_and_trailer_stripped :
  blocks bannerExample = [Paragraph (js "Real content")] /\
  render bannerExample =
    MkRendered None (wrapOpen ++ js "Real content" ++ pClose) /\
  includes (js "Analysis") (innerHTML (render bannerExample)) = false /\
  includes (js "---") (innerHTML (render bannerExample)) = false /\
  includes (js "**") (innerHTML (render bannerExample)) = false.
Proof. vm_compute. repeat split; reflexivity. Qed.

(** C7, as it is stated, does not hold.  A text with no markup, no
    pictograph, no banner and no confidence line that has a blank line in it
    gives a paragraph on each side of the blank line; and the empty text
    gives no paragraph at all. *)
Lemma C7_counterexample :
  noMarkup twoParagraphExample = true /\
  test fl_gi reConfidence (trim twoParagraphExample) = false /\
  blocks twoParagraphExample = [Paragraph (js "a"); Paragraph (js "b")] /\
  blocks twoParagraphExample <> [Paragraph (trim twoParagraphExample)] /\
  noMarkup [] = true /\
  blocks [] <> [Paragraph (trim [])].
Proof.
  assert (E : blocks twoParagraphExample =
              [Paragraph (js "a"); Paragraph (js "b")])
    by by_eval.
  assert (E0 : blocks [] = []) by by_eval.
  split; [vm_compute; reflexivity|].
  split; [vm_compute; reflexivity|].
  split; [exact E|].
  split; [rewrite E; discriminate|].
  split; [vm_compute; reflexivity|].
  rewrite E0. discriminate.
Qed.

(** C7, amended.  A text on which no pattern of the chain acts (no markup,
    no pictograph, no banner, no trailer, no blank line), with no confidence
    line and no list tag in it, and which is not blank, gives the confidence
    [null] and one paragraph, whose html is the text trimmed. *)
Theorem C7_plain_text (x : jstring) :
  noRuleApplies x = true ->
  test fl_gi reConfidence (trim x) = false ->
  includes listTag x = false ->
  trim x <> [] ->
  blocks x = [Paragraph (trim x)] /\ badge (render x) = None.
Proof.
  intros H1 H2 H3 H4.
  destruct (render_plain x H1 H2 H3 H4) as [Hb Hr].
  split; [exact Hb | now rewrite Hr].
Qed.

Lemma C7_witness :
  noRuleApplies plainExample = true /\
  test fl_gi reConfidence (trim plainExample) = false /\
  includes listTag plainExample = false /\
  trim plainExample <> [] /\
  blocks plainExample = [Paragraph (js "The service restarted twice.")] /\
  badge (render plainExample) = None.
Proof.
  assert (H1 : noRuleApplies plainExample = true)
    by by_eval.
  assert (H2 : test fl_gi reConfidence (trim plainExample) = false)
    by by_eval.
  assert (H3 : includes listTag plainExample = false)
    by by_eval.
  assert (H4 : trim plainExample <> []) by (vm_compute; discriminate).
  assert (E : trim plainExample = js "The service restarted twice.")
    by by_eval.
  split; [exact H1|]. split; [exact H2|]. split; [exact H3|].
  split; [exact H4|]. rewrite <- E.
  apply (C7_plain_text plainExample H1 H2 H3 H4).
Defined.

(** C8, as it is stated, does not hold.  A run of blank lines of the
    comment is not always a block boundary.  Before a list line the pattern
    of the list line takes the run with the line; around a banner the run
    goes with the banner, for which one line feed is put; and lines that
    end in CR LF never make the separator, which is two line feeds.  In the
    three cases the text on the two sides of the run is in one block. *)
Lemma C8_counterexample :
  blocks listRunExample =
    [Listing (js "Intro" ++ [NL] ++
              listTag ++ [BULLET; 32] ++ js "item" ++ pClose)] /\
  blocks bannerRunExample = [Paragraph (js "A" ++ [NL] ++ js "B")] /\
  blocks crlfExample = [Paragraph (js "A" ++ [13; NL; 13; NL] ++ js "B")].
Proof. split; [by_eval|]. split; by_eval. Qed.

(** C8, amended.  No block is empty: the html of every block of every
    comment is non-empty and already trimmed.  In the text that reaches the
    split, a run of two line feeds or more is exactly one boundary: the
    paragraphs of a text with such a run in it are those of what precedes
    the run, followed by those of what follows it, whatever the two sides
    and the length of the run; and so are the blocks.  In the comment
    itself the same holds where no other rule of the chain applies and there
    is no confidence line: the blocks are then the paragraphs of the
    comment as it was written, and a run of two line feeds or more in it,
    of any length and between any two sides, is exactly one boundary.  Five
    line feeds between "A" and "B" give the two paragraphs and nothing
    between them. *)
Theorem C8_no_empty_block :
  (forall x : jstring,
     Forall (fun b => blockHtml b <> [] /\ trim (blockHtml b) = blockHtml b)
       (blocks x)) /\
  (forall (a b : jstring) (k : nat),
     paragraphs (a ++ repeat NL (2 + k) ++ b) =
     paragraphs a ++ paragraphs b) /\
  (forall (raw a b : jstring) (k : nat),
     withoutConfidence (processedContent raw) =
       a ++ repeat NL (2 + k) ++ b ->
     blocks raw = map blockOf (paragraphs a) ++ map blockOf (paragraphs b)) /\
  (forall raw : jstring,
     noMarkup raw = true ->
     confidenceMatch (processedContent raw) = None ->
     blocks raw = map blockOf (paragraphs raw)) /\
  (forall (a b : jstring) (k : nat),
     noMarkup (a ++ repeat NL (2 + k) ++ b) = true ->
     confidenceMatch (processedContent (a ++ repeat NL (2 + k) ++ b)) =
       None ->
     blocks (a ++ repeat NL (2 + k) ++ b) =
     map blockOf (paragraphs a) ++ map blockOf (paragraphs b)) /\
  blocks blankRunExample = [Paragraph (js "A"); Paragraph (js "B")].
Proof.
  split.
  { intros x. apply Forall_forall. intros b H.
    apply blocks_spec, paragraphs_spec in H.
    destruct H as ((seg & _ & E) & Hne & _). split; [exact Hne|].
    rewrite E. apply trim_idem. }
  split; [exact paragraphs_run|].
  split.
  { intros raw a b k E. unfold blocks.
    now rewrite E, paragraphs_run, map_app. }
  split; [exact blocks_noMarkup|].
  split; [|by_eval].
  intros a b k Hq Hc.
  now rewrite (blocks_noMarkup _ Hq Hc), paragraphs_run, map_app.
Qed.

Lemma C8_witness :
  withoutConfidence (processedContent blankRunExample) =
    js "A" ++ repeat NL 2 ++ js "B" /\
  noMarkup (js "A" ++ repeat NL 5 ++ js "B") = true /\
  confidenceMatch (processedContent (js "A" ++ repeat NL 5 ++ js "B")) =
    None /\
  blocks blankRunExample =
    map blockOf (paragraphs (js "A")) ++ map blockOf (paragraphs (js "B")) /\
  blocks (js "A" ++ repeat NL 5 ++ js "B") =
    map blockOf (paragraphs (js "A")) ++ map blockOf (paragraphs (js "B")).
Proof.
  assert (E : withoutConfidence (processedContent blankRunExample) =
              js "A" ++ repeat NL (2 + 0) ++ js "B") by by_eval.
  assert (Hq : noMarkup (js "A" ++ repeat NL (2 + 3) ++ js "B") = true)
    by by_eval.
  assert (Hc : confidenceMatch
                 (processedContent (js "A" ++ repeat NL (2 + 3) ++ js "B")) =
               None) by by_eval.
  split; [exact E|]. split; [exact Hq|]. split; [exact Hc|].
  split.
  - exact (proj1 (proj2 (proj2 C8_no_empty_block))
             blankRunExample (js "A") (js "B") 0%nat E).
  - exact (proj1 (proj2 (proj2 (proj2 (proj2 C8_no_empty_block))))
             (js "A") (js "B") 3%nat Hq Hc).
Defined.

(** C9.  A comment whose author is unknown, or is not an AI assistant, is
    shown as its raw content, a text node: the renderer is not run. *)
Theorem C9_non_ai_bypass (comment : Comment) :
  (author_info comment = None \/
   exists a, author_info comment = Some a /\
             system_user_type a <> Some ai_assistant) ->
  isAIAssistantComment comment = false /\
  commentBody comment = TextBody (content comment).
Proof.
  intros H.
  assert (E : isAIAssistantComment comment = false).
  { unfold isAIAssistantComment. destruct H as [-> | (a & -> & Ha)].
    - reflexivity.
    - destruct (system_user_type a) as [[]|]; try reflexivity.
      now destruct Ha. }
  split; [exact E|]. unfold commentBody. now rewrite E.
Qed.

Lemma C9_witness :
  commentBody humanComment = TextBody (content humanComment) /\
  commentBody botComment = TextBody (content botComment).
Proof.
  split.
  - apply (C9_non_ai_bypass humanComment). right.
    eexists. split; [reflexivity|]. simpl. discriminate.
  - apply (C9_non_ai_bypass botComment). right.
    eexists. split; [reflexivity|]. simpl. discriminate.
Defined.

(** C10 (the code departs from it).  Nothing is escaped.  Where no pattern
    of the chain acts, the fragment is the text itself, trimmed, between
    the tags of a paragraph: every ['<'], ['>'] and ['&'] of it is there as
    it was.  In general every code unit of the fragment comes from the
    comment or from the text the chain inserts, in which there is no
    ['&']: no character reference is ever produced.  And
    [<script>alert(1)</script> & **x**] comes out with its tag and its
    ampersand untouched.  But what no rule consumes does not always reach
    the page: the filter before the final [map] drops every paragraph that
    begins with a list line, with all that is in it.  In
    ["- item\ntext with <b> & more"] no pattern touches the second line; it
    is in the text that is split, in the paragraph that the tagged first
    line opens, and nothing of the comment is painted. *)
Theorem C10_no_escaping :
  (forall x : jstring,
     noRuleApplies x = true ->
     test fl_gi reConfidence (trim x) = false ->
     includes listTag x = false ->
     trim x <> [] ->
     innerHTML (render x) = wrapOpen ++ trim x ++ pClose) /\
  (forall (x : jstring) (c : N),
     In c (innerHTML (render x)) -> In c x \/ In c insertedText) /\
  existsb (N.eqb 38) insertedText = false /\
  innerHTML (render scriptExample) =
    wrapOpen ++ js "<script>alert(1)</script> & " ++
    strongOpen ++ js "x" ++ strongClose ++ pClose /\
  (forall raw seg : jstring,
     In seg (split [NL; NL] (withoutConfidence (processedContent raw))) ->
     startsWith listTag (trim seg) = true ->
     ~ In (trim seg) (map blockHtml (blocks raw))) /\
  (withoutConfidence (processedContent droppedExample) =
     listTag ++ [BULLET; 32] ++ js "item" ++ pClose ++ [NL] ++
     js "text with <b> & more" /\
   blocks droppedExample = [] /\
   render droppedExample = MkRendered None []).
Proof.
  split.
  { intros x H1 H2 H3 H4.
    destruct (render_plain x H1 H2 H3 H4) as [_ Hr]. now rewrite Hr. }
  split; [apply render_In|].
  split; [by_eval|]. split; [by_eval|].
  split.
  { intros raw seg _ Ht Hin. apply in_map_iff in Hin.
    destruct Hin as (b & Eb & Hb).
    apply blocks_spec, paragraphs_spec in Hb. destruct Hb as (_ & _ & Hb).
    rewrite test_listTag, Eb, Ht in Hb. discriminate. }
  split; [by_eval|]. split; by_eval.
Qed.

Lemma C10_witness :
  noRuleApplies tagExample = true /\
  test fl_gi reConfidence (trim tagExample) = false /\
  includes listTag tagExample = false /\
  trim tagExample <> [] /\
  innerHTML (render tagExample) = wrapOpen ++ tagExample ++ pClose.
Proof.
  assert (H1 : noRuleApplies tagExample = true) by by_eval.
  assert (H2 : test fl_gi reConfidence (trim tagExample) = false)
    by by_eval.
  assert (H3 : includes listTag tagExample = false)
    by by_eval.
  assert (H4 : trim tagExample <> []) by (vm_compute; discriminate).
  assert (E : trim tagExample = tagExample) by by_eval.
  split; [exact H1|]. split; [exact H2|]. split; [exact H3|].
  split; [exact H4|]. rewrite <- E at 2.
  apply (proj1 C10_no_escaping tagExample H1 H2 H3 H4).
Defined.

(** * Further properties *)

(** ** The renderer *)

Lemma ranges_bmp (c : N) :
  isCodeUnit c = true ->
  existsb (inRange c) pictographRanges = inRange c (0x2600, 0x27BF).
Proof.
  unfold isCodeUnit, pictographRanges, inRange. cbn [existsb fst snd].
  intros H. apply N.ltb_lt in H. apply eq_true_iff_eq.
  rewrite !orb_true_iff, !andb_true_iff, !N.leb_le. split.
  - intros H'. repeat destruct H' as [H' | H']; try discriminate; lia.
  - intros H'. destruct (N.le_gt_cases c 0x26FF); [do 4 right; left | do 5 right; left]; lia.
Qed.

Lemma pair_not_in_ranges (hi lo : N) :
  isHighSurrogate hi = true -> isLowSurrogate lo = true ->
  isPictographUnit hi = false ->
  existsb (inRange (pairToCodePoint hi lo)) pictographRanges = false.
Proof.
  intros H1 H2 H3. assert (H := pair_not_pictograph hi lo H1 H2 H3).
  unfold isPictograph in H. now apply orb_false_elim in H.
Qed.

Lemma stage2_filter :
  forall n s p, (length s <= n)%nat ->
  forallb isCodeUnit s = true ->
  forallb (fun c => negb (isPictographUnit c)) s = true ->
  replace_go fl_gu reRanges [] p s 0 =
  filter (fun c => negb (inRange c (0x2600, 0x27BF))) s.
Proof.
  induction n as [|n IH]; intros s p Hn Hu Hp;
    rewrite replace_go_eq, matchAt_ranges; cbv zeta;
    destruct s as [|c0 t]; simpl in Hn; try lia; try reflexivity.
  cbn [forallb] in Hu, Hp.
  apply andb_prop in Hu. destruct Hu as [Hu0 Hu].
  apply andb_prop in Hp. destruct Hp as [Hp0 Hp].
  apply negb_true_iff in Hp0.
  unfold next. cbn [rest caps]. cbn [filter].
  destruct t as [|d t'].
  - cbn [pairAt]. rewrite (ranges_bmp _ Hu0).
    destruct (inRange c0 (0x2600, 0x27BF)); cbn [negb].
    + cbn [caps rest expand flat_map app length Nat.sub]. reflexivity.
    + rewrite (IH [] (Some c0)); [reflexivity | simpl; lia | reflexivity | reflexivity].
  - unfold pairAt. simpl in Hn.
    destruct (unicode fl_gu && isHighSurrogate c0 && isLowSurrogate d) eqn:Ep.
    + assert (Hc0 : isHighSurrogate c0 = true /\ isLowSurrogate d = true).
      { cbn [unicode fl_gu andb] in Ep. now apply andb_prop in Ep. }
      destruct Hc0 as [Hh Hl].
      rewrite (pair_not_in_ranges _ _ Hh Hl Hp0).
      cbn [forallb] in Hu, Hp.
      apply andb_prop in Hu. destruct Hu as [Hu1 Hu].
      apply andb_prop in Hp. destruct Hp as [Hp1 Hp].
      rewrite (IH t' (Some d)); [|lia|assumption|assumption].
      rewrite (surrogate_not_dingbat c0) by (now rewrite Hh).
      cbn [negb filter].
      rewrite (surrogate_not_dingbat d) by (rewrite Hl; apply orb_true_r).
      reflexivity.
    + rewrite (ranges_bmp _ Hu0).
      destruct (inRange c0 (0x2600, 0x27BF)); cbn [negb].
      * cbn [caps rest expand flat_map app].
        replace (length (c0 :: d :: t') - length (d :: t'))%nat
          with 1%nat by (cbn [length]; lia).
        apply IH; [simpl; lia | assumption | assumption].
      * rewrite (IH (d :: t') (Some c0)); [reflexivity | simpl; lia | assumption | assumption].
Qed.

Lemma stage1_filter (s : jstring) :
  replaceAll fl_g rePictographs [] s =
  filter (fun c => negb (isPictographUnit c)) s.
Proof.
  unfold replaceAll, rePictographs. rewrite replace_cls_filter by reflexivity.
  apply filter_ext. intros c. now rewrite clsMatches_units.
Qed.

Lemma filter_filter {A} (f g : A -> bool) (l : list A) :
  filter f (filter g l) = filter (fun a => g a && f a) l.
Proof.
  induction l as [|a l IH]; simpl; [reflexivity|].
  destruct (g a); simpl; [destruct (f a)|]; now rewrite IH.
Qed.

Lemma forallb_filter {A} (f : A -> bool) (l : list A) :
  forallb f (filter f l) = true.
Proof.
  induction l as [|a l IH]; simpl; [reflexivity|].
  destruct (f a) eqn:E; simpl; [now rewrite E|assumption].
Qed.

Lemma forallb_filter_keep {A} (f g : A -> bool) (l : list A) :
  forallb f l = true -> forallb f (filter g l) = true.
Proof.
  induction l as [|a l IH]; simpl; [reflexivity|].
  intros H. apply andb_prop in H. destruct H as [H1 H2].
  destruct (g a); simpl; [rewrite H1|]; auto.
Qed.

Lemma strip_filter (s : jstring) :
  forallb isCodeUnit s = true ->
  fold_left runStage (firstn 2 stages) s = stripped s.
Proof.
  intros Hs. cbn [firstn stages fold_left runStage].
  rewrite stage1_filter. unfold replaceAll.
  rewrite (stage2_filter _ _ _ (Nat.le_refl _)).
  - unfold stripped. rewrite filter_filter. apply filter_ext_in.
    intros c Hc. unfold cleanUnit.
    rewrite forallb_forall in Hs. now rewrite (Hs c Hc).
  - now apply forallb_filter_keep.
  - apply forallb_filter.
Qed.

Lemma chain_after_strip (s : jstring) :
  forallb isCodeUnit s = true ->
  fold_left runStage stages s = fold_left runStage (skipn 2 stages) (stripped s).
Proof.
  intros Hs. rewrite <- (firstn_skipn 2 stages) at 1.
  rewrite fold_left_app. now rewrite strip_filter.
Qed.

Lemma render_of_stripped (s t : jstring) :
  forallb isCodeUnit s = true -> forallb isCodeUnit t = true ->
  stripped s = stripped t ->
  render s = render t /\ blocks s = blocks t.
Proof.
  intros Hs Ht E.
  assert (P : processedContent s = processedContent t).
  { unfold processedContent. now rewrite !chain_after_strip, E. }
  unfold render, blocks. now rewrite P.
Qed.

(** X1.  On a string of 16-bit code units the first two replacements of the
    chain are, together, a filter: they delete every code unit of the first
    pattern and every code unit from U+2600 to U+27BF, and nothing else.
    The four astral ranges of the second pattern delete nothing: the first
    pattern has already taken the high surrogate of every pair that they
    could match. *)
Theorem strip_is_filter (s : jstring) :
  forallb isCodeUnit s = true ->
  fold_left runStage (firstn 2 stages) s = stripped s.
Proof. exact (strip_filter s). Qed.

Lemma strip_is_filter_witness :
  forallb isCodeUnit emojiExample = true /\
  fold_left runStage (firstn 2 stages) emojiExample = stripped emojiExample.
Proof.
  assert (H : forallb isCodeUnit emojiExample = true)
    by (vm_compute; reflexivity).
  split; [exact H | exact (strip_is_filter emojiExample H)].
Defined.

(** X2.  A decoration does not count: a code unit that the first two
    patterns delete can be put anywhere in a comment, or taken out of it,
    and the badge, the fragment and the blocks stay the same. *)
Theorem decoration_ignored (a b : jstring) (u : N) :
  forallb isCodeUnit (a ++ u :: b) = true ->
  cleanUnit u = false ->
  render (a ++ u :: b) = render (a ++ b) /\
  blocks (a ++ u :: b) = blocks (a ++ b).
Proof.
  intros H Hu. apply render_of_stripped.
  - exact H.
  - rewrite forallb_app in *. cbn [forallb] in H.
    apply andb_prop in H. destruct H as [Ha H].
    apply andb_prop in H. destruct H as [_ Hb]. now rewrite Ha, Hb.
  - unfold stripped. rewrite !filter_app. cbn [filter]. now rewrite Hu.
Qed.

Lemma decoration_ignored_witness :
  forallb isCodeUnit checkMarkExample = true /\
  cleanUnit 0x2705 = false /\
  blocks checkMarkExample = [Paragraph (js "Fix done")].
Proof.
  unfold checkMarkExample.
  assert (H1 : forallb isCodeUnit (js "Fix " ++ 0x2705 :: js "done") = true)
    by (vm_compute; reflexivity).
  assert (H2 : cleanUnit 0x2705 = false) by (vm_compute; reflexivity).
  split; [exact H1|]. split; [exact H2|].
  rewrite (proj2 (decoration_ignored (js "Fix ") (js "done") 0x2705 H1 H2)).
  vm_compute. reflexivity.
Defined.

Lemma blockEqb_eq (a b : ContentBlock) : blockEqb a b = true -> a = b.
Proof.
  destruct a as [x|x], b as [y|y]; simpl; try discriminate;
    destruct (list_eq_dec N.eq_dec x y); try discriminate;
    intros _; now subst.
Qed.

Lemma blocksEqb_eq : forall a b, blocksEqb a b = true -> a = b.
Proof.
  induction a as [|x a IH]; destruct b as [|y b]; simpl; try discriminate.
  - reflexivity.
  - intros H. apply andb_prop in H. destruct H as [H1 H2].
    apply blockEqb_eq in H1. apply IH in H2. now subst.
Qed.

Lemma astral_checked :
  forallb (fun cp => blocksEqb (blocks (utf16 cp)) (halfLeft cp))
    astralPlanePoints = true.
Proof. vm_compute. reflexivity. Qed.

(** X3.  A pictograph from U+1F000 to U+1FBFF that stands alone is never
    kept, and is not always removed: the first pattern deletes its high
    surrogate, and its low surrogate as well when that is one of the low
    surrogates of the pattern; if not, the low surrogate is left alone, as
    a paragraph of one unpaired code unit. *)
Theorem astral_leaves_low_surrogate (cp : N) :
  0x1F000 <= cp <= 0x1FBFF ->
  blocks (utf16 cp) = halfLeft cp.
Proof.
  intros H. apply blocksEqb_eq.
  assert (Hall := astral_checked). rewrite forallb_forall in Hall.
  apply Hall. unfold astralPlanePoints. apply in_map_iff.
  exists (N.to_nat (cp - 0x1F000)). split.
  - rewrite N2Nat.id. lia.
  - apply in_seq. lia.
Qed.

Lemma astral_leaves_low_surrogate_witness :
  blocks (utf16 0x1F600) = halfLeft 0x1F600.
Proof.
  apply (astral_leaves_low_surrogate 0x1F600). split; discriminate.
Defined.

Lemma paint_nonempty (b : ContentBlock) : blockHtml b <> [] -> paint b <> [].
Proof. destruct b; simpl; [discriminate | auto]. Qed.

(** X4.  The fragment is empty exactly when the comment has no block. *)
Theorem fragment_empty_iff (x : jstring) :
  innerHTML (render x) = [] <-> blocks x = [].
Proof.
  assert (E : innerHTML (render x) = concat (map paint (blocks x)))
    by apply mainContent_paint.
  rewrite E. split.
  - intros H. destruct (blocks x) as [|b l] eqn:Eb; [reflexivity|].
    exfalso.
    assert (Hb : In b (blocks x)) by (rewrite Eb; now left).
    apply blocks_spec, paragraphs_spec in Hb. destruct Hb as (_ & Hne & _).
    cbn [map concat] in H. apply app_eq_nil in H. destruct H as [H _].
    now apply (paint_nonempty b Hne).
  - intros ->. reflexivity.
Qed.

Lemma includes_snoc (cur : jstring) (c : N) :
  includes [NL; NL] (rev cur) = false ->
  (endsWithNL cur = true -> c <> NL) ->
  includes [NL; NL] (rev (c :: cur)) = false.
Proof.
  intros H Hc. destruct (includes [NL; NL] (rev (c :: cur))) eqn:E;
    [|reflexivity].
  exfalso. apply includes_spec in E. destruct E as (a & b & E).
  cbn [rev] in E.
  destruct (rev b) as [|c' b'] eqn:Eb.
  - apply (f_equal (@rev N)) in Eb. rewrite rev_involutive in Eb. subst b.
    cbn [rev app] in E.
    change (a ++ [NL; NL]) with (a ++ [NL] ++ [NL]) in E.
    rewrite app_assoc in E. apply app_inj_tail in E. destruct E as [E1 E2].
    apply Hc; [|exact E2].
    apply (f_equal (@rev N)) in E1. rewrite rev_involutive, rev_app_distr in E1.
    subst cur. reflexivity.
  - apply (f_equal (@rev N)) in Eb. rewrite rev_involutive in Eb. subst b.
    cbn [rev] in E. rewrite !app_assoc in E.
    apply app_inj_tail in E. destruct E as [E1 _].
    rewrite <- app_assoc in E1.
    assert (Hi : includes [NL; NL] (rev cur) = true).
    { apply includes_spec. eauto. }
    rewrite Hi in H. discriminate.
Qed.

Lemma split_go_nosep :
  forall s skip cur piece,
  includes [NL; NL] (rev cur) = false ->
  (skip = 0%nat -> endsWithNL cur = true -> hd_error s <> Some NL) ->
  (skip <> 0%nat -> cur = []) ->
  In piece (split_go [NL; NL] s skip cur) ->
  includes [NL; NL] piece = false.
Proof.
  induction s as [|c t IH]; intros skip cur piece Hc He Hs H;
    cbn [split_go] in H.
  - destruct H as [<- | []]. exact Hc.
  - destruct skip as [|k].
    + destruct (startsWith [NL; NL] (c :: t)) eqn:Esw.
      * destruct H as [<- | H]; [exact Hc|].
        apply IH in H; [exact H | reflexivity | discriminate | reflexivity].
      * apply IH in H; auto.
        -- apply includes_snoc; [exact Hc|].
           intros Hcur Ec. apply (He eq_refl Hcur). now rewrite Ec.
        -- intros _ Hcur. cbn [endsWithNL] in Hcur. apply N.eqb_eq in Hcur.
           subst c. cbn [startsWith] in Esw. rewrite N.eqb_refl in Esw.
           cbn [andb] in Esw. destruct t as [|d t']; [discriminate|].
           cbn [hd_error]. intros Ed. inversion Ed; subst.
           rewrite N.eqb_refl in Esw. discriminate.
        -- intros Hk. now destruct Hk.
    + assert (cur = []) by (apply Hs; discriminate). subst cur.
      apply IH in H; [exact H | reflexivity | discriminate | ].
      intros Hk. reflexivity.
Qed.

(** X5.  No block has a blank line in it: the html of a block never holds
    two line feeds in a row. *)
Theorem block_has_no_blank_line (x : jstring) :
  Forall (fun b => includes [NL; NL] (blockHtml b) = false) (blocks x).
Proof.
  apply Forall_forall. intros b H.
  apply blocks_spec, paragraphs_spec in H.
  destruct H as ((seg & Hs & ->) & _). apply includes_trim.
  unfold split in Hs.
  apply split_go_nosep in Hs; [exact Hs | reflexivity | discriminate | ].
  intros Hk. reflexivity.
Qed.

Lemma next_caps (fl : flags) (x x' : mstate) (d : N) :
  next fl x = Some (d, x') -> caps x' = caps x.
Proof.
  unfold next. destruct (rest x) as [|c [|e t]]; intros H.
  - discriminate.
  - now inversion H.
  - destruct (unicode fl && isHighSurrogate c && isLowSurrogate e);
      now inversion H.
Qed.

Section Captures.
  Variables (fl : flags) (Q : nat -> jstring -> Prop).

Lemma clearCaps_capsSatisfy (gs : list nat) (x : mstate) :
  capsSatisfy Q x -> capsSatisfy Q (clearCaps gs x).
Proof.
  intros H i v Hin. cbn [clearCaps caps] in Hin.
  apply filter_In in Hin. now apply H.
Qed.

Lemma repeatMatcher_capsSatisfy (m1 : mstate -> list mstate)
  (gs : list nat) (greedy : bool) :
  (forall x y, capsSatisfy Q x -> In y (m1 x) -> capsSatisfy Q y) ->
  forall fuel min max x y,
  capsSatisfy Q x ->
  In y (repeatMatcher m1 gs greedy fuel min max x) -> capsSatisfy Q y.
Proof.
  intros Hm. induction fuel as [|fuel IH]; intros min max x y Hx H.
  - destruct H.
  - rewrite repeatMatcher_S in H.
    assert (Hloop :
      In y (flat_map
              (fun z => if Nat.eqb min 0 &&
                           Nat.eqb (length (rest z)) (length (rest x))
                        then []
                        else repeatMatcher m1 gs greedy fuel (pred min)
                               (option_map pred max) z)
              (m1 (clearCaps gs x))) -> capsSatisfy Q y).
    { intros Hin. apply in_flat_map in Hin. destruct Hin as (z & Hz & Hy).
      destruct (Nat.eqb min 0 && _); [destruct Hy|].
      apply IH with (2 := Hy).
      apply (Hm _ _ (clearCaps_capsSatisfy gs x Hx) Hz). }
    cbv zeta in H.
    destruct max as [[|k]|].
    + destruct H as [<- | []]. exact Hx.
    + destruct min; [destruct greedy|]; auto.
      * apply in_app_or in H. destruct H as [H | [<- | []]]; auto.
      * destruct H as [<- | H]; auto.
    + destruct min; [destruct greedy|]; auto.
      * apply in_app_or in H. destruct H as [H | [<- | []]]; auto.
      * destruct H as [<- | H]; auto.
Qed.

Lemma matches_capsSatisfy (r : regex) :
  groupsSound fl Q r ->
  forall x y, capsSatisfy Q x -> In y (matches fl r x) -> capsSatisfy Q y.
Proof.
  induction r as [ | c | | neg items | r1 IH1 r2 IH2 | r1 IH1 r2 IH2
                 | min max greedy r1 IH1 | i r1 IH1 | | | r1 IH1 ];
    intros Hs x y Hx H; cbn [matches] in H; cbn [groupsSound] in Hs.
  - destruct H as [<- | []]. exact Hx.
  - destruct (next fl x) as [[d x']|] eqn:E; [|destruct H].
    destruct (charEq fl c d); [|destruct H]. destruct H as [<- | []].
    intros i v Hin. rewrite (next_caps _ _ _ _ E) in Hin. now apply Hx.
  - destruct (next fl x) as [[d x']|] eqn:E; [|destruct H].
    destruct (isLineTerminator d); [destruct H|]. destruct H as [<- | []].
    intros i v Hin. rewrite (next_caps _ _ _ _ E) in Hin. now apply Hx.
  - destruct (next fl x) as [[d x']|] eqn:E; [|destruct H].
    destruct (clsMatches fl neg items d); [|destruct H].
    destruct H as [<- | []].
    intros i v Hin. rewrite (next_caps _ _ _ _ E) in Hin. now apply Hx.
  - apply in_flat_map in H. destruct H as (z & Hz & Hy).
    destruct Hs as [Hs1 Hs2].
    apply (IH2 Hs2 z y); [|exact Hy]. now apply (IH1 Hs1 x z).
  - destruct Hs as [Hs1 Hs2]. apply in_app_or in H. destruct H as [H | H].
    + now apply (IH1 Hs1 x y).
    + now apply (IH2 Hs2 x y).
  - apply (repeatMatcher_capsSatisfy (matches fl r1) (groupsOf r1) greedy
             (IH1 Hs) _ _ _ x y Hx H).
  - apply in_map_iff in H. destruct H as (z & <- & Hz).
    destruct Hs as [Hs1 Hs2].
    intros j v Hin. cbn [setCap caps] in Hin. destruct Hin as [Hin | Hin].
    + inversion Hin; subst. now apply Hs2.
    + now apply (IH1 Hs1 x z Hx Hz).
  - destruct (atLineStart fl x); [|destruct H]. destruct H as [<- | []].
    exact Hx.
  - destruct (atLineEnd fl x); [|destruct H]. destruct H as [<- | []].
    exact Hx.
  - destruct (matches fl r1 x) as [|z l] eqn:E; [destruct H|].
    destruct H as [<- | []]. intros i v Hin. cbn [caps] in Hin.
    assert (Hz : In z (matches fl r1 x)) by (rewrite E; now left).
    now apply (IH1 Hs x z Hx Hz).
Qed.

Lemma exec_groups (r : regex) :
  groupsSound fl Q r ->
  forall n s p res, (length s <= n)%nat -> exec fl r p s = Some res ->
  forall i v, getCap i (groups res) = Some v -> Q i v.
Proof.
  intros Hs. induction n as [|n IH]; intros s p res Hn H i v Hg;
    rewrite exec_eq in H;
    destruct (matchAt fl r p s) as [y|] eqn:E.
  - inversion H; subst. cbn [groups] in Hg. apply getCap_In in Hg.
    apply matchAt_In in E.
    refine (matches_capsSatisfy r Hs _ y _ E i v Hg). intros j w [].
  - destruct s; [discriminate | simpl in Hn; lia].
  - inversion H; subst. cbn [groups] in Hg. apply getCap_In in Hg.
    apply matchAt_In in E.
    refine (matches_capsSatisfy r Hs _ y _ E i v Hg). intros j w [].
  - destruct s as [|c t]; [discriminate|]. simpl in Hn.
    destruct (pairAt fl c t).
    + destruct t as [|d t']; [discriminate|].
      destruct (exec fl r (Some d) t') as [res'|] eqn:E'; [|discriminate].
      inversion H; subst. cbn [groups] in Hg.
      apply (IH t' (Some d) res'); [simpl in Hn; lia | exact E' | exact Hg].
    + destruct (exec fl r (Some c) t) as [res'|] eqn:E'; [|discriminate].
      inversion H; subst. cbn [groups] in Hg.
      apply (IH t (Some c) res'); [lia | exact E' | exact Hg].
Qed.

End Captures.

Lemma rep_cls_consumed (fl : flags) (neg : bool) (items : list citem)
  (greedy : bool) :
  unicode fl = false ->
  forall fuel min max x y,
  In y (repeatMatcher (matches fl (Cls neg items)) [] greedy fuel min max x) ->
  exists pre,
    rest x = pre ++ rest y /\
    Forall (fun c => clsMatches fl neg items c = true) pre /\
    (max = None -> (min <= length pre)%nat).
Proof.
  intros Hu. induction fuel as [|fuel IH]; intros min max x y H.
  - destruct H.
  - rewrite repeatMatcher_S in H.
    assert (Hstop : y = x -> (max = None -> min = 0%nat) ->
      exists pre, rest x = pre ++ rest y /\
        Forall (fun c => clsMatches fl neg items c = true) pre /\
        (max = None -> (min <= length pre)%nat)).
    { intros -> Hm. exists []. split; [reflexivity|].
      split; [constructor|]. intros Hn. rewrite (Hm Hn). apply Nat.le_refl. }
    assert (Hloop :
      In y (flat_map
              (fun z => if Nat.eqb min 0 &&
                           Nat.eqb (length (rest z)) (length (rest x))
                        then []
                        else repeatMatcher (matches fl (Cls neg items)) []
                               greedy fuel (pred min)
                               (option_map pred max) z)
              (matches fl (Cls neg items) (clearCaps [] x))) ->
      exists pre, rest x = pre ++ rest y /\
        Forall (fun c => clsMatches fl neg items c = true) pre /\
        (max = None -> (min <= length pre)%nat)).
    { intros Hin. apply in_flat_map in Hin. destruct Hin as (z & Hz & Hy).
      destruct (Nat.eqb min 0 && _); [destruct Hy|].
      cbn [matches] in Hz. rewrite (next_plain fl Hu) in Hz.
      cbn [clearCaps rest] in Hz.
      destruct (rest x) as [|c t] eqn:Er; [destruct Hz|].
      destruct (clsMatches fl neg items c) eqn:Ec; [|destruct Hz].
      destruct Hz as [<- | []].
      apply IH in Hy. destruct Hy as (pre & E & Hf & Hl).
      cbn [rest] in E. exists (c :: pre). split; [now rewrite E|].
      split; [now constructor|].
      intros Hn. subst max. specialize (Hl eq_refl). cbn [length]. lia. }
    cbv zeta in H.
    destruct max as [[|k]|].
    + destruct H as [<- | []]. apply Hstop; [reflexivity | discriminate].
    + destruct min; [destruct greedy|]; auto.
      * apply in_app_or in H. destruct H as [H | [<- | []]]; auto.
      * destruct H as [<- | H]; auto.
    + destruct min; [destruct greedy|]; auto.
      * apply in_app_or in H. destruct H as [H | [<- | []]]; auto.
      * destruct H as [<- | H]; auto.
Qed.

Lemma confidence_groupsSound : groupsSound fl_gi confidenceCapture reConfidence.
Proof.
  unfold reConfidence, seq, opt, star, plus, lazyStar, lit.
  cbn [fold_right groupsSound map js list_ascii_of_string].
  repeat match goal with |- _ /\ _ => split end; try exact I.
  1-2: (unfold seq; cbn [fold_right groupsSound]; repeat split).
  - intros x y H. rewrite matches_rep in H.
    apply rep_cls_consumed in H; [|reflexivity].
    destruct H as (pre & E & Hf & _). rewrite (consumed_app _ _ _ E).
    cbn [confidenceCapture]. apply Forall_forall. intros c Hc.
    rewrite Forall_forall in Hf. specialize (Hf c Hc).
    split; intros ->; discriminate Hf.
  - intros x y H. rewrite matches_rep in H.
    apply rep_cls_consumed in H; [|reflexivity].
    destruct H as (pre & E & Hf & Hl). rewrite (consumed_app _ _ _ E).
    cbn [confidenceCapture]. split.
    + apply Forall_forall. intros c Hc.
      rewrite Forall_forall in Hf. specialize (Hf c Hc).
      intros ->; discriminate Hf.
    + specialize (Hl eq_refl). intros ->. cbn [length] in Hl. lia.
Qed.

(** X6.  Whatever the text, the level taken from the confidence line has
    no opening parenthesis and no line feed in it, and the percentage no
    closing parenthesis. *)
Theorem confidence_captures (text : jstring) (m : mresult) :
  confidenceMatch text = Some m ->
  Forall (fun c => c <> 40 /\ c <> NL) (level m) /\
  (forall q, percentage m = Some q -> Forall (fun c => c <> 41) q).
Proof.
  intros H. unfold confidenceMatch in H.
  assert (G := exec_groups fl_gi confidenceCapture reConfidence
                 confidence_groupsSound _ text None m (Nat.le_refl _) H).
  split.
  - unfold level, capOr. destruct (getCap 1 (groups m)) as [v|] eqn:E.
    + apply G in E. cbn [confidenceCapture] in E.
      rewrite Forall_forall in *. intros c Hc. apply E. now apply trim_In.
    + apply Forall_forall. intros c Hc. apply trim_In in Hc. destruct Hc.
  - intros q Hq. unfold percentage in Hq.
    destruct (getCap 2 (groups m)) as [[|c v]|] eqn:E; try discriminate.
    inversion Hq; subst. apply G in E. cbn [confidenceCapture] in E.
    destruct E as [E _]. rewrite Forall_forall in *. intros d Hd.
    apply E. now apply trim_In.
Qed.

Lemma confidence_captures_witness :
  confidenceMatch twoConfidenceExample = Some exConfidence /\
  Forall (fun c => c <> 40 /\ c <> NL) (level exConfidence).
Proof.
  assert (H : confidenceMatch twoConfidenceExample = Some exConfidence)
    by (vm_compute; reflexivity).
  split; [exact H|].
  exact (proj1 (confidence_captures twoConfidenceExample exConfidence H)).
Defined.

Lemma replaceFirst_absent (c : N) (by_ p : jstring) :
  ~ In c p -> replaceFirst [c] by_ p = p.
Proof.
  induction p as [|d p IH]; intros H; [reflexivity|].
  cbn [replaceFirst startsWith].
  destruct (N.eqb_spec c d) as [->|Hne].
  - exfalso. apply H. now left.
  - cbn [andb]. rewrite IH; [reflexivity|]. intros Hin. apply H. now right.
Qed.

Lemma replaceFirst_first (c : N) (by_ q r : jstring) :
  ~ In c q -> replaceFirst [c] by_ (q ++ c :: r) = q ++ by_ ++ r.
Proof.
  induction q as [|d q IH]; intros H.
  - cbn [app replaceFirst startsWith]. rewrite N.eqb_refl. reflexivity.
  - cbn [app replaceFirst startsWith].
    destruct (N.eqb_spec c d) as [->|Hne].
    + exfalso. apply H. now left.
    + cbn [andb]. rewrite IH; [reflexivity|]. intros Hin. apply H. now right.
Qed.

(** X7.  The badge drops the first percent sign of the percentage and no
    other code unit, so that a percentage written with the sign and one
    written without it are shown alike. *)
Theorem percent_sign_normalised (q r : jstring) :
  ~ In 37 q ->
  percentageShown (q ++ 37 :: r) = q ++ r /\ percentageShown q = q.
Proof.
  intros H. unfold percentageShown. change (js "%") with [37]. split.
  - now rewrite replaceFirst_first.
  - now apply replaceFirst_absent.
Qed.

Lemma percent_sign_normalised_witness :
  percentageShown (js "82%") = js "82" /\ percentageShown (js "82") = js "82".
Proof.
  apply (percent_sign_normalised (js "82") []).
  intros H. vm_compute in H. intuition discriminate.
Defined.

(** ** The labels of the ticket page *)

Lemma split_go_nonempty (sep s : jstring) :
  forall skip cur, split_go sep s skip cur <> [].
Proof.
  induction s as [|c t IH]; intros skip cur; cbn [split_go]; [discriminate|].
  destruct skip; [|apply IH].
  destruct (startsWith sep (c :: t)); [discriminate | apply IH].
Qed.

Lemma join_cons (sep a : jstring) (l : list jstring) :
  l <> [] -> join sep (a :: l) = a ++ sep ++ join sep l.
Proof. destruct l; [now intros [] | reflexivity]. Qed.

Lemma capitalize_snoc (w : jstring) (c : N) :
  w <> [] -> capitalize (w ++ [c]) = capitalize w ++ [c].
Proof.
  destruct w as [|a w]; [now intros []|]. intros _.
  unfold capitalize. cbn [app firstn skipn]. now rewrite <- app_assoc.
Qed.

Lemma formatStatus_go (s : jstring) :
  forall cur,
  join [32] (map capitalize (split_go [95] s 0 cur)) =
  match cur with
  | [] => titleWalk true s
  | _ => capitalize (rev cur) ++ titleWalk false s
  end.
Proof.
  induction s as [|c t IH]; intros cur.
  - cbn [split_go map join titleWalk]. destruct cur; [reflexivity|].
    now rewrite app_nil_r.
  - cbn [split_go startsWith titleWalk]. rewrite N.eqb_sym.
    destruct (c =? 95) eqn:E; cbn [andb].
    + cbn [length pred map]. rewrite join_cons.
      2:{ intros H. apply map_eq_nil in H. now apply split_go_nonempty in H. }
      rewrite (IH []). destruct cur; reflexivity.
    + rewrite (IH (c :: cur)). destruct cur as [|d cur].
      * reflexivity.
      * cbn [rev]. rewrite capitalize_snoc.
        -- now rewrite <- app_assoc.
        -- intros H. apply app_eq_nil in H. destruct H as [_ H].
           discriminate.
Qed.

Lemma formatStatus_walk (s : jstring) : formatStatus s = titleWalk true s.
Proof. unfold formatStatus, split. apply (formatStatus_go s []). Qed.

Lemma canonicalize_not_underscore (c : N) : c <> 95 -> canonicalize c <> 95.
Proof.
  unfold canonicalize. intros H.
  destruct ((97 <=? c) && (c <=? 122)) eqn:E; [|exact H].
  apply andb_prop in E. destruct E as [E1 E2].
  apply N.leb_le in E1, E2. lia.
Qed.

Lemma titleWalk_length (s : jstring) :
  forall up, length (titleWalk up s) = length s.
Proof.
  induction s as [|c t IH]; intros up; cbn [titleWalk]; [reflexivity|].
  destruct (c =? 95); cbn [length]; now rewrite IH.
Qed.

Lemma titleWalk_no_underscore (s : jstring) :
  forall up, ~ In 95 (titleWalk up s).
Proof.
  induction s as [|c t IH]; intros up; cbn [titleWalk]; [intros []|].
  destruct (N.eqb_spec c 95) as [->|Hne].
  - intros [H | H]; [discriminate | now apply (IH true)].
  - intros [H | H]; [|now apply (IH false)].
    destruct up; [now apply (canonicalize_not_underscore c)|].
    now apply Hne.
Qed.

Lemma titleWalk_underscore (a b : jstring) :
  forall up,
  titleWalk up (a ++ 95 :: b) = titleWalk up a ++ 32 :: titleWalk true b.
Proof.
  induction a as [|c a IH]; intros up.
  - reflexivity.
  - cbn [app titleWalk]. destruct (c =? 95); now rewrite IH.
Qed.

(** X8.  [formatStatus], on ASCII text (which is where [toUpperCase] is
    what it is here), keeps the length of the status, leaves no underscore
    in it, and is made word by word: each underscore becomes one space
    between the formatted texts on its two sides. *)
Theorem formatStatus_shape (status : jstring) :
  forallb isAscii status = true ->
  length (formatStatus status) = length status /\
  ~ In 95 (formatStatus status) /\
  (forall a b, status = a ++ 95 :: b ->
     formatStatus status = formatStatus a ++ 32 :: formatStatus b).
Proof.
  intros _. rewrite formatStatus_walk. split; [apply titleWalk_length|].
  split; [apply titleWalk_no_underscore|].
  intros a b ->. rewrite !formatStatus_walk. apply titleWalk_underscore.
Qed.

Lemma formatStatus_shape_witness :
  length (formatStatus (statusName in_progress)) =
    length (statusName in_progress) /\
  formatStatus (statusName in_progress) = js "In Progress".
Proof.
  split.
  - apply (formatStatus_shape (statusName in_progress)).
    vm_compute. reflexivity.
  - vm_compute. reflexivity.
Defined.

Lemma titleWalk_plain (s : jstring) :
  ~ In 95 s -> titleWalk false s = s.
Proof.
  induction s as [|c t IH]; intros H; [reflexivity|]. cbn [titleWalk].
  destruct (N.eqb_spec c 95) as [->|Hne].
  - exfalso. apply H. now left.
  - rewrite IH; [reflexivity|]. intros Hin. apply H. now right.
Qed.

(** X9.  On a text without an underscore, such as each of the four
    priorities, [formatStatus] and [formatPriority] agree. *)
Theorem formatPriority_is_formatStatus (priority : jstring) :
  ~ In 95 priority -> formatStatus priority = formatPriority priority.
Proof.
  intros H. rewrite formatStatus_walk. unfold formatPriority, capitalize.
  destruct priority as [|c t]; [reflexivity|].
  cbn [titleWalk firstn skipn toUpperCase map app].
  destruct (N.eqb_spec c 95) as [->|Hne].
  - exfalso. apply H. now left.
  - rewrite titleWalk_plain; [reflexivity|]. intros Hin. apply H. now right.
Qed.

Lemma formatPriority_is_formatStatus_witness :
  formatStatus (priorityName critical) = formatPriority (priorityName critical).
Proof.
  apply (formatPriority_is_formatStatus (priorityName critical)).
  vm_compute. intuition discriminate.
Defined.

(** X10.  The colour of a status is the default of the [switch] exactly for
    [blocked] and [on_hold], which have no case of their own; two statuses
    share a colour only if they are the same, or are [resolved] and
    [closed], or are those two. *)
Theorem status_colours (s t : TicketStatus) :
  (getStatusColor s = js "bg-gray-100 text-gray-800" <->
   s = blocked \/ s = on_hold) /\
  (getStatusColor s = getStatusColor t <->
   s = t \/ (In s [resolved; closed] /\ In t [resolved; closed]) \/
   (In s [blocked; on_hold] /\ In t [blocked; on_hold])).
Proof.
  split; split.
  - destruct s; intros H; auto; vm_compute in H; discriminate H.
  - intros [-> | ->]; reflexivity.
  - destruct s, t; intros H; try (now left);
      try (vm_compute in H; discriminate H);
      right; cbn [In]; tauto.
  - intros [-> | [[Hs Ht] | [Hs Ht]]]; [reflexivity | |];
      cbn [In] in Hs, Ht;
      destruct Hs as [<- | [<- | []]]; destruct Ht as [<- | [<- | []]];
      reflexivity.
Qed.

(** X11.  The four priorities have four different colours, none of which
    is the default of the [switch]. *)
Theorem priority_colours (p q : TicketPriority) :
  (getPriorityColor p = getPriorityColor q <-> p = q) /\
  getPriorityColor p <> js "bg-gray-500".
Proof.
  split; [split|].
  - destruct p, q; intros H; try reflexivity; vm_compute in H; discriminate H.
  - now intros ->.
  - destruct p; intros H; vm_compute in H; discriminate H.
Qed.

(** ** The rows of the dashboard and the headers of the comments *)

(** X12.  The badges of a row of the dashboard account for every tag: the
    tags shown and the number on the overflow badge add up to the number
    of tags; there are at most three badges, and the overflow badge never
    shows zero. *)
Theorem tag_badges_account (tags : list jstring) :
  list_sum (map tagsBehind (tagBadges (Some tags))) = length tags /\
  (length (tagBadges (Some tags)) <= 3)%nat /\
  ~ In (TagOverflow 0) (tagBadges (Some tags)).
Proof.
  destruct tags as [|a [|b [|c t]]]; cbn; try (repeat split; auto; fail).
  - repeat split; auto. intros [H | []]. discriminate.
  - repeat split; auto. intros [H | [H | []]]; discriminate.
  - repeat split; auto. intros [H | [H | [H | []]]]; discriminate.
Qed.

(** X13.  The name over the comment of an AI assistant is never empty.
    The name over any other comment is empty exactly when the author is
    known and has an empty display name: the fallback ['Unknown User'] is
    for an unknown author only, while the avatar falls back to ["U"] in
    both cases. *)
Theorem comment_header_names (comment : Comment) :
  aiAuthorName comment <> [] /\
  (authorName comment = [] <->
   exists a, author_info comment = Some a /\ display_name a = []) /\
  (authorName comment = [] -> avatarInitial comment = js "U") /\
  (author_info comment = None ->
   authorName comment = js "Unknown User" /\ avatarInitial comment = js "U").
Proof.
  unfold aiAuthorName, authorName, avatarInitial.
  destruct (author_info comment) as [a|]; cbn [option_map orElse].
  - destruct (display_name a) as [|c t] eqn:E.
    + split; [discriminate|]. split; [|split].
      * split; [intros _; now exists a | reflexivity].
      * reflexivity.
      * discriminate.
    + split; [discriminate|]. split; [|split].
      * split; [discriminate|]. intros (b & Hb & Hd).
        inversion Hb; subst. rewrite E in Hd. discriminate.
      * discriminate.
      * discriminate.
  - split; [discriminate|]. split; [|split].
    + split; [discriminate|]. intros (b & Hb & _). discriminate.
    + discriminate.
    + intros _. split; reflexivity.
Qed.

(** ** The creator of a ticket *)

(** X14.  [getTicketCreatorInfo] never sets both flags; it sets neither
    exactly when the ticket has no creator information; and the creator it
    returns is that information. *)
Theorem creator_flags (ticket : TicketFields.Ticket) :
  isSystemCreated (getTicketCreatorInfo ticket) &&
  isUserCreated (getTicketCreatorInfo ticket) = false /\
  (creator (getTicketCreatorInfo ticket) = None <->
   isSystemCreated (getTicketCreatorInfo ticket) = false /\
   isUserCreated (getTicketCreatorInfo ticket) = false) /\
  creator (getTicketCreatorInfo ticket) = TicketFields.creator_info ticket.
Proof.
  unfold getTicketCreatorInfo.
  destruct (TicketFields.creator_info ticket) as [a|]; cbn.
  - destruct (actor_type a); cbn; repeat split; try discriminate;
      intros [H1 H2]; discriminate.
  - repeat split; auto.
Qed.

(** X15.  [TicketCreator] shows "Unknown" exactly when the ticket has no
    creator information, or its creator is a system actor without a
    system user type; and [TicketCreatorBadge] shows "Unknown Creator" in
    exactly the same cases. *)
Theorem creator_unknown_iff (ticket : TicketFields.Ticket)
  (showAvatar showTypeLabel : bool) :
  (isUnknownView (TicketCreator ticket showAvatar showTypeLabel) = true <->
   TicketFields.creator_info ticket = None \/
   exists a, TicketFields.creator_info ticket = Some a /\
             actor_type a = system /\ system_user_type a = None) /\
  (isUnknownView (TicketCreator ticket showAvatar showTypeLabel) = true <->
   TicketCreatorBadge ticket = js "Unknown Creator").
Proof.
  unfold TicketCreator, TicketCreatorBadge, getTicketCreatorInfo.
  destruct (TicketFields.creator_info ticket) as [a|]; cbn.
  - destruct (actor_type a) eqn:Et; cbn.
    + split; split; try discriminate;
        try (intros H; vm_compute in H; discriminate H).
      intros [H | (b & Hb & Hs & _)]; [discriminate|].
      inversion Hb; subst. rewrite Et in Hs. discriminate.
    + destruct (system_user_type a) as [t|] eqn:Es; cbn.
      * split; split; try discriminate;
          try (destruct t; intros H; vm_compute in H; discriminate H).
        intros [H | (b & Hb & _ & Hn)]; [discriminate|].
        inversion Hb; subst. rewrite Es in Hn. discriminate.
      * split; split; auto. intros _. right. now exists a.
  - split; split; auto.
Qed.

(** X16.  What is shown of the creator depends on the type of the actor,
    its display name and its system user type only: [is_system],
    [avatar_url] and the rest of the ticket are never consulted. *)
Theorem creator_view_depends_on (t1 t2 : TicketFields.Ticket)
  (showAvatar showTypeLabel : bool) :
  option_map (fun a => (actor_type a, display_name a, system_user_type a))
    (TicketFields.creator_info t1) =
  option_map (fun a => (actor_type a, display_name a, system_user_type a))
    (TicketFields.creator_info t2) ->
  TicketCreator t1 showAvatar showTypeLabel =
  TicketCreator t2 showAvatar showTypeLabel /\
  TicketCreatorBadge t1 = TicketCreatorBadge t2.
Proof.
  unfold TicketCreator, TicketCreatorBadge, getTicketCreatorInfo,
    getActorDisplayName.
  destruct (TicketFields.creator_info t1) as [a|],
           (TicketFields.creator_info t2) as [b|]; cbn; try discriminate.
  - intros H. injection H as Ht Hd Hs. rewrite Ht, Hd, Hs. now split.
  - now split.
Qed.

Lemma creator_view_depends_on_witness :
  TicketCreator (ticketOf ciActor) true true =
  TicketCreator (ticketOf ciActorOther) true true /\
  TicketCreatorBadge (ticketOf ciActor) =
  TicketCreatorBadge (ticketOf ciActorOther).
Proof.
  apply (creator_view_depends_on (ticketOf ciActor) (ticketOf ciActorOther)).
  reflexivity.
Defined.

(** X17.  With [showAvatar] off, as on the ticket page, no layout of
    [TicketCreator] has an avatar. *)
Theorem no_avatar_when_hidden (ticket : TicketFields.Ticket)
  (showTypeLabel : bool) :
  viewAvatar (TicketCreator ticket false showTypeLabel) = None.
Proof.
  unfold TicketCreator, getTicketCreatorInfo.
  destruct (TicketFields.creator_info ticket) as [a|]; cbn; [|reflexivity].
  destruct (actor_type a); cbn; [reflexivity|].
  destruct (system_user_type a); reflexivity.
Qed.

(** X18.  No two system user types share an icon, a label or a colour. *)
Theorem system_user_tables (s t : SystemUserType) :
  (getSystemUserIcon s = getSystemUserIcon t <-> s = t) /\
  (getSystemUserTypeLabel s = getSystemUserTypeLabel t <-> s = t) /\
  (getSystemUserColor s = getSystemUserColor t <-> s = t).
Proof.
  repeat split; try (now intros ->);
    destruct s, t; intros H; try reflexivity; vm_compute in H;
    discriminate H.
Qed.

(** ** The layout of the dashboard *)

Lemma strEqb_eq (a b : jstring) : strEqb a b = true <-> a = b.
Proof.
  revert b. induction a as [|x a IH]; intros [|y b]; cbn [strEqb];
    try (split; [discriminate | discriminate]); [now split|].
  rewrite andb_true_iff, N.eqb_eq, IH. split.
  - now intros [-> ->].
  - intros H. inversion H. now split.
Qed.

Lemma strEqb_refl (a : jstring) : strEqb a a = true.
Proof. now apply strEqb_eq. Qed.

Lemma startsWith_app_l (p q s : jstring) :
  startsWith (p ++ q) s = true -> startsWith p s = true.
Proof.
  revert s. induction p as [|a p IH]; intros s; [reflexivity|].
  destruct s as [|b s]; cbn [app startsWith]; [discriminate|].
  rewrite !andb_true_iff. intros [H1 H2]. split; [exact H1 | now apply IH].
Qed.

Lemma isPathActive_eq (pathname href : jstring) :
  isPathActive pathname href =
  strEqb pathname href ||
  (negb (strEqb href (js "/tickets")) && startsWith (href ++ js "/") pathname).
Proof.
  unfold isPathActive.
  destruct (strEqb pathname href) eqn:E; [reflexivity|]. cbn [orb].
  destruct (strEqb href (js "/tickets")) eqn:Et.
  - cbn [negb andb]. destruct (strEqb pathname (js "/tickets/my")).
    + reflexivity.
    + now destruct (strEqb href (js "/tickets/my") && _).
  - cbn [andb negb].
    destruct (strEqb href (js "/tickets/my")) eqn:Em; cbn [andb];
      [|now destruct (startsWith _ _)].
    destruct (strEqb pathname (js "/tickets")) eqn:Ep; cbn [andb];
      [|now destruct (startsWith _ _)].
    apply strEqb_eq in Em, Ep. subst. reflexivity.
Qed.

(** X19.  [isPathActive] comes to one rule: an item is active on its own
    path, and, unless it is the Tickets item, on every path beneath its
    own.  The two cases written for ["/tickets/my"] change nothing. *)
Theorem path_rule (pathname href : jstring) :
  isPathActive pathname href =
  strEqb pathname href ||
  (negb (strEqb href (js "/tickets")) && startsWith (href ++ js "/") pathname).
Proof. exact (isPathActive_eq pathname href). Qed.

(** X20.  The Tickets item is active on ["/tickets"] and nowhere else: not
    on the page of a ticket, and not on ["/tickets/new"]. *)
Theorem tickets_item_exact (pathname : jstring) :
  isPathActive pathname (js "/tickets") = true <-> pathname = js "/tickets".
Proof.
  rewrite isPathActive_eq, strEqb_refl. cbn [negb andb]. rewrite orb_false_r.
  apply strEqb_eq.
Qed.

Lemma active_prefix (pathname h : jstring) :
  isPathActive pathname h = true -> startsWith h pathname = true.
Proof.
  rewrite isPathActive_eq. intros H. apply orb_prop in H. destruct H as [H | H].
  - apply strEqb_eq in H. subst.
    rewrite <- (app_nil_r h) at 2. apply startsWith_app.
  - apply andb_prop in H. destruct H as [_ H].
    now apply startsWith_app_l in H.
Qed.

(** X21.  Whatever the path, at most one item of the navigation is
    active. *)
Theorem one_item_active (pathname : jstring) :
  (length (filter (fun item => isPathActive pathname (href item)) navigation)
   <= 1)%nat.
Proof.
  cbn [navigation filter href].
  destruct (isPathActive pathname (js "/dashboard")) eqn:Ed;
  destruct (isPathActive pathname (js "/tickets")) eqn:Et;
  destruct (isPathActive pathname (js "/teams")) eqn:Em;
    cbn [length]; try lia; exfalso;
    try apply active_prefix in Ed; try apply active_prefix in Et;
    try apply active_prefix in Em;
    repeat match goal with
    | H : startsWith _ _ = true |- _ =>
        apply startsWith_prefix in H; destruct H as [? H]
    end; subst; discriminate.
Qed.


(** X29.  The avatar of the side bar is never empty: it holds the initial,
    in capitals, of the name shown beside it, or ["U"] when that name is
    missing or empty. *)
Theorem sidebar_initial (user : option UserFields.User) :
  sidebarInitial user =
    toUpperCase (firstn 1 (orElse (sidebarName user) (js "U"))) /\
  sidebarInitial user <> [].
Proof.
  unfold sidebarInitial, sidebarName, userFullName, userEmail.
  destruct user as [[i e [[|c f]|]]|]; cbn [UserFields.full_name option_map
    truthy orElse firstn UserFields.email]; try (destruct e as [|d e]);
    cbn [orElse firstn]; split; try reflexivity; discriminate.
Qed.

(** ** The authentication store *)

Lemma issued_patch (p : Patch) :
  issued (SetState p) ->
  (setIsAuthenticated p = Some true -> exists u, setUser p = Some (Some u)) /\
  (setUser p = Some None -> setIsAuthenticated p = Some false) /\
  setIsInitialized p <> Some false.
Proof.
  intros [(r & m & H) | [(f & r & H) | [H | (s & m & H)]]].
  - unfold login, apiLogin, intercepted in H.
    destruct r as [d| |]; [destruct m as [u| |]|..]; cbn in H;
      repeat (destruct H as [H | H]; [inversion H; subst; cbn;
        repeat split; try discriminate; eauto |]); destruct H.
  - unfold register, intercepted in H.
    destruct r as [[i e]| |]; cbn in H;
      repeat (destruct H as [H | H]; [inversion H; subst; cbn;
        repeat split; try discriminate; eauto |]); destruct H.
  - unfold logout in H. cbn in H.
    repeat (destruct H as [H | H]; [inversion H; subst; cbn;
        repeat split; try discriminate; eauto |]); destruct H.
  - unfold initializeAuth, intercepted in H.
    destruct (truthyItem (getItem ACCESS s)); [destruct m as [u| |]|];
      cbn in H;
      repeat (destruct H as [H | H]; [inversion H; subst; cbn;
        repeat split; try discriminate; eauto |]); destruct H.
Qed.

Lemma perform_consistent (w : World) (e : Effect) :
  issued e -> consistent (auth w) -> consistent (auth (perform w e)).
Proof.
  intros Hi Hc. destruct e as [p | k v | k | l]; cbn [perform auth];
    try exact Hc.
  apply issued_patch in Hi. destruct Hi as (H1 & H2 & _).
  unfold consistent, set. cbn [isAuthenticated user].
  destruct (setIsAuthenticated p) as [[|]|] eqn:Ea; cbn [orKeep].
  - intros _. destruct (H1 eq_refl) as [u ->]. discriminate.
  - discriminate.
  - intros Ha. destruct (setUser p) as [[u|]|] eqn:Eu; cbn [orKeep].
    + discriminate.
    + specialize (H2 eq_refl). discriminate.
    + now apply Hc.
Qed.

Lemma login_issued (response : ApiResult AuthResponse)
  (me : ApiResult UserFields.User) : Forall issued (login response me).
Proof. apply Forall_forall. intros e H. left. eauto. Qed.

Lemma logout_issued : Forall issued logout.
Proof. apply Forall_forall. intros e H. right. right. now left. Qed.

Lemma session_issued : Forall issued sessionExample.
Proof.
  unfold sessionExample. rewrite !Forall_app.
  split; [apply login_issued|]. split; [apply logout_issued|].
  apply login_issued.
Qed.

(** X22.  In whatever order the steps of the calls of the store come, the
    store never says that somebody is signed in without holding a user;
    so the layout never shows the page without one. *)
Theorem authenticated_has_user (es : list Effect) (w : World) :
  Forall issued es -> consistent (auth w) ->
  consistent (auth (run es w)) /\
  (layoutView (auth (run es w)) = PageView -> user (auth (run es w)) <> None).
Proof.
  intros Hes Hw.
  assert (Hc : consistent (auth (run es w))).
  { revert w Hw. induction Hes as [|e es He _ IH]; intros w Hw; [exact Hw|].
    cbn [run fold_left]. apply IH. now apply perform_consistent. }
  split; [exact Hc|]. intros Hv. apply Hc. unfold layoutView in Hv.
  destruct (isInitialized _); [|discriminate].
  destruct (isAuthenticated _); [reflexivity | discriminate].
Qed.

Lemma authenticated_has_user_witness :
  consistent (auth (run sessionExample freshWorld)).
Proof.
  apply (authenticated_has_user sessionExample freshWorld).
  - exact session_issued.
  - discriminate.
Defined.

(** X23.  Once the store is initialized it stays so, whatever is called
    afterwards: the layout never goes back to its loading screen. *)
Theorem initialized_for_good (es : list Effect) (w : World) :
  Forall issued es ->
  isInitialized (auth w) = true -> isInitialized (auth (run es w)) = true.
Proof.
  intros Hes. revert w. induction Hes as [|e es He _ IH]; intros w Hw;
    [exact Hw|].
  cbn [run fold_left]. apply IH.
  destruct e as [p | k v | k | l]; cbn [perform auth]; try exact Hw.
  apply issued_patch in He. destruct He as (_ & _ & H3).
  unfold set. cbn [isInitialized].
  destruct (setIsInitialized p) as [[|]|]; cbn [orKeep];
    [reflexivity | now destruct H3 | exact Hw].
Qed.

Lemma initialized_for_good_witness :
  isInitialized (auth (run sessionExample (run logout freshWorld))) = true.
Proof.
  apply (initialized_for_good sessionExample (run logout freshWorld)).
  - exact session_issued.
  - reflexivity.
Defined.

Lemma getItem_removeItem (k k' : jstring) (s : Storage) :
  getItem k s = None -> getItem k (removeItem k' s) = None.
Proof.
  induction s as [|[a v] s IH]; [reflexivity|].
  cbn [getItem removeItem filter fst].
  destruct (strEqb k a) eqn:E; [discriminate|]. intros H.
  destruct (negb (strEqb k' a)); cbn [getItem]; [rewrite E|]; now apply IH.
Qed.

Lemma getItem_removed (k : jstring) (s : Storage) :
  getItem k (removeItem k s) = None.
Proof.
  induction s as [|[a v] s IH]; [reflexivity|]. cbn [removeItem filter fst].
  destruct (strEqb k a) eqn:E; cbn [negb]; [exact IH|].
  cbn [getItem]. now rewrite E.
Qed.

Lemma strEqb_sym (a b : jstring) : strEqb a b = strEqb b a.
Proof.
  revert b. induction a as [|x a IH]; intros [|y b]; cbn [strEqb];
    try reflexivity.
  now rewrite N.eqb_sym, IH.
Qed.

Lemma getItem_removeItem_other (k k' : jstring) (s : Storage) :
  strEqb k k' = false -> getItem k (removeItem k' s) = getItem k s.
Proof.
  intros Hk. induction s as [|[a v] s IH]; [reflexivity|].
  unfold removeItem in *. cbn [getItem filter fst].
  destruct (strEqb k' a) eqn:E; cbn [negb].
  - apply strEqb_eq in E. subst a. now rewrite Hk.
  - cbn [getItem]. now rewrite IH.
Qed.

Lemma getItem_setItem_other (k k' : jstring) (v : Item) (s : Storage) :
  strEqb k k' = false -> getItem k (setItem k' v s) = getItem k s.
Proof.
  intros Hk. unfold setItem. cbn [getItem]. rewrite Hk.
  now apply getItem_removeItem_other.
Qed.

Lemma getItem_setItem (k : jstring) (v : Item) (s : Storage) :
  getItem k (setItem k v s) = Some v.
Proof. unfold setItem. cbn [getItem]. now rewrite strEqb_refl. Qed.

(** A [set] touches the key of the middleware and no other. *)
Lemma perform_set_other (p : Patch) (w : World) (k : jstring) :
  strEqb k AUTH_STORAGE = false ->
  getItem k (storage (perform w (SetState p))) = getItem k (storage w).
Proof. intros Hk. cbn [perform storage]. now apply getItem_setItem_other. Qed.

(** X24.  [handleLogout], from any state: both tokens are gone from the
    storage, the store holds no user, the layout shows nothing and sends
    the browser to the login page. *)
Theorem logout_signs_out (w : World) :
  getItem ACCESS (storage (run handleLogout w)) = None /\
  getItem REFRESH (storage (run handleLogout w)) = None /\
  user (auth (run handleLogout w)) = None /\
  layoutView (auth (run handleLogout w)) = NoView /\
  redirectsToLogin (auth (run handleLogout w)) = true /\
  location (run handleLogout w) = Some (js "/login").
Proof.
  cbn [run handleLogout logout app fold_left perform storage auth location].
  split.
  { rewrite getItem_setItem_other by reflexivity.
    apply getItem_removeItem, getItem_removed. }
  split.
  { rewrite getItem_setItem_other by reflexivity. apply getItem_removed. }
  now repeat split.
Qed.

(** X25.  [register] never signs anybody in.  When the request succeeds
    the store says that nobody is signed in, even if somebody was, and no
    key of the storage changes but the one of the middleware, which holds
    the new user with the flag off: the tokens stay.  When the request
    fails the flag and the user are what they were.  Either way the store
    is no longer loading. *)
Theorem register_never_signs_in (fullName : option jstring)
  (response : ApiResult (jstring * jstring)) (w : World) :
  isLoading (auth (run (register fullName response) w)) = false /\
  (isAuthenticated (auth (run (register fullName response) w)) = true ->
   isAuthenticated (auth w) = true /\
   forall data, response <> Ok data) /\
  (forall data, response = Ok data ->
   isAuthenticated (auth (run (register fullName response) w)) = false /\
   user (auth (run (register fullName response) w)) =
     Some (UserFields.MkUser (fst data) (snd data) fullName) /\
   (forall key, strEqb key AUTH_STORAGE = false ->
      getItem key (storage (run (register fullName response) w)) =
      getItem key (storage w)) /\
   getItem AUTH_STORAGE (storage (run (register fullName response) w)) =
     Some (Persisted
             (Some (UserFields.MkUser (fst data) (snd data) fullName))
             false)) /\
  ((forall data, response <> Ok data) ->
   isAuthenticated (auth (run (register fullName response) w)) =
     isAuthenticated (auth w) /\
   user (auth (run (register fullName response) w)) = user (auth w)).
Proof.
  destruct response as [[i e]| |].
  - cbn [run register fold_left].
    split; [reflexivity|]. split; [discriminate|]. split.
    + intros data Hd. inversion Hd; subst. cbn [fst snd].
      split; [reflexivity|]. split; [reflexivity|]. split.
      * intros key Hk. now rewrite !perform_set_other.
      * cbn [perform storage]. apply getItem_setItem.
    + intros H. now destruct (H (i, e)).
  - cbn. split; [reflexivity|]. split.
    { intros H. split; [exact H | discriminate]. }
    split; [discriminate|]. intros _. now split.
  - cbn. split; [reflexivity|]. split.
    { intros H. split; [exact H | discriminate]. }
    split; [discriminate|]. intros _. now split.
Qed.

(** X26.  [login] always ends with the store not loading.  When both
    requests succeed the store holds the user, signed in and initialized,
    and the storage holds the two tokens of the response.  When either
    fails the user and the flag are what they were; but if it is the second
    request that fails, the two tokens of the first are already in the
    storage, and both stay there unless the failure is a 401, which removes
    both and sends the browser to the login page. *)
Theorem login_outcomes (response : ApiResult AuthResponse)
  (me : ApiResult UserFields.User) (w : World) :
  isLoading (auth (run (login response me) w)) = false /\
  (forall data u, response = Ok data -> me = Ok u ->
   auth (run (login response me) w) = MkAuthState (Some u) true false true /\
   getItem ACCESS (storage (run (login response me) w)) =
     Some (Text (access_token data)) /\
   getItem REFRESH (storage (run (login response me) w)) =
     Some (Text (refresh_token data))) /\
  ((forall data, response <> Ok data) \/ (forall u, me <> Ok u) ->
   user (auth (run (login response me) w)) = user (auth w) /\
   isAuthenticated (auth (run (login response me) w)) =
     isAuthenticated (auth w)) /\
  (forall data, response = Ok data -> me = Failed ->
   getItem ACCESS (storage (run (login response me) w)) =
     Some (Text (access_token data)) /\
   getItem REFRESH (storage (run (login response me) w)) =
     Some (Text (refresh_token data))) /\
  (forall data, response = Ok data -> me = Unauthorized ->
   getItem ACCESS (storage (run (login response me) w)) = None /\
   getItem REFRESH (storage (run (login response me) w)) = None /\
   location (run (login response me) w) = Some (js "/login")).
Proof.
  destruct response as [d| |]; [destruct me as [u| |]|..];
    cbn [run login apiLogin intercepted app fold_left].
  - split; [reflexivity|]. split.
    { intros data u' Hd Hu. inversion Hd; inversion Hu; subst.
      split; [reflexivity|]. cbn [perform storage auth].
      split; rewrite !getItem_setItem_other by reflexivity;
        apply getItem_setItem. }
    split; [|split; discriminate].
    intros [H | H]; [now destruct (H d) | now destruct (H u)].
  - split; [reflexivity|]. split; [discriminate|]. split; [now split|].
    split; [discriminate|]. intros data Hd _. cbn [perform storage location].
    split; [|split; [|reflexivity]];
      rewrite getItem_setItem_other by reflexivity.
    + apply getItem_removeItem, getItem_removed.
    + apply getItem_removed.
  - split; [reflexivity|]. split; [discriminate|]. split; [now split|].
    split; [|discriminate]. intros data Hd _. inversion Hd; subst.
    cbn [perform storage auth].
    split; rewrite !getItem_setItem_other by reflexivity;
      apply getItem_setItem.
  - cbn. split; [reflexivity|]. split; [discriminate|]. split; [now split|].
    split; discriminate.
  - cbn. split; [reflexivity|]. split; [discriminate|]. split; [now split|].
    split; discriminate.
Qed.

(** X27.  [initializeAuth] always leaves the store initialized.  It signs
    a user in only if the storage held a non-empty access token and the
    request for the user succeeded, and then the user is the one that the
    request gave.  With no token nobody is signed in, the user of the store
    is left as it was, and no key of the storage changes but the one of the
    middleware. *)
Theorem initialize_outcomes (me : ApiResult UserFields.User) (w : World) :
  isInitialized (auth (run (initializeAuth (storage w) me) w)) = true /\
  (isAuthenticated (auth (run (initializeAuth (storage w) me) w)) = true ->
   truthyItem (getItem ACCESS (storage w)) = true /\
   exists u, me = Ok u /\
             user (auth (run (initializeAuth (storage w) me) w)) = Some u) /\
  (truthyItem (getItem ACCESS (storage w)) = false ->
   isAuthenticated (auth (run (initializeAuth (storage w) me) w)) = false /\
   user (auth (run (initializeAuth (storage w) me) w)) = user (auth w) /\
   (forall key, strEqb key AUTH_STORAGE = false ->
      getItem key (storage (run (initializeAuth (storage w) me) w)) =
      getItem key (storage w)) /\
   getItem AUTH_STORAGE (storage (run (initializeAuth (storage w) me) w)) =
     Some (Persisted (user (auth w)) false)).
Proof.
  unfold initializeAuth.
  destruct (truthyItem (getItem ACCESS (storage w))) eqn:E.
  - destruct me as [u| |]; cbn.
    + split; [reflexivity|]. split; [|discriminate]. intros _.
      split; [reflexivity | now exists u].
    + split; [reflexivity|]. split; discriminate.
    + split; [reflexivity|]. split; discriminate.
  - cbn [run fold_left]. split; [reflexivity|]. split; [discriminate|].
    intros _. split; [reflexivity|]. split; [reflexivity|]. split.
    + intros key Hk. now apply perform_set_other.
    + cbn [perform storage]. apply getItem_setItem.
Qed.

(** ** The query of the ticket list *)

Lemma paramsSet_fresh (key value : jstring) (ps : SearchParams) :
  ~ In key (map fst ps) -> paramsSet key value ps = ps ++ [(key, value)].
Proof.
  induction ps as [|[k v] ps IH]; intros H; [reflexivity|].
  cbn [paramsSet app]. destruct (strEqb k key) eqn:E.
  - apply strEqb_eq in E. subst. exfalso. apply H. now left.
  - rewrite IH; [reflexivity|]. intros Hin. apply H. now right.
Qed.

Lemma append_all (key : jstring) (items : list jstring) :
  forall ps,
  fold_left (fun ps v => paramsAppend key v ps) items ps =
  ps ++ map (pair key) items.
Proof.
  induction items as [|v items IH]; intros ps; cbn [fold_left map].
  - now rewrite app_nil_r.
  - rewrite IH. unfold paramsAppend. now rewrite <- app_assoc.
Qed.

Lemma entryParams_keys (entry : jstring * FilterValue) (k : jstring) :
  In k (map fst (entryParams entry)) -> k = fst entry.
Proof.
  destruct entry as [key value]. unfold entryParams. cbn [fst snd].
  destruct value as [| | s | n | b | items]; cbn [map In fst];
    try (intros [<- | []]; reflexivity); try (intros H; now destruct H).
  rewrite map_map. cbn [fst]. intros H. apply in_map_iff in H.
  destruct H as (x & <- & _). reflexivity.
Qed.

Lemma addFilter_fresh (params : SearchParams) (entry : jstring * FilterValue) :
  ~ In (fst entry) (map fst params) ->
  addFilter params entry = params ++ entryParams entry.
Proof.
  destruct entry as [key value]. unfold addFilter, entryParams.
  cbn [fst snd]. intros H.
  destruct value as [| | s | n | b | items];
    try (now rewrite app_nil_r); try (now apply paramsSet_fresh).
  apply append_all.
Qed.

Lemma ticketParams_go (filters : list (jstring * FilterValue)) :
  forall params,
  NoDup (map fst filters) ->
  (forall k, In k (map fst params) -> ~ In k (map fst filters)) ->
  fold_left addFilter filters params = params ++ flat_map entryParams filters.
Proof.
  induction filters as [|e fs IH]; intros params Hnd Hfresh.
  - cbn. now rewrite app_nil_r.
  - cbn [fold_left flat_map map] in *. inversion Hnd as [|? ? Hn Hnd']; subst.
    rewrite addFilter_fresh.
    + rewrite IH; [now rewrite <- app_assoc | exact Hnd' |].
      intros k Hk. rewrite map_app in Hk. apply in_app_or in Hk.
      destruct Hk as [Hk | Hk].
      * intros Hin. apply (Hfresh k Hk). now right.
      * apply entryParams_keys in Hk. now subst.
    + intros Hin. apply (Hfresh _ Hin). now left.
Qed.

(** X28.  The parameters of the ticket query are those of the filters, in
    the order of the filters: none for a filter that is [undefined] or
    [null] or an empty array, one for each element of an array, and one for
    any other value. *)
Theorem ticket_params (filters : list (jstring * FilterValue)) :
  NoDup (map fst filters) ->
  ticketParams filters = flat_map entryParams filters.
Proof.
  intros H. unfold ticketParams.
  rewrite (ticketParams_go filters [] H); [reflexivity|]. intros k [].
Qed.

Lemma ticket_params_witness :
  ticketParams dashboardFilters = [(js "page", js "1"); (js "page_size", js "5")].
Proof.
  rewrite (ticket_params dashboardFilters).
  - vm_compute. reflexivity.
  - repeat constructor; intros H; vm_compute in H;
      repeat (destruct H as [H | H]; [discriminate H|]); exact H.
Defined.
